(** * Minigame client: rounds, scoring and progression

    A shallow embedding of the game screens of the finance-education app
    (local trivia quiz, server-backed quiz, category matching, spend
    detective, games hub) and of their network helpers, with the
    properties of the round/progression contract proved against it.

    Conventions.  A JavaScript [number] that holds a count is a [Z]; one
    that holds a ratio is a [Q] (the exact quotient, compared with [==]).
    An optional or nullable field is an [option].  A JS object used as a
    dictionary is a [gmap string _].  React state is a record; an event
    handler is a function from the state (and the server's reply, where it
    awaits one) to the next state.  A handler that awaits a reply is one
    step, from the press to the updates that follow the reply; presses
    made during the wait are not modelled. *)

From Stdlib Require Import ZArith QArith Qround Lqa Ascii String List Permutation Sorted Lia.
From stdpp Require Import base option list gmap strings pretty.

Local Open Scope string_scope.
Local Open Scope list_scope.
Local Open Scope Z_scope.

(** ** JavaScript helpers *)

Module JS.

(** [a[i]] on an array that may have holes: a hole or an index past the
    end reads as [undefined]. *)
Definition index {A} (a : list (option A)) (i : nat) : option A :=
  mjoin (a !! i).

(** [a[i] = v] on a copy of [a]: in range it overwrites, past the end
    the array grows and the skipped slots are holes. *)
Definition assign {A} (a : list (option A)) (i : nat) (v : A) : list (option A) :=
  if decide (i < length a)%nat
  then <[i := Some v]> a
  else a ++ replicate (i - length a) None ++ [Some v].

(** [x === c] for a possibly undefined/null number [x] and a number [c]. *)
Definition strict_eq (x : option Z) (c : Z) : bool :=
  match x with Some v => v =? c | None => false end.

(** [a.slice(0, n)]: a negative [n] counts from the end, and the end
    point is clamped to the array. *)
Definition slice0 {A} (a : list A) (n : Z) : list A :=
  let len := Z.of_nat (length a) in
  let e := if n <? 0 then Z.max (len + n) 0 else Z.min n len in
  take (Z.to_nat e) a.

(** [a.findIndex(p)]: the first index whose element satisfies [p], or -1. *)
Fixpoint findIndex_from {A} (p : A -> bool) (a : list A) (i : Z) : Z :=
  match a with
  | [] => -1
  | x :: a' => if p x then i else findIndex_from p a' (i + 1)
  end.

Definition findIndex {A} (p : A -> bool) (a : list A) : Z :=
  findIndex_from p a 0.

(** Truthiness of an optional string: [undefined] and the empty string
    are falsy. *)
Definition truthy_str (s : option string) : bool :=
  match s with Some t => negb (String.eqb t EmptyString) | None => false end.

(** [x || d] on an optional string. *)
Definition or_str (s : option string) (d : string) : string :=
  match s with Some t => if String.eqb t EmptyString then d else t | None => d end.

(** [x || d] on an optional number: [undefined] and [0] give [d]. *)
Definition or_num (x : option Z) (d : Z) : Z :=
  match x with Some v => if v =? 0 then d else v | None => d end.

(** [x ?? d]. *)
Definition nullish {A} (x : option A) (d : A) : A := default d x.

(** Truthiness of an optional boolean. *)
Definition truthy_bool (b : option bool) : bool := default false b.

(** The property names every plain object inherits from
    [Object.prototype] (ECMAScript, with the legacy accessors of its
    annex B). *)
Definition prototype_names : list string :=
  ["constructor"; "hasOwnProperty"; "isPrototypeOf"; "propertyIsEnumerable";
   "toLocaleString"; "toString"; "valueOf"; "__proto__";
   "__defineGetter__"; "__defineSetter__"; "__lookupGetter__"; "__lookupSetter__"].

(** [!!o[k]] on a plain object [o] whose own properties are booleans: an
    own property answers with its value; otherwise a name inherited from
    [Object.prototype] reads as a function or object, which is truthy. *)
Definition truthy_member (o : gmap string bool) (k : string) : bool :=
  match o !! k with
  | Some b => b
  | None => bool_decide (k ∈ prototype_names)
  end.

(** [rendered conditions]: how many of the conditional blocks of a
    screen's JSX, given by their conditions, are rendered. *)
Definition rendered (conditions : list bool) : nat :=
  length (List.filter (fun b : bool => b) conditions).

End JS.

(** ** Random draws

    [Math.random()] is an oracle: the [k]-th call of a run returns
    [rnd k].  Code that draws threads the call counter; [None] marks an
    array access outside the array, which the range of [Math.random]
    excludes (see [unit_draws]). *)

Module Rand.

Definition oracle := nat -> Q.

(** The contract of [Math.random]: every draw lies in [0, 1). *)
Definition unit_draws (rnd : oracle) : Prop :=
  forall k, (0 <= rnd k)%Q /\ (rnd k < 1)%Q.

Definition M (A : Type) : Type := nat -> option (A * nat).

Definition ret {A} (x : A) : M A := fun k => Some (x, k).

Definition bind {A B} (m : M A) (f : A -> M B) : M B :=
  fun k => match m k with
           | Some (x, k') => f x k'
           | None => None
           end.

Definition fail {A} : M A := fun _ => None.

(** [Math.floor(Math.random() * n)]. *)
Definition floor_random (rnd : oracle) (n : Z) : M Z :=
  fun k => Some (Qfloor (rnd k * inject_Z n), S k).

(** [a.map(f)] for an [f] that draws. *)
Fixpoint mapM {A B} (f : A -> M B) (l : list A) : M (list B) :=
  match l with
  | [] => ret []
  | x :: l' => bind (f x) (fun y => bind (mapM f l') (fun ys => ret (y :: ys)))
  end.

End Rand.

#[export] Instance rand_ret : MRet Rand.M := @Rand.ret.
#[export] Instance rand_bind : MBind Rand.M := fun A B f m => Rand.bind m f.

(** A concrete run of the generator: 0.0, 0.7, 0.4, 0.1, 0.8, ... *)
Definition sample_oracle : Rand.oracle :=
  fun k => (Z.of_nat (k * 7 mod 10) # 10)%Q.

(** ** Local trivia quiz (trivia-test screen) *)

Module TriviaTest.

Record UIQuestion := {
  id : string;
  question : string;
  choices : list string;
  correctIndex : Z;
  explanation : option string
}.

Record SubmitResult := {
  score : Z;
  total : Z;
  accuracy : Q;
  xpEarned : Z;
  level : Z;
  streak : Z;
  res_explanations : list string
}.

Definition bank : list UIQuestion := [
  {| id := "q1";
     question := "You put $600 into an emergency fund each month. About how much after 6 months (no interest)?";
     choices := ["$2,400"; "$3,600"; "$4,200"; "$6,000"];
     correctIndex := 1;
     explanation := Some "$600 × 6 = $3,600." |};
  {| id := "q2";
     question := "Your credit card shows 20% APR. What does APR best describe?";
     choices := ["Annual interest rate"; "Monthly late fee"; "Card limit"; "Cash-back rate"];
     correctIndex := 0;
     explanation := Some "APR is the yearly interest rate on balances." |};
  {| id := "q3";
     question := "Your take-home pay is $3,000. A 50/30/20 budget suggests how much for savings/debt?";
     choices := ["$300"; "$450"; "$600"; "$900"];
     correctIndex := 2;
     explanation := Some "20% of $3,000 = $600." |};
  {| id := "q4";
     question := "You owe $1,200 at 1% monthly interest and pay only $12 this month. What happens?";
     choices := ["Balance unchanged"; "Balance increases"; "Balance drops to $1,188"; "Account closes"];
     correctIndex := 1;
     explanation := Some "$12 covers interest only → principal remains; more fees may accrue." |};
  {| id := "q5";
     question := "A savings account pays 4% APY. Roughly how much interest on $1,000 after one year?";
     choices := ["$4"; "$40"; "$400"; "$140"];
     correctIndex := 1;
     explanation := Some "≈ 4% of $1,000 = $40 (ignoring compounding nuance)." |};
  {| id := "q6";
     question := "You finance a $20,000 car for 5 years at a fixed rate. Lower monthly payment usually means…";
     choices := ["Shorter loan term"; "More interest over life"; "Higher credit score"; "Higher down payment"];
     correctIndex := 1;
     explanation := Some "Longer term → lower monthly but more total interest." |};
  {| id := "q7";
     question := "Which action most quickly improves your credit score?";
     choices := ["Lower credit utilization"; "Open many new cards"; "Only make minimums"; "Ignore old collections"];
     correctIndex := 0;
     explanation := Some "Keeping balances low vs. limits improves utilization." |};
  {| id := "q8";
     question := "You earn $1,200 and spend $900 this week. Savings rate?";
     choices := ["15%"; "20%"; "25%"; "30%"];
     correctIndex := 2;
     explanation := Some "Saved $300 → 300/1200 = 25%." |}
].

(** [[c[i], c[j]] = [c[j], c[i]]]: both reads happen first. *)
Definition swap {T} (c : list T) (i : nat) (j : Z) : option (list T) :=
  if j <? 0 then None
  else
    match c !! i, c !! Z.to_nat j with
    | Some ci, Some cj => Some (<[Z.to_nat j := ci]> (<[i := cj]> c))
    | _, _ => None
    end.

(** The body of [for (let i = c.length-1; i > 0; i--)], entered at [i]. *)
Fixpoint shuffle_loop {T} (rnd : Rand.oracle) (i : nat) (c : list T) : Rand.M (list T) :=
  match i with
  | O => mret c
  | S i' =>
      j ← Rand.floor_random rnd (Z.of_nat i + 1);
      match swap c i j with
      | Some c' => shuffle_loop rnd i' c'
      | None => Rand.fail
      end
  end.

Definition shuffle {T} (rnd : Rand.oracle) (a : list T) : Rand.M (list T) :=
  shuffle_loop rnd (length a - 1) a.

(** [q.choices.map((c,i) => ({c,i}))] *)
Definition pairs_of (cs : list string) : list (string * Z) :=
  imap (fun i c => (c, Z.of_nat i)) cs.

Definition reshuffle_question (rnd : Rand.oracle) (q : UIQuestion) : Rand.M UIQuestion :=
  s ← shuffle rnd (pairs_of (choices q));
  mret {| id := id q;
          question := question q;
          choices := map fst s;
          correctIndex := JS.findIndex (fun p => snd p =? correctIndex q) s;
          explanation := explanation q |}.

Definition sampleQuestions_from (rnd : Rand.oracle) (b : list UIQuestion) (n : Z)
  : Rand.M (list UIQuestion) :=
  sb ← shuffle rnd b;
  Rand.mapM (reshuffle_question rnd) (JS.slice0 sb n).

Definition sampleQuestions (rnd : Rand.oracle) (n : Z) : Rand.M (list UIQuestion) :=
  sampleQuestions_from rnd bank n.

(** *** The screen's state and handlers *)

Record State := {
  questions : list UIQuestion;
  index : nat;
  selected : option Z;
  checked : bool;
  answers : list (option Z);
  explanations : list string;
  result : option SubmitResult;
  pressLock : bool
}.

(** [useState] defaults, before the mount effect runs [load]. *)
Definition initial : State :=
  {| questions := []; index := 0; selected := None; checked := false;
     answers := []; explanations := []; result := None; pressLock := false |}.

(** [const q = questions[index]] *)
Definition q (s : State) : option UIQuestion := questions s !! index s.

(** [const done = index >= questions.length] *)
Definition done (s : State) : bool := (length (questions s) <=? index s)%nat.

(** [load], given the list that [sampleQuestions(6)] returned. *)
Definition load (qs : list UIQuestion) (s : State) : State :=
  {| questions := qs; index := 0; selected := None; checked := false;
     answers := []; explanations := []; result := None;
     pressLock := pressLock s |}.

Definition mount (rnd : Rand.oracle) : Rand.M State :=
  qs ← sampleQuestions rnd 6;
  mret (load qs initial).

(** ASCII white space, as far as [trim] matters for the bank's texts. *)
Definition is_space (c : ascii) : bool :=
  let n := nat_of_ascii c in
  ((n =? 32) || ((9 <=? n) && (n <=? 13)))%nat.

Fixpoint blank (t : string) : bool :=
  match t with
  | EmptyString => true
  | String c t' => is_space c && blank t'
  end.

Definition onCheck (s : State) : State :=
  match selected s, q s with
  | Some _, Some qq =>
      if pressLock s then s
      else
        {| questions := questions s; index := index s; selected := selected s;
           checked := true;
           answers := answers s;
           explanations :=
             match explanation qq with
             | Some e => if blank e then explanations s else explanations s ++ [e]
             | None => explanations s
             end;
           result := result s;
           pressLock := true |}
  | _, _ => s
  end.

(** [a.reduce((acc, x, i) => f(acc, x, i), acc0)] *)
Fixpoint reduce_from {A B} (f : B -> A -> nat -> B) (acc : B) (i : nat) (a : list A) : B :=
  match a with
  | [] => acc
  | x :: a' => reduce_from f (f acc x i) (S i) a'
  end.

Definition reduce {A B} (f : B -> A -> nat -> B) (acc0 : B) (a : list A) : B :=
  reduce_from f acc0 0%nat a.

Definition b2z (b : bool) : Z := if b then 1 else 0.

Definition earlier (qs : list UIQuestion) (ans : list (option Z)) : Z :=
  reduce (fun acc qq i => acc + b2z (JS.strict_eq (JS.index ans i) (correctIndex qq))) 0 qs.

Definition make_result (s : State) (qq : UIQuestion) : SubmitResult :=
  let total := Z.of_nat (length (questions s)) in
  let score :=
    earlier (questions s) (answers s)
    + b2z (JS.strict_eq (selected s) (correctIndex qq))
    - b2z (JS.strict_eq (JS.index (answers s) (index s)) (correctIndex qq)) in
  let accuracy := if total =? 0 then 0%Q else (inject_Z score / inject_Z total)%Q in
  {| score := score; total := total; accuracy := accuracy;
     xpEarned := score * 20;
     level := Z.max 1 (Qfloor (1 + accuracy * 10));
     streak := if Qle_bool (6 # 10) accuracy then 3 else 0;
     res_explanations := explanations s |}.

Definition isLast (s : State) : bool :=
  Z.of_nat (index s) =? Z.of_nat (length (questions s)) - 1.

(** [onNextOrSubmit], followed by the effect that the change of [index]
    triggers ([setSelected(null); setChecked(false)]).  Reading
    [q.correctIndex] with [q] undefined would throw; then only the updates
    queued before it remain ([isLast_q] shows this cannot happen). *)
Definition onNextOrSubmit (s : State) : State :=
  if pressLock s then s
  else
    let next :=
      match selected s with
      | Some v => JS.assign (answers s) (index s) v
      | None => answers s
      end in
    if isLast s then
      match q s with
      | Some qq =>
          {| questions := questions s; index := S (index s);
             selected := None; checked := false;
             answers := next; explanations := explanations s;
             result := Some (make_result s qq);
             pressLock := true |}
      | None =>
          {| questions := questions s; index := index s;
             selected := selected s; checked := checked s;
             answers := next; explanations := explanations s;
             result := result s; pressLock := true |}
      end
    else
      {| questions := questions s; index := S (index s);
         selected := None; checked := false;
         answers := next; explanations := explanations s;
         result := result s; pressLock := true |}.

(** The 250 ms timer that releases the press lock. *)
Definition unlock (s : State) : State :=
  {| questions := questions s; index := index s; selected := selected s;
     checked := checked s; answers := answers s;
     explanations := explanations s; result := result s;
     pressLock := false |}.

Definition setSelected (i : nat) (s : State) : State :=
  {| questions := questions s; index := index s; selected := Some (Z.of_nat i);
     checked := checked s; answers := answers s;
     explanations := explanations s; result := result s;
     pressLock := pressLock s |}.

(** What the user and the timer can do.  [PressRestart qs] carries the
    list that [sampleQuestions(6)] returns at that press. *)
Inductive Event :=
| PressOption (i : nat)
| PressCheck
| PressNext
| LockTimer
| PressRestart (qs : list UIQuestion).

(** The result view replaces the quiz view when [done && result]. *)
Definition result_view (s : State) : bool :=
  done s && bool_decide (is_Some (result s)).

(** One event, dispatched to the control that is rendered: the result
    view has only Play Again; the quiz view has one button per choice of
    [q], and either Check (disabled without a selection) or Next. *)
Definition step (s : State) (e : Event) : State :=
  match e with
  | LockTimer => unlock s
  | PressRestart qs => if result_view s then load qs s else s
  | PressOption i =>
      if result_view s then s
      else
        match q s with
        | Some qq =>
            if bool_decide (i < length (choices qq))%nat && negb (checked s)
            then setSelected i s else s
        | None => s
        end
  | PressCheck =>
      if result_view s || checked s then s
      else match selected s with Some _ => onCheck s | None => s end
  | PressNext =>
      if result_view s || negb (checked s) then s else onNextOrSubmit s
  end.

Definition run (s : State) (es : list Event) : State := foldl step s es.

(** The number of questions whose recorded answer is the correct one. *)
Definition answered_correctly (ans : list (option Z)) (p : nat * UIQuestion) : bool :=
  JS.strict_eq (JS.index ans (fst p)) (correctIndex (snd p)).

Definition num_correct (qs : list UIQuestion) (ans : list (option Z)) : nat :=
  length (List.filter (answered_correctly ans) (imap pair qs)).

(** *** Specification vocabulary *)

(** What shuffling the choices of one question preserves. *)
Definition reshuffled (q q' : UIQuestion) : Prop :=
  id q' = id q /\ question q' = question q /\ explanation q' = explanation q
  /\ choices q' ≡ₚ choices q
  /\ forall c, 0 <= correctIndex q ->
               choices q !! Z.to_nat (correctIndex q) = Some c ->
               0 <= correctIndex q' < Z.of_nat (length (choices q'))
               /\ choices q' !! Z.to_nat (correctIndex q') = Some c.

(** A question of [b] as it comes back from [sampleQuestions]. *)
Definition drawn_from (b : list UIQuestion) (q' : UIQuestion) : Prop :=
  exists q c,
    q ∈ b /\ id q' = id q /\ question q' = question q
    /\ choices q' ≡ₚ choices q
    /\ choices q !! Z.to_nat (correctIndex q) = Some c
    /\ 0 <= correctIndex q' < Z.of_nat (length (choices q'))
    /\ choices q' !! Z.to_nat (correctIndex q') = Some c.

(** A bank is well formed when its ids are pairwise distinct and every
    [correctIndex] points at one of the question's choices. *)
Definition well_formed_bank (b : list UIQuestion) : Prop :=
  NoDup (map id b)
  /\ Forall (fun q => 0 <= correctIndex q
                      /\ is_Some (choices q !! Z.to_nat (correctIndex q))) b.

(** The matches counted by [earlier], question by question. *)
Fixpoint hits (qs : list UIQuestion) (ans : list (option Z)) (i : nat) : Z :=
  match qs with
  | [] => 0
  | qq :: qs' =>
      b2z (JS.strict_eq (JS.index ans i) (correctIndex qq)) + hits qs' ans (S i)
  end.

(** What a stored result satisfies with respect to the questions and the
    answers it was computed from. *)
Record scored (qs : list UIQuestion) (ans : list (option Z)) (r : SubmitResult) : Prop := {
  scored_score : score r = Z.of_nat (num_correct qs ans);
  scored_total : total r = Z.of_nat (length qs);
  scored_pos : 0 < total r;
  scored_accuracy : (accuracy r == inject_Z (score r) / inject_Z (total r))%Q;
  scored_xp : xpEarned r = score r * 20
}.

(** The invariant of the screen: Next is offered only after a choice was
    checked, and a stored result belongs to a finished round. *)
Definition quiz_inv (s : State) : Prop :=
  (checked s = true -> is_Some (selected s))
  /\ forall r, result s = Some r ->
               done s = true /\ scored (questions s) (answers s) r.

(** *** Progress and the shape of a round *)

(** [Math.round(x)]: the nearest integer, the larger one at a tie. *)
Definition js_round (x : Q) : Z := Qfloor (x + (1 # 2)).

(** [questions.length ? Math.round((index / questions.length) * 100) : 0] *)
Definition progressPct (s : State) : Z :=
  if (length (questions s) =? 0)%nat then 0
  else js_round (inject_Z (Z.of_nat (index s))
                 / inject_Z (Z.of_nat (length (questions s))) * 100).

(** The explanation that [onCheck] appends for a question, if any. *)
Definition shown_explanation (qq : UIQuestion) : option string :=
  match explanation qq with
  | Some e => if blank e then None else Some e
  | None => None
  end.

(** How many questions have been checked so far in the round. *)
Definition checked_count (s : State) : nat :=
  (index s + (if checked s then 1 else 0))%nat.

(** Events that neither check an answer nor restart the round. *)
Definition passive (e : Event) : bool :=
  match e with
  | PressCheck | PressRestart _ => false
  | PressOption _ | PressNext | LockTimer => true
  end.

(** The invariant that ties the counters of a round together: the index
    stays within the questions, every question passed has one recorded
    answer, a selection is a choice of the current question, the
    explanations follow the questions checked, and a result is stored
    exactly when the last question has been passed. *)
Record round_inv (s : State) : Prop := {
  inv_index : (index s <= length (questions s))%nat;
  inv_answers_length : length (answers s) = index s;
  inv_answers :
    forall i qq, questions s !! i = Some qq -> (i < index s)%nat ->
      exists v, answers s !! i = Some (Some v)
                /\ 0 <= v < Z.of_nat (length (choices qq));
  inv_selected :
    forall v, selected s = Some v ->
      exists qq, q s = Some qq /\ 0 <= v < Z.of_nat (length (choices qq));
  inv_checked : checked s = true -> is_Some (selected s);
  inv_explanations :
    explanations s = omap shown_explanation (take (checked_count s) (questions s));
  inv_result :
    is_Some (result s)
    <-> (0 < length (questions s))%nat /\ index s = length (questions s);
  inv_result_value :
    forall r, result s = Some r ->
      level r = Z.max 1 (Qfloor (1 + accuracy r * 10))
      /\ streak r = (if Qle_bool (6 # 10) (accuracy r) then 3 else 0)
      /\ res_explanations r = explanations s
}.

End TriviaTest.

(** ** Network helpers

    One request as seen from the caller.  Time is counted in milliseconds
    from the call.  The network either delivers the whole response (status
    line and body text) at some instant, fails at some instant, or stays
    silent for ever.  A call that arms an abort timer races it against the
    network; a reply counts as in time when it arrives strictly before the
    timer fires. *)

Module Net.

Inductive Body :=
| EmptyBody
| JsonBody (error message : option string) (payload : string)
| Malformed (syntax_error : string).

Inductive Network :=
| Delivers (at_ms : Z) (ok : bool) (status_line : string) (body : Body)
| Breaks (at_ms : Z) (name message : string)
| Silent.

(** How the returned promise ends: [Pending] is a promise that never
    settles. *)
Inductive Promise :=
| Resolved (at_ms : Z) (data : option string)
| Rejected (at_ms : Z) (message : string)
| Pending.

Definition timed_out_message : string :=
  "Request timed out — check connection or server load.".

(** [fetch(url, { signal })] with [setTimeout(() => controller.abort(),
    timeoutMs)]: what the [try] block sees. *)
Definition fetch_with_abort (timeoutMs : Z) (n : Network) : Network :=
  let fires := Z.max 0 timeoutMs in
  match n with
  | Delivers t ok st b =>
      if t <? fires then n else Breaks fires "AbortError" "Aborted"
  | Breaks t nm m =>
      if t <? fires then n else Breaks fires "AbortError" "Aborted"
  | Silent => Breaks fires "AbortError" "Aborted"
  end.

(** [fetchJson(input, init, timeoutMs = 15000)] of the quiz screen. *)
Definition fetchJson_ms (timeoutMs : Z) (n : Network) : Promise :=
  match fetch_with_abort timeoutMs n with
  | Delivers t ok st body =>
      match body with
      | Malformed e => Rejected t e
      | EmptyBody =>
          if ok then Resolved t None else Rejected t ("HTTP " +:+ st)
      | JsonBody err msg payload =>
          if ok then Resolved t (Some payload)
          else
            Rejected t
              (if JS.truthy_str err then JS.or_str err EmptyString
               else if JS.truthy_str msg then JS.or_str msg EmptyString
               else "HTTP " +:+ st)
      end
  | Breaks t nm m =>
      if String.eqb nm "AbortError" then Rejected t timed_out_message
      else Rejected t m
  | Silent => Pending
  end.

Definition default_timeout : Z := 15000.

Definition fetchJson (n : Network) : Promise := fetchJson_ms default_timeout n.

(** The value [{}], as the data of a resolved promise. *)
Definition empty_object : string := "{}".

(** [post(path, body)] of the bank-link service: [getAuthToken] throws
    without a signed-in user; then a plain [fetch], no abort signal;
    [data] starts as [{}] and stays [{}] for an empty body and for a body
    that does not parse (the parse error is only logged). *)
Definition post (signed_in : bool) (n : Network) : Promise :=
  if negb signed_in
  then Rejected 0 "User not authenticated. Please sign in first."
  else
  match n with
  | Delivers t ok st body =>
      let err :=
        match body with
        | JsonBody e _ _ => e
        | _ => None
        end in
      if ok then
        Resolved t (Some (match body with JsonBody _ _ p => p | _ => empty_object end))
      else
        Rejected t (if JS.truthy_str err then JS.or_str err EmptyString
                    else "Request failed: " +:+ st)
  | Breaks t nm m => Rejected t m
  | Silent => Pending
  end.

(** When the network answers, if it ever does. *)
Definition arrival (n : Network) : option Z :=
  match n with
  | Delivers t _ _ _ | Breaks t _ _ => Some t
  | Silent => None
  end.

Definition settles_by (deadline : Z) (p : Promise) : Prop :=
  match p with
  | Resolved t _ | Rejected t _ => t <= deadline
  | Pending => False
  end.

End Net.

(** ** Server-backed quiz (trivia screen) *)

Module Trivia.

Record Question := {
  id : string;
  type : string;
  question : string;
  choices : list string
}.

Record NewSetResponse := {
  ok : bool;
  can_play : bool;
  difficulty : option string;
  questions : option (list Question);
  insufficient_data : option bool;
  message : option string;
  xp_awarded : option Z;
  total_xp : option Z;
  level : option Z;
  streak : option Z
}.

Record LowData := {
  low_message : string;
  low_xp_awarded : Z;
  low_level : Z;
  low_streak : Z
}.

Record Feedback := {
  isCorrect : bool;
  fb_correctIndex : Z;
  fb_explanation : string
}.

Record CompleteResponse := {
  cr_ok : bool;
  cr_score : Z;
  cr_total : Z;
  cr_accuracy : Q;
  cr_xp_earned : Z;
  cr_total_xp : Z;
  cr_level : Z;
  cr_streak : Z
}.

(** The screen state.  [refreshes] counts the calls of the XP context's
    [refresh]. *)
Record State := {
  st_questions : list Question;
  currentIndex : nat;
  st_difficulty : string;
  selectedIndex : option Z;
  feedbackState : option Feedback;
  loading : bool;
  submitting : bool;
  error : option string;
  finalResults : option CompleteResponse;
  lowDataMessage : option LowData;
  refreshes : nat
}.

Definition initial : State :=
  {| st_questions := []; currentIndex := 0; st_difficulty := "basic";
     selectedIndex := None; feedbackState := None;
     loading := true; submitting := false; error := None;
     finalResults := None; lowDataMessage := None; refreshes := 0 |}.

(** What [await startNewQuiz()] produces: a parsed reply, or an
    exception (not signed in, transport failure, timeout, HTTP error, or
    a [null] body whose fields cannot be read). *)
Inductive Outcome :=
| Replied (res : NewSetResponse)
| Threw (message : option string).

(** The resets at the top of [loadQuiz], then [finally]. *)
Definition settle (s : State) (qs : list Question) (d : string)
    (err : option string) (low : option LowData) (r : nat) : State :=
  {| st_questions := qs; currentIndex := 0; st_difficulty := d;
     selectedIndex := None; feedbackState := None;
     loading := false; submitting := submitting s; error := err;
     finalResults := None; lowDataMessage := low; refreshes := r |}.

Definition fail_with (s : State) (msg : string) : State :=
  settle s (st_questions s) (st_difficulty s) (Some msg) None (refreshes s).

Definition loadQuiz (o : Outcome) (s : State) : State :=
  match o with
  | Threw m => fail_with s (JS.or_str m "Failed to load quiz")
  | Replied res =>
      if negb (ok res) then fail_with s "Failed to start quiz"
      else if negb (can_play res) then
        if JS.truthy_bool (insufficient_data res) && JS.truthy_str (message res)
        then
          settle s (st_questions s) (st_difficulty s) None
            (Some {| low_message := JS.or_str (message res) EmptyString;
                     low_xp_awarded := JS.or_num (xp_awarded res) 0;
                     low_level := JS.or_num (level res) 1;
                     low_streak := JS.or_num (streak res) 0 |})
            (if 0 <? JS.nullish (xp_awarded res) 0
             then S (refreshes s) else refreshes s)
        else
          fail_with s (JS.or_str (message res) "Cannot play quiz at this time")
      else
        match questions res with
        | Some (q0 :: qs) =>
            settle s (q0 :: qs) (JS.or_str (difficulty res) "basic") None None
              (refreshes s)
        | _ => fail_with s "No questions returned"
        end
  end.

(** Which of the screen's returns is rendered. *)
Inductive View :=
| LoadingView
| ErrorView (msg : string)
| LowDataView (low : LowData)
| ResultsView
| QuizView.

Definition view (s : State) : View :=
  if loading s then LoadingView
  else
    match error s, st_questions s !! currentIndex s, lowDataMessage s,
          finalResults s with
    | Some e, None, None, None =>
        if String.eqb e EmptyString then QuizView else ErrorView e
    | _, _, Some low, _ => LowDataView low
    | _, _, None, Some _ => ResultsView
    | _, _, None, None => QuizView
    end.

(** *** Answering and finishing *)

Record AnswerResponse := {
  ar_ok : bool;
  is_correct : bool;
  correct_index : Z;
  selected_index : Z;
  ar_explanation : string;
  ar_xp_earned : Z;
  questions_answered : Z;
  total_questions : Z;
  quiz_complete : bool
}.

Inductive AnswerOutcome :=
| AnswerReplied (res : AnswerResponse)
| AnswerThrew (message : option string).

Inductive CompleteOutcome :=
| CompleteReplied (res : CompleteResponse)
| CompleteThrew (message : option string).

(** [const currentQuestion = questions[currentIndex] || null] *)
Definition currentQuestion (s : State) : option Question :=
  st_questions s !! currentIndex s.

(** [const isLastQuestion = currentIndex === questions.length - 1] *)
Definition isLastQuestion (s : State) : bool :=
  Z.of_nat (currentIndex s) =? Z.of_nat (length (st_questions s)) - 1.

(** [((currentIndex + 1) / questions.length) * 100], or 0 without questions. *)
Definition progress (s : State) : Q :=
  if (length (st_questions s) =? 0)%nat then 0%Q
  else (inject_Z (Z.of_nat (currentIndex s) + 1)
        / inject_Z (Z.of_nat (length (st_questions s))) * 100)%Q.

Definition with_answer (s : State) (err : option string) (fb : option Feedback) : State :=
  {| st_questions := st_questions s; currentIndex := currentIndex s;
     st_difficulty := st_difficulty s;
     selectedIndex := selectedIndex s; feedbackState := fb;
     loading := loading s; submitting := false; error := err;
     finalResults := finalResults s; lowDataMessage := lowDataMessage s;
     refreshes := refreshes s |}.

(** [handleSubmitAnswer]: the awaited reply, then [finally]. *)
Definition handleSubmitAnswer (o : AnswerOutcome) (s : State) : State :=
  match selectedIndex s, currentQuestion s, feedbackState s with
  | Some _, Some _, None =>
      match o with
      | AnswerThrew m =>
          with_answer s (Some (JS.or_str m "Failed to submit answer")) None
      | AnswerReplied res =>
          if negb (ar_ok res)
          then with_answer s (Some "Failed to submit answer") None
          else with_answer s None
                 (Some {| isCorrect := is_correct res;
                          fb_correctIndex := correct_index res;
                          fb_explanation := ar_explanation res |})
      end
  | _, _, _ => s
  end.

(** [handleNext]: on the last question it awaits [completeQuiz] and then
    the XP context's [refresh]; otherwise it moves to the next question. *)
Definition handleNext (o : CompleteOutcome) (s : State) : State :=
  match feedbackState s with
  | None => s
  | Some _ =>
      if isLastQuestion s then
        let finished (err : option string) (fin : option CompleteResponse) (r : nat) :=
          {| st_questions := st_questions s; currentIndex := currentIndex s;
             st_difficulty := st_difficulty s;
             selectedIndex := selectedIndex s; feedbackState := feedbackState s;
             loading := loading s; submitting := false; error := err;
             finalResults := fin; lowDataMessage := lowDataMessage s;
             refreshes := r |} in
        match o with
        | CompleteThrew m =>
            finished (Some (JS.or_str m "Failed to complete quiz"))
                     (finalResults s) (refreshes s)
        | CompleteReplied res =>
            if negb (cr_ok res)
            then finished (Some "Failed to complete quiz") (finalResults s) (refreshes s)
            else finished (error s) (Some res) (S (refreshes s))
        end
      else
        {| st_questions := st_questions s; currentIndex := S (currentIndex s);
           st_difficulty := st_difficulty s;
           selectedIndex := None; feedbackState := None;
           loading := loading s; submitting := submitting s; error := error s;
           finalResults := finalResults s; lowDataMessage := lowDataMessage s;
           refreshes := refreshes s |}
  end.

Definition setSelectedIndex (i : nat) (s : State) : State :=
  {| st_questions := st_questions s; currentIndex := currentIndex s;
     st_difficulty := st_difficulty s;
     selectedIndex := Some (Z.of_nat i); feedbackState := feedbackState s;
     loading := loading s; submitting := submitting s; error := error s;
     finalResults := finalResults s; lowDataMessage := lowDataMessage s;
     refreshes := refreshes s |}.

Definition quiz_shown (s : State) : bool :=
  match view s with QuizView => true | _ => false end.

(** What the user can do.  The quiz view has one button per choice
    (disabled once feedback is showing) and either Check Answer or Next;
    the error, low-data and results views each have one button that runs
    [loadQuiz], which also runs once when the screen mounts. *)
Inductive Event :=
| PressChoice (i : nat)
| PressCheckAnswer (o : AnswerOutcome)
| PressNextQuestion (o : CompleteOutcome)
| Reload (o : Outcome).

Definition step (s : State) (e : Event) : State :=
  match e with
  | Reload o => if quiz_shown s then s else loadQuiz o s
  | PressChoice i =>
      match currentQuestion s, feedbackState s with
      | Some qq, None =>
          if quiz_shown s && bool_decide (i < length (choices qq))%nat
          then setSelectedIndex i s else s
      | _, _ => s
      end
  | PressCheckAnswer o =>
      match feedbackState s, selectedIndex s with
      | None, Some _ =>
          if quiz_shown s && negb (submitting s) then handleSubmitAnswer o s else s
      | _, _ => s
      end
  | PressNextQuestion o =>
      match feedbackState s with
      | Some _ =>
          if quiz_shown s && negb (submitting s) then handleNext o s else s
      | None => s
      end
  end.

Definition run (s : State) (es : list Event) : State := foldl step s es.

(** The requests an event sends to the server. *)
Inductive Request :=
| NewQuiz
| Answer (question_id : string) (selected_index : Z)
| Complete.

Definition requests (s : State) (e : Event) : list Request :=
  match e with
  | Reload _ => if quiz_shown s then [] else [NewQuiz]
  | PressChoice _ => []
  | PressCheckAnswer _ =>
      match feedbackState s, selectedIndex s, currentQuestion s with
      | None, Some i, Some qq =>
          if quiz_shown s && negb (submitting s) then [Answer (id qq) i] else []
      | _, _, _ => []
      end
  | PressNextQuestion _ =>
      match feedbackState s with
      | Some _ =>
          if quiz_shown s && negb (submitting s) && isLastQuestion s
          then [Complete] else []
      | None => []
      end
  end.

(** Whether a call of [loadQuiz] with this outcome reaches
    [setQuestions], replacing the questions; every other outcome leaves
    the questions of the last quiz in place. *)
Definition loads (o : Outcome) : bool :=
  match o with
  | Threw _ => false
  | Replied res =>
      ok res && can_play res
      && match questions res with Some (_ :: _) => true | _ => false end
  end.

(** The ids of the questions whose answer the server has accepted since
    the questions on the screen were loaded, oldest first, along a run
    that starts in [s] with [acc] already accepted.  A reload that does
    not replace the questions leaves the list as it is: the same
    questions are then gone through again. *)
Definition accepts (s : State) (e : Event) (acc : list string) : list string :=
  match e with
  | Reload o => if quiz_shown s then acc else if loads o then [] else acc
  | PressCheckAnswer (AnswerReplied res) =>
      match requests s e with
      | [Answer k _] => if ar_ok res then acc ++ [k] else acc
      | _ => acc
      end
  | _ => acc
  end.

Fixpoint accepted (s : State) (acc : list string) (es : list Event) : list string :=
  match es with
  | [] => acc
  | e :: es' => accepted (step s e) (accepts s e acc) es'
  end.

(** [passes n ids]: [n] complete passes over the questions [ids]. *)
Definition passes (n : nat) (ids : list string) : list string :=
  concat (replicate n ids).

(** The invariant of the screen: the index stays within the loaded
    questions, feedback is only shown for an existing question, and the
    accepted answers are complete passes over the questions followed by
    the answers of the questions passed this time, plus the current one
    while its feedback is showing; outside the quiz view a pass is either
    not begun or complete. *)
Definition answered_count (s : State) : nat :=
  (currentIndex s + match feedbackState s with Some _ => 1 | None => 0 end)%nat.

Record quiz_inv (s : State) (acc : list string) : Prop := {
  inv_index : st_questions s = [] \/ (currentIndex s < length (st_questions s))%nat;
  inv_feedback : is_Some (feedbackState s) -> is_Some (currentQuestion s);
  inv_submitting : submitting s = false;
  inv_accepted :
    exists n, acc = passes n (map id (st_questions s))
                    ++ map id (take (answered_count s) (st_questions s));
  inv_outside :
    quiz_shown s = false ->
    answered_count s = 0%nat \/ answered_count s = length (st_questions s)
}.

(** What the screen shows: without questions it is loading or shows an
    error or the low-data card; a selection is a choice of the current
    question; results are only stored behind the feedback of the last
    question. *)
Record screen_inv (s : State) : Prop := {
  scr_empty :
    st_questions s = [] ->
    loading s = true \/ JS.truthy_str (error s) = true \/ is_Some (lowDataMessage s);
  scr_selected :
    forall i, selectedIndex s = Some i ->
      exists qq, currentQuestion s = Some qq /\ 0 <= i < Z.of_nat (length (choices qq));
  scr_final :
    is_Some (finalResults s) ->
    loading s = false /\ lowDataMessage s = None
    /\ is_Some (feedbackState s) /\ isLastQuestion s = true
}.

(** An event that is not the reload button of a view. *)
Definition in_quiz (e : Event) : bool :=
  match e with Reload _ => false | _ => true end.

End Trivia.

(** ** Category matching (connections screen) *)

Module Connections.

Record TileCategory := {
  cat_id : string;
  cat_label : string;
  category : option string
}.

Record TileAmount := {
  amt_id : string;
  amt_label : string;
  value : option Q
}.

Record RevealRow := {
  rv_category : string;
  rv_amount : Q;
  rv_label : string
}.

(** The start reply after [res.json()]: [ok] is the truthiness of
    [json.ok]; [can_play] is [Some false] exactly when
    [json.can_play === false]. *)
Record StartResp := {
  ok : bool;
  start_error : option string;
  can_play : option bool;
  message : option string;
  xp_awarded : option Z;
  start_total_xp : option Z;
  start_level : option Z;
  start_streak : option Z;
  round_id : option string;
  start_tries_remaining : option Z;
  category_tiles : option (list TileCategory);
  amount_tiles : option (list (TileAmount + string));
  categories_names : option (list string)
}.

Record SubmitResp := {
  sub_ok : bool;
  correct : option bool;
  tries_remaining : option Z;
  round_complete : option bool;
  xp_earned : option Z;
  total_xp : option Z;
  level : option Z;
  streak : option Z;
  accuracy : option Q;
  reveal_rows : option (list RevealRow)
}.

(** *** [normalizePlayable] *)

Definition is_word (c : ascii) : bool :=
  let n := nat_of_ascii c in
  (((48 <=? n) && (n <=? 57)) || ((65 <=? n) && (n <=? 90))
   || (n =? 95) || ((97 <=? n) && (n <=? 122)))%nat.

Definition toUpperCase (c : ascii) : ascii :=
  let n := nat_of_ascii c in
  if ((97 <=? n) && (n <=? 122))%nat then ascii_of_nat (n - 32) else c.

(** [s.replace(/\b\w/g, m => m.toUpperCase())]: a word character is at a
    word boundary when no word character precedes it. *)
Fixpoint capitalize_from (after_word : bool) (t : string) : string :=
  match t with
  | EmptyString => EmptyString
  | String c t' =>
      String (if is_word c && negb after_word then toUpperCase c else c)
             (capitalize_from (is_word c) t')
  end.

Definition capitalize_words (t : string) : string := capitalize_from false t.

Definition is_digit (c : ascii) : bool :=
  let n := nat_of_ascii c in ((48 <=? n) && (n <=? 57))%nat.

(** [a.replace(/[^0-9.\-]/g, empty)]: every other character is dropped. *)
Fixpoint keep_numeric (t : string) : string :=
  match t with
  | EmptyString => EmptyString
  | String c t' =>
      if is_digit c || Ascii.eqb c "."%char || Ascii.eqb c "-"%char
      then String c (keep_numeric t') else keep_numeric t'
  end.

(** A run of digits: its value, its length, and what follows it. *)
Fixpoint read_digits (t : string) (acc : Z) (n : nat) : Z * nat * string :=
  match t with
  | String c t' =>
      if is_digit c
      then read_digits t' (10 * acc + Z.of_nat (nat_of_ascii c - 48)) (S n)
      else (acc, n, t)
  | EmptyString => (acc, n, t)
  end.

Definition unsigned_decimal (t : string) : option Q :=
  let '(ip, ni, r1) := read_digits t 0 0%nat in
  match r1 with
  | EmptyString => if (ni =? 0)%nat then None else Some (inject_Z ip)
  | String c r2 =>
      if Ascii.eqb c "."%char then
        let '(fp, nf, r3) := read_digits r2 0 0%nat in
        match r3 with
        | EmptyString =>
            if (ni + nf =? 0)%nat then None
            else Some (inject_Z ip + inject_Z fp / inject_Z (10 ^ Z.of_nat nf))%Q
        | _ => None
        end
      else None
  end.

(** [Number(t)] on a text of digits, dots and minus signs; [None] is NaN. *)
Definition Number (t : string) : option Q :=
  match t with
  | EmptyString => Some 0%Q
  | String c r =>
      if Ascii.eqb c "-"%char then Qopp <$> unsigned_decimal r
      else unsigned_decimal t
  end.

Definition normalize_cats (s : StartResp) : list TileCategory :=
  match category_tiles s with
  | Some tiles => tiles
  | None =>
      imap (fun i c => {| cat_id := "cat_" +:+ pretty i;
                          cat_label := capitalize_words c;
                          category := Some c |})
           (default [] (categories_names s))
  end.

Definition normalize_amts (s : StartResp) : list TileAmount :=
  match amount_tiles s with
  | Some tiles =>
      imap (fun i a =>
              match a with
              | inr txt =>
                  {| amt_id := "amt_" +:+ pretty i;
                     amt_label := txt;
                     value := Some (default 0%Q (Number (keep_numeric txt))) |}
              | inl tile => tile
              end) tiles
  | None => []
  end.

Definition normalizePlayable (s : StartResp) : list TileCategory * list TileAmount :=
  (JS.slice0 (normalize_cats s) 5, JS.slice0 (normalize_amts s) 5).

(** *** State *)

Inductive Feedback := Correct | Wrong.

Record Pair := { cat : TileCategory; amt : TileAmount }.

Record FinalStats := {
  fs_xp : option Z;
  fs_level : option Z;
  fs_streak : option Z;
  fs_accuracy : option Q
}.

(** What a call of [onCheck] holds in its closure while it awaits the
    reply: the values of the render in which Check was pressed. *)
Record Check := {
  ck_selCatId : option string;
  ck_selAmtId : option string;
  ck_roundId : option string;
  ck_catMap : gmap string TileCategory;
  ck_amtMap : gmap string TileAmount;
  ck_solvedCount : Z
}.

(** The state of the screen: the component's state variables, in
    [checks] the calls of [onCheck] that are awaiting their reply, oldest
    first, and in [timers] the number of feedback timers that are armed.
    A call of [startRound] awaits its reply exactly while [loading] is
    set: the screen mounts loading, with the call its effect makes, and
    no restart button is rendered while loading. *)
Record State := {
  loading : bool;
  error : option string;
  lowMsg : option string;
  tries : Z;
  canPlay : bool;
  roundId : option string;
  categories : list TileCategory;
  amounts : list TileAmount;
  selCatId : option string;
  selAmtId : option string;
  feedback : option Feedback;
  solved : list Pair;
  completed : bool;
  reveal : option (list RevealRow);
  finalStats : option FinalStats;
  checks : list Check;
  timers : nat
}.

Definition initial : State :=
  {| loading := true; error := None; lowMsg := None; tries := 3;
     canPlay := false; roundId := None; categories := []; amounts := [];
     selCatId := None; selAmtId := None; feedback := None; solved := [];
     completed := false; reveal := None; finalStats := None;
     checks := []; timers := 0 |}.

Definition solvedCount (s : State) : Z := Z.of_nat (length (solved s)).
Definition total : Z := 5.
Definition done (s : State) : bool := completed s || (tries s <=? 0).

Inductive StartOutcome :=
| StartReplied (json : StartResp)
| StartThrew (message : option string).

Definition low_default : string :=
  "You received XP for a low-spend period. Come back soon!".

(** [startRound] up to its [await]: the resets. *)
Definition startRound_press (s : State) : State :=
  {| loading := true; error := None; lowMsg := None; tries := tries s;
     canPlay := canPlay s; roundId := roundId s;
     categories := categories s; amounts := amounts s;
     selCatId := None; selAmtId := None; feedback := None; solved := [];
     completed := false; reveal := None; finalStats := None;
     checks := checks s; timers := timers s |}.

(** [startRound] from the reply on, then [finally]. *)
Definition startRound_reply (o : StartOutcome) (s : State) : State :=
  let failed (msg : string) :=
    {| loading := false; error := Some msg; lowMsg := lowMsg s; tries := tries s;
       canPlay := canPlay s; roundId := roundId s;
       categories := categories s; amounts := amounts s;
       selCatId := selCatId s; selAmtId := selAmtId s; feedback := feedback s;
       solved := solved s; completed := completed s; reveal := reveal s;
       finalStats := finalStats s; checks := checks s; timers := timers s |} in
  match o with
  | StartThrew m => failed (JS.or_str m "Failed to start round.")
  | StartReplied json =>
      if negb (ok json)
      then failed (JS.or_str (start_error json) "Unexpected response")
      else
        match can_play json with
        | Some false =>
            {| loading := false; error := error s;
               lowMsg := Some (JS.or_str (message json) low_default);
               tries := 0; canPlay := false; roundId := None;
               categories := []; amounts := [];
               selCatId := selCatId s; selAmtId := selAmtId s;
               feedback := feedback s; solved := solved s;
               completed := completed s; reveal := reveal s;
               finalStats := finalStats s;
               checks := checks s; timers := timers s |}
        | _ =>
            let '(cats, amts) := normalizePlayable json in
            {| loading := false; error := error s; lowMsg := lowMsg s;
               tries := JS.nullish (start_tries_remaining json) 3;
               canPlay := true; roundId := round_id json;
               categories := cats; amounts := amts;
               selCatId := selCatId s; selAmtId := selAmtId s;
               feedback := feedback s; solved := solved s;
               completed := completed s; reveal := reveal s;
               finalStats := finalStats s;
               checks := checks s; timers := timers s |}
        end
  end.

(** The whole of [startRound], when nothing else happens between its
    resets and its reply. *)
Definition startRound (o : StartOutcome) (s : State) : State :=
  startRound_reply o (startRound_press s).

(** [Object.fromEntries(entries)]: a later entry overwrites an earlier
    one with the same key. *)
Definition fromEntries {A} (entries : list (string * A)) : gmap string A :=
  foldl (fun m e => <[fst e := snd e]> m) ∅ entries.

Definition catMap (s : State) : gmap string TileCategory :=
  fromEntries (map (fun c => (cat_id c, c)) (categories s)).

Definition amtMap (s : State) : gmap string TileAmount :=
  fromEntries (map (fun a => (amt_id a, a)) (amounts s)).

Definition unsolvedCategories (s : State) : list TileCategory :=
  List.filter
    (fun c => negb (existsb (fun p => String.eqb (cat_id (cat p)) (cat_id c)) (solved s)))
    (categories s).

Definition unsolvedAmounts (s : State) : list TileAmount :=
  List.filter
    (fun a => negb (existsb (fun p => String.eqb (amt_id (amt p)) (amt_id a)) (solved s)))
    (amounts s).

Inductive SubmitOutcome :=
| SubmitReplied (json : SubmitResp)
| SubmitThrew.

(** [!selCatId || !selAmtId || feedback]: nothing is sent. *)
Definition onCheck_blocked (s : State) : bool :=
  negb (JS.truthy_str (selCatId s)) || negb (JS.truthy_str (selAmtId s))
  || bool_decide (is_Some (feedback s)).

(** The closure of [onCheck] in the render of [s]. *)
Definition closure (s : State) : Check :=
  {| ck_selCatId := selCatId s; ck_selAmtId := selAmtId s;
     ck_roundId := roundId s;
     ck_catMap := catMap s; ck_amtMap := amtMap s;
     ck_solvedCount := solvedCount s |}.

Definition set_checks (l : list Check) (s : State) : State :=
  {| loading := loading s; error := error s; lowMsg := lowMsg s;
     tries := tries s; canPlay := canPlay s; roundId := roundId s;
     categories := categories s; amounts := amounts s;
     selCatId := selCatId s; selAmtId := selAmtId s;
     feedback := feedback s; solved := solved s;
     completed := completed s; reveal := reveal s;
     finalStats := finalStats s; checks := l; timers := timers s |}.

(** [onCheck] up to its [await]: nothing is sent when it is blocked;
    otherwise the call joins those in flight.  Nothing is set before the
    [await], so Check can be pressed again, tiles pressed and a round
    restarted, while the reply is awaited. *)
Definition onCheck_press (s : State) : State :=
  if onCheck_blocked s then s
  else set_checks (checks s ++ [closure s]) s.

(** [onCheck] from the reply on, run in the state [s] in which the reply
    arrives, with the values [c] of its closure; either branch arms a
    feedback timer.  The tiles of the pair are read from the maps of the
    closure under the selected ids of the closure, which are own keys of
    these maps in every state the screen can reach. *)
Definition onCheck_reply (c : Check) (o : SubmitOutcome) (s : State) : State :=
  match o with
  | SubmitThrew => s
  | SubmitReplied json =>
      let tries' := default (tries s) (tries_remaining json) in
      if negb (sub_ok json) || negb (JS.truthy_bool (correct json)) then
        {| loading := loading s; error := error s; lowMsg := lowMsg s;
           tries := tries'; canPlay := canPlay s; roundId := roundId s;
           categories := categories s; amounts := amounts s;
           selCatId := selCatId s; selAmtId := selAmtId s;
           feedback := Some Wrong; solved := solved s;
           completed := completed s; reveal := reveal s;
           finalStats := finalStats s;
           checks := checks s; timers := S (timers s) |}
      else
        let solved' :=
          match ck_selCatId c ≫= (fun k => ck_catMap c !! k),
                ck_selAmtId c ≫= (fun k => ck_amtMap c !! k) with
          | Some ct, Some a => solved s ++ [{| cat := ct; amt := a |}]
          | _, _ => solved s
          end in
        let nowSolved := ck_solvedCount c + 1 in
        let reachedAll := total <=? nowSolved in
        let rc := JS.truthy_bool (round_complete json) in
        {| loading := loading s; error := error s; lowMsg := lowMsg s;
           tries := tries'; canPlay := canPlay s; roundId := roundId s;
           categories := categories s; amounts := amounts s;
           selCatId := selCatId s; selAmtId := selAmtId s;
           feedback := Some Correct; solved := solved';
           completed := if rc || reachedAll then true else completed s;
           reveal := if rc then reveal_rows json else reveal s;
           finalStats :=
             if rc then Some {| fs_xp := xp_earned json;
                                fs_level := level json;
                                fs_streak := streak json;
                                fs_accuracy := accuracy json |}
             else finalStats s;
           checks := checks s; timers := S (timers s) |}
  end.

(** The whole of [onCheck], when its reply arrives before anything else
    happens. *)
Definition onCheck (o : SubmitOutcome) (s : State) : State :=
  if onCheck_blocked s then s else onCheck_reply (closure s) o s.

(** The callback of a feedback timer (600 ms after a miss, 450 ms after
    a match). *)
Definition clearFeedback (s : State) : State :=
  {| loading := loading s; error := error s; lowMsg := lowMsg s;
     tries := tries s; canPlay := canPlay s; roundId := roundId s;
     categories := categories s; amounts := amounts s;
     selCatId := None; selAmtId := None; feedback := None;
     solved := solved s; completed := completed s; reveal := reveal s;
     finalStats := finalStats s;
     checks := checks s; timers := pred (timers s) |}.

(** Pressing a tile toggles it as the selection of its column. *)
Definition pressCategory (c : TileCategory) (s : State) : State :=
  {| loading := loading s; error := error s; lowMsg := lowMsg s;
     tries := tries s; canPlay := canPlay s; roundId := roundId s;
     categories := categories s; amounts := amounts s;
     selCatId := if bool_decide (selCatId s = Some (cat_id c)) then None
                 else Some (cat_id c);
     selAmtId := selAmtId s; feedback := feedback s;
     solved := solved s; completed := completed s; reveal := reveal s;
     finalStats := finalStats s; checks := checks s; timers := timers s |}.

Definition pressAmount (a : TileAmount) (s : State) : State :=
  {| loading := loading s; error := error s; lowMsg := lowMsg s;
     tries := tries s; canPlay := canPlay s; roundId := roundId s;
     categories := categories s; amounts := amounts s;
     selCatId := selCatId s;
     selAmtId := if bool_decide (selAmtId s = Some (amt_id a)) then None
                 else Some (amt_id a);
     feedback := feedback s;
     solved := solved s; completed := completed s; reveal := reveal s;
     finalStats := finalStats s; checks := checks s; timers := timers s |}.

(** The board (tiles and Check button) is rendered inside the playable
    card, and only while the round is not [done]. *)
Definition board_shown (s : State) : bool :=
  negb (loading s) && negb (JS.truthy_str (error s)) && canPlay s && negb (done s).

(** The four cards of the screen, each with the condition under which it
    is rendered: loading, error, low data, and the playable card. *)
Definition cards (s : State) : list bool :=
  [loading s;
   JS.truthy_str (error s) && negb (loading s);
   negb (loading s) && negb (JS.truthy_str (error s)) && JS.truthy_str (lowMsg s);
   negb (loading s) && negb (JS.truthy_str (error s)) && canPlay s].

(** A button that calls [startRound] is part of every card but the
    loading one. *)
Definition restart_shown (s : State) : bool :=
  existsb (fun b : bool => b) (drop 1 (cards s)).

(** What the user, the network and the timers can do.  [PressCategory i]
    and [PressAmount i] are presses on the [i]-th tile rendered in a
    column, that is, in the unsolved pool; [PressCheck] is a press on
    Check and [PressStart] one on a button that calls [startRound];
    [CheckReply k o] is the arrival of the reply to the [k]-th call of
    [onCheck] in flight, in whatever order the replies come,
    [StartReply o] that of the reply to [startRound], and
    [FeedbackTimer] the firing of an armed feedback timer. *)
Inductive Event :=
| PressCategory (i : nat)
| PressAmount (i : nat)
| PressCheck
| CheckReply (k : nat) (o : SubmitOutcome)
| FeedbackTimer
| PressStart
| StartReply (o : StartOutcome).

Definition step (s : State) (e : Event) : State :=
  match e with
  | PressCategory i =>
      match unsolvedCategories s !! i with
      | Some c => if board_shown s then pressCategory c s else s
      | None => s
      end
  | PressAmount i =>
      match unsolvedAmounts s !! i with
      | Some a => if board_shown s then pressAmount a s else s
      | None => s
      end
  | PressCheck => if board_shown s then onCheck_press s else s
  | CheckReply k o =>
      match checks s !! k with
      | Some c => onCheck_reply c o (set_checks (delete k (checks s)) s)
      | None => s
      end
  | FeedbackTimer => if (timers s =? 0)%nat then s else clearFeedback s
  | PressStart => if restart_shown s then startRound_press s else s
  | StartReply o => if loading s then startRound_reply o s else s
  end.

Definition run (s : State) (es : list Event) : State := foldl step s es.

(** A pairing submitted in [s] whose reply [o] arrives before anything
    else happens. *)
Definition check (s : State) (o : SubmitOutcome) : list Event :=
  [PressCheck; CheckReply (length (checks s)) o].

(** Play in which every reply arrives before the next press: a tile
    press, a press on Check with the reply to it, the firing of a
    feedback timer, and a (re)start of the round with the reply to it
    (on the mounted screen, which is loading, the reply alone). *)
Inductive Play :=
| TapCategory (i : nat)
| TapAmount (i : nat)
| TapCheck (o : SubmitOutcome)
| TimerFires
| Start (o : StartOutcome).

Definition events_of (s : State) (p : Play) : list Event :=
  match p with
  | TapCategory i => [PressCategory i]
  | TapAmount i => [PressAmount i]
  | TapCheck o => check s o
  | TimerFires => [FeedbackTimer]
  | Start o => [PressStart; StartReply o]
  end.

Definition play (s : State) (ps : list Play) : State :=
  foldl (fun s p => run s (events_of s p)) s ps.

(** The invariant of the screen: while no feedback is showing, a selected
    id is the id of a tile in the unsolved pool of its column. *)
Definition selection_in_pools (s : State) : Prop :=
  feedback s = None ->
  (forall k, selCatId s = Some k ->
             exists c, c ∈ unsolvedCategories s /\ cat_id c = k)
  /\ (forall k, selAmtId s = Some k ->
                exists a, a ∈ unsolvedAmounts s /\ amt_id a = k).

(** The invariant of the screen under every interleaving of presses,
    replies and timers: the selection lies in the pools, nothing is
    selected while a round is loading, and the selected ids that a call
    of [onCheck] in flight holds are own keys of the maps it holds, each
    mapped to a tile of that id. *)
Record live_inv (s : State) : Prop := {
  lv_selection : selection_in_pools s;
  lv_loading : loading s = true -> selCatId s = None /\ selAmtId s = None;
  lv_checks :
    forall c, c ∈ checks s ->
      (forall k, ck_selCatId c = Some k ->
         exists t, ck_catMap c !! k = Some t /\ cat_id t = k)
      /\ (forall k, ck_selAmtId c = Some k ->
            exists t, ck_amtMap c !! k = Some t /\ amt_id t = k)
}.

(** The board as a whole: in each column the solved pairs and the tiles
    still in the pool fit within the tiles dealt, a column has at most
    five tiles, and five solved pairs mean a completed round. *)
Record board_inv (s : State) : Prop := {
  brd_categories :
    (length (solved s) + length (unsolvedCategories s) <= length (categories s))%nat;
  brd_amounts :
    (length (solved s) + length (unsolvedAmounts s) <= length (amounts s))%nat;
  brd_five_categories : (length (categories s) <= 5)%nat;
  brd_five_amounts : (length (amounts s) <= 5)%nat;
  brd_completed : (5 <= length (solved s))%nat -> completed s = true
}.

(** A round that is loading has no low-data message, and the flags of a
    round that is not loading stem from one of the start outcomes. *)
Definition flags_inv (s : State) : Prop :=
  (loading s = true -> lowMsg s = None)
  /\ (loading s = true \/ JS.truthy_str (error s) = true
      \/ (JS.truthy_str (lowMsg s) = true /\ canPlay s = false)
      \/ (JS.truthy_str (lowMsg s) = false /\ canPlay s = true)).

End Connections.

(** ** Spend detective *)

Module SpendDetective.

Record Tx := {
  tx_id : string;
  date : string;
  merchant_name : string;
  amount : Q;
  tx_category : string
}.

Record RevealItem := {
  found_by_user : bool;
  reasons : list string
}.

Record Summary := {
  sm_correct : Z;
  missed : Z;
  false_positives : Z
}.

(** The start reply after [res.json()]. *)
Record StartResp := {
  ok : bool;
  start_error : option string;
  insufficient_data : option bool;
  message : option string;
  xp_awarded : option Z;
  start_level : option Z;
  start_streak : option Z;
  transactions_field : option (list Tx);
  round_field : option (list Tx);
  round_id : option string;
  start_tries_remaining : option Z
}.

(** The guess reply.  A field of type [option] is [Some] when the JSON
    field is present with the type the handler tests for. *)
Record GuessResp := {
  tries_remaining : option Z;
  total_correct : option Z;
  new_correct : option Z;
  total_anomalies : option Z;
  round_complete : option bool;
  reveal_items : option (list RevealItem);
  xp_earned : option Z;
  total_xp : option Z;
  level : option Z;
  streak : option Z;
  accuracy : option Q;
  streak_maintained : option bool;
  summary : option Summary;
  feedback : option string
}.

Record FinalStats := {
  fs_xp : option Z;
  fs_total_xp : option Z;
  fs_level : option Z;
  fs_streak : option Z;
  fs_accuracy : option Q;
  fs_streak_maintained : option bool;
  fs_summary : option Summary;
  fs_feedback : option string
}.

(** What a call of [onSubmit] holds in its closure while it awaits the
    reply: the values of the render in which Submit was pressed. *)
Record Guess := {
  gs_selectedId : option string;
  gs_roundId : option string;
  gs_foundCount : Z;
  gs_totalAnomalies : option Z
}.

(** The state of the screen: the component's state variables, and in
    [guesses] the calls of [onSubmit] that are awaiting their reply,
    oldest first.  A call of [startRound] awaits its reply exactly while
    [loading] is set: the screen mounts loading, with the call its effect
    makes, and no restart button is rendered while loading. *)
Record State := {
  loading : bool;
  error : option string;
  canPlay : bool;
  lowMsg : option string;
  tries : Z;
  transactions : list Tx;
  roundId : option string;
  selectedId : option string;
  locked : gmap string bool;
  totalAnomalies : option Z;
  totalCorrect : Z;
  completed : bool;
  reveal : option (list RevealItem);
  finalStats : option FinalStats;
  guesses : list Guess
}.

Definition initial : State :=
  {| loading := true; error := None; canPlay := false; lowMsg := None;
     tries := 3; transactions := []; roundId := None; selectedId := None;
     locked := ∅; totalAnomalies := None; totalCorrect := 0;
     completed := false; reveal := None; finalStats := None; guesses := [] |}.

Inductive StartOutcome :=
| StartReplied (json : StartResp)
| StartThrew (message : option string).

(** [startRound] up to its [await]: the resets. *)
Definition startRound_press (s : State) : State :=
  {| loading := true; error := None; canPlay := canPlay s;
     lowMsg := lowMsg s; tries := tries s; transactions := transactions s;
     roundId := roundId s; selectedId := None; locked := ∅;
     totalAnomalies := None; totalCorrect := 0; completed := false;
     reveal := None; finalStats := None; guesses := guesses s |}.

(** [startRound] from the reply on, then [finally].  The low-data branch
    updates [finalStats] from its current value
    ([setFinalStats(s => ({...s, xp, level, streak}))]). *)
Definition startRound_reply (o : StartOutcome) (s : State) : State :=
  let failed (msg : string) :=
    {| loading := false; error := Some msg; canPlay := canPlay s;
       lowMsg := lowMsg s; tries := tries s; transactions := transactions s;
       roundId := roundId s; selectedId := selectedId s; locked := locked s;
       totalAnomalies := totalAnomalies s; totalCorrect := totalCorrect s;
       completed := completed s; reveal := reveal s;
       finalStats := finalStats s; guesses := guesses s |} in
  match o with
  | StartThrew m => failed (JS.or_str m "Failed to start round.")
  | StartReplied json =>
      if negb (ok json)
      then failed (JS.or_str (start_error json) "Unexpected response.")
      else if bool_decide (insufficient_data json = Some true) then
        {| loading := false; error := error s; canPlay := false;
           lowMsg := Some (JS.or_str (message json) "Not enough data yet.");
           tries := 0; transactions := []; roundId := None;
           selectedId := selectedId s; locked := locked s;
           totalAnomalies := totalAnomalies s; totalCorrect := totalCorrect s;
           completed := completed s; reveal := reveal s;
           finalStats :=
             Some {| fs_xp := Some (JS.nullish (xp_awarded json) 0);
                     fs_total_xp := finalStats s ≫= fs_total_xp;
                     fs_level := start_level json;
                     fs_streak := start_streak json;
                     fs_accuracy := finalStats s ≫= fs_accuracy;
                     fs_streak_maintained := finalStats s ≫= fs_streak_maintained;
                     fs_summary := finalStats s ≫= fs_summary;
                     fs_feedback := finalStats s ≫= fs_feedback |};
           guesses := guesses s |}
      else
        {| loading := false; error := error s; canPlay := true; lowMsg := None;
           tries := JS.nullish (start_tries_remaining json) 3;
           transactions :=
             match transactions_field json with
             | Some l => l
             | None => default [] (round_field json)
             end;
           roundId := round_id json; selectedId := selectedId s;
           locked := locked s;
           totalAnomalies := totalAnomalies s; totalCorrect := totalCorrect s;
           completed := completed s; reveal := reveal s;
           finalStats := finalStats s; guesses := guesses s |}
  end.

(** The whole of [startRound], when nothing else happens between its
    resets and its reply. *)
Definition startRound (o : StartOutcome) (s : State) : State :=
  startRound_reply o (startRound_press s).

(** [foundCount]: [totalCorrect] is always a number, so the fallback on
    [locked] is never taken. *)
Definition foundCount (s : State) : Z := totalCorrect s.

(** [+(x).toFixed(2)]: the decimal with two places nearest to [x], the
    one of larger magnitude at a tie. *)
Definition round_half_up_100 (x : Q) : Q := (Qfloor (x * 100 + (1 # 2)) # 100)%Q.

Definition toFixed2 (x : Q) : Q :=
  if Qle_bool 0 x then round_half_up_100 x else (- round_half_up_100 (- x))%Q.

Definition wasCorrect (j : GuessResp) : bool :=
  match new_correct j with Some n => negb (n =? 0) && (0 <? n) | None => false end.

(** [nextCorrect] and [nextTotal] of [onSubmit], from the [foundCount]
    and the [totalAnomalies] its closure holds. *)
Definition nextCorrect (j : GuessResp) (foundCount : Z) : Z :=
  match total_correct j with
  | Some c => c
  | None => foundCount + (if wasCorrect j then 1 else 0)
  end.

Definition nextTotal (j : GuessResp) (totalAnomalies : option Z) : option Z :=
  match total_anomalies j with
  | Some a => Some a
  | None => totalAnomalies
  end.

(** The [finalStats] that [maybeFinishLocally] stores. *)
Definition local_stats (j : GuessResp) (nextCorrect nextTotalAnoms : Z) : FinalStats :=
  {| fs_xp := Some (JS.nullish (xp_earned j) (nextCorrect * 20));
     fs_total_xp := total_xp j;
     fs_level := level j;
     fs_streak := streak j;
     fs_accuracy :=
       match accuracy j with
       | Some a => Some a
       | None =>
           if 0 <? nextTotalAnoms
           then Some (toFixed2 (inject_Z nextCorrect / inject_Z nextTotalAnoms))
           else None
       end;
     fs_streak_maintained := streak_maintained j;
     fs_summary := summary j;
     fs_feedback := None |}.

(** [maybeFinishLocally(j, nextCorrect, nextTotalAnoms)] *)
Definition maybeFinishLocally (j : GuessResp) (nextCorrect : Z)
    (nextTotalAnoms : option Z) (s : State) : State :=
  if JS.truthy_bool (round_complete j) then s
  else
    match nextTotalAnoms with
    | Some t =>
        if t <=? nextCorrect then
          {| loading := loading s; error := error s; canPlay := canPlay s;
             lowMsg := lowMsg s; tries := tries s;
             transactions := transactions s; roundId := roundId s;
             selectedId := selectedId s; locked := locked s;
             totalAnomalies := totalAnomalies s;
             totalCorrect := totalCorrect s;
             completed := true;
             reveal := Some (default [] (reveal_items j));
             finalStats := Some (local_stats j nextCorrect t);
             guesses := guesses s |}
        else s
    | None => s
    end.

Inductive GuessOutcome :=
| GuessReplied (json : GuessResp)
| GuessThrew.

(** The state updates of [onSubmit] that precede the completion test.
    The counters and the locked cards are updated from their current
    values ([setTries(prev => ...)] and the like); [sid] is the selected
    id the closure holds. *)
Definition record_guess (sid : string) (j : GuessResp) (s : State) : State :=
  {| loading := loading s; error := error s; canPlay := canPlay s;
     lowMsg := lowMsg s;
     tries := match tries_remaining j with
              | Some t => Z.min (tries s) t
              | None => tries s
              end;
     transactions := transactions s; roundId := roundId s;
     selectedId := None;
     locked := if wasCorrect j then <[sid := true]> (locked s) else locked s;
     totalAnomalies := nextTotal j (totalAnomalies s);
     totalCorrect :=
       match total_correct j with
       | Some c => c
       | None =>
           match new_correct j with
           | Some n => if negb (n =? 0) && (0 <? n) then totalCorrect s + n
                       else totalCorrect s
           | None => totalCorrect s
           end
       end;
     completed := completed s; reveal := reveal s;
     finalStats := finalStats s; guesses := guesses s |}.

Definition server_stats (j : GuessResp) : FinalStats :=
  {| fs_xp := xp_earned j; fs_total_xp := total_xp j; fs_level := level j;
     fs_streak := streak j; fs_accuracy := accuracy j;
     fs_streak_maintained := streak_maintained j; fs_summary := summary j;
     fs_feedback := feedback j |}.

(** The closure of [onSubmit] in the render of [s]. *)
Definition closure (s : State) : Guess :=
  {| gs_selectedId := selectedId s; gs_roundId := roundId s;
     gs_foundCount := foundCount s; gs_totalAnomalies := totalAnomalies s |}.

Definition set_guesses (l : list Guess) (s : State) : State :=
  {| loading := loading s; error := error s; canPlay := canPlay s;
     lowMsg := lowMsg s; tries := tries s;
     transactions := transactions s; roundId := roundId s;
     selectedId := selectedId s; locked := locked s;
     totalAnomalies := totalAnomalies s; totalCorrect := totalCorrect s;
     completed := completed s; reveal := reveal s;
     finalStats := finalStats s; guesses := l |}.

(** [onSubmit] up to its [await]: without a selection nothing is sent;
    otherwise the call joins those in flight.  Nothing is set before the
    [await], so Submit can be pressed again, and a round restarted, while
    the reply is awaited. *)
Definition onSubmit_press (s : State) : State :=
  if negb (JS.truthy_str (selectedId s)) then s
  else set_guesses (guesses s ++ [closure s]) s.

(** [onSubmit] from the reply on, run in the state [s] in which the
    reply arrives, with the values [g] of its closure. *)
Definition onSubmit_reply (g : Guess) (o : GuessOutcome) (s : State) : State :=
  match o with
  | GuessThrew => s
  | GuessReplied j =>
      let sid := JS.or_str (gs_selectedId g) EmptyString in
      let s1 := record_guess sid j s in
      if JS.truthy_bool (round_complete j) then
        {| loading := loading s1; error := error s1; canPlay := canPlay s1;
           lowMsg := lowMsg s1; tries := tries s1;
           transactions := transactions s1; roundId := roundId s1;
           selectedId := selectedId s1; locked := locked s1;
           totalAnomalies := totalAnomalies s1;
           totalCorrect := totalCorrect s1;
           completed := true;
           reveal := Some (default [] (reveal_items j));
           finalStats := Some (server_stats j);
           guesses := guesses s1 |}
      else maybeFinishLocally j (nextCorrect j (gs_foundCount g))
             (nextTotal j (gs_totalAnomalies g)) s1
  end.

(** The whole of [onSubmit], when its reply arrives before anything else
    happens. *)
Definition onSubmit (o : GuessOutcome) (s : State) : State :=
  if negb (JS.truthy_str (selectedId s)) then s
  else onSubmit_reply (closure s) o s.

(** Pressing a transaction card: a card that reads as locked
    ([!!locked[t.id]]) ignores the press, the selected card is
    deselected, any other card becomes the selection. *)
Definition pressTx (t : Tx) (s : State) : State :=
  if JS.truthy_member (locked s) (tx_id t) then s
  else
    {| loading := loading s; error := error s; canPlay := canPlay s;
       lowMsg := lowMsg s; tries := tries s;
       transactions := transactions s; roundId := roundId s;
       selectedId :=
         if bool_decide (selectedId s = Some (tx_id t)) then None
         else Some (tx_id t);
       locked := locked s; totalAnomalies := totalAnomalies s;
       totalCorrect := totalCorrect s; completed := completed s;
       reveal := reveal s; finalStats := finalStats s; guesses := guesses s |}.

(** The cards and the Submit button are rendered when
    [!loading && !error && canPlay && !completed]. *)
Definition board_shown (s : State) : bool :=
  negb (loading s) && negb (JS.truthy_str (error s)) && canPlay s
  && negb (completed s).

(** The five blocks of the screen, each with the condition under which it
    is rendered: loading, error, low data, the board, and the completed
    round. *)
Definition blocks (s : State) : list bool :=
  [loading s;
   JS.truthy_str (error s) && negb (loading s);
   negb (loading s) && negb (JS.truthy_str (error s)) && JS.truthy_str (lowMsg s);
   negb (loading s) && negb (JS.truthy_str (error s)) && canPlay s
     && negb (completed s);
   negb (loading s) && negb (JS.truthy_str (error s)) && completed s].

(** A button that calls [startRound] is part of every block but the
    loading one. *)
Definition restart_shown (s : State) : bool :=
  existsb (fun b : bool => b) (drop 1 (blocks s)).

(** What the user and the network can do.  [PressTx i] is a press on
    the [i]-th rendered card, [PressSubmit] one on Submit, [PressStart]
    one on a button that calls [startRound]; [GuessReply k o] is the
    arrival of the reply to the [k]-th call of [onSubmit] in flight, in
    whatever order the replies come, and [StartReply o] that of the
    reply to [startRound]. *)
Inductive Event :=
| PressTx (i : nat)
| PressSubmit
| GuessReply (k : nat) (o : GuessOutcome)
| PressStart
| StartReply (o : StartOutcome).

Definition step (s : State) (e : Event) : State :=
  match e with
  | PressTx i =>
      match transactions s !! i with
      | Some t => if board_shown s then pressTx t s else s
      | None => s
      end
  | PressSubmit => if board_shown s then onSubmit_press s else s
  | GuessReply k o =>
      match guesses s !! k with
      | Some g => onSubmit_reply g o (set_guesses (delete k (guesses s)) s)
      | None => s
      end
  | PressStart => if restart_shown s then startRound_press s else s
  | StartReply o => if loading s then startRound_reply o s else s
  end.

Definition run (s : State) (es : list Event) : State := foldl step s es.


Definition is_start (e : Event) : bool :=
  match e with PressStart | StartReply _ => true | _ => false end.

(** A reply whose tries count, when present, is not negative. *)
Definition reports_nonneg (o : GuessOutcome) : Prop :=
  match o with
  | GuessReplied j => forall t, tries_remaining j = Some t -> 0 <= t
  | GuessThrew => True
  end.

Definition event_reports_nonneg (e : Event) : Prop :=
  match e with
  | GuessReply _ o => reports_nonneg o
  | _ => True
  end.


(** The invariant of the screen: a completed round has no selection left. *)
Definition detective_inv (s : State) : Prop :=
  completed s = true -> selectedId s = None.

(** The cards: every own entry of [locked] is [true]; the selected card
    is a card on the screen that does not read as locked; nothing is
    selected while a round is loading; and every call of [onSubmit] in
    flight holds the id of the card that was selected when Submit was
    pressed. *)
Record cards_inv (s : State) : Prop := {
  crd_locked : forall k b, locked s !! k = Some b -> b = true;
  crd_selected :
    forall k, selectedId s = Some k ->
      JS.truthy_member (locked s) k = false
      /\ exists t, t ∈ transactions s /\ tx_id t = k;
  crd_loading : loading s = true -> selectedId s = None;
  crd_guesses :
    forall g, g ∈ guesses s ->
      exists sid, gs_selectedId g = Some sid /\ sid <> EmptyString
}.

(** Which start outcome the flags of the screen stem from. *)
Definition flags_inv (s : State) : Prop :=
  loading s = true \/ JS.truthy_str (error s) = true
  \/ (JS.truthy_str (lowMsg s) = true /\ canPlay s = false)
  \/ (JS.truthy_str (lowMsg s) = false /\ canPlay s = true).

(** *** [postJsonWithFallback]

    What one [fetch] of the loop meets: a response (its [ok] flag, status
    and status text, and the body text as [JSON.parse] reads it), a
    rejected [fetch] or [text], or a network that never answers. *)
Inductive Parsed (T : Type) :=
| NoText
| Json (error : option string) (data : T)
| BadJson (syntax_error : string).

Arguments NoText {T}.
Arguments Json {T} error data.
Arguments BadJson {T} syntax_error.

Inductive Attempt (T : Type) :=
| Responds (ok : bool) (status : Z) (statusText : string) (body : Parsed T)
| Fails (message : string)
| Hangs.

Arguments Responds {T} ok status statusText body.
Arguments Fails {T} message.
Arguments Hangs {T}.

(** One pass through the body of the loop: the function returns, or the
    pass ends with [lastErr] set, or it never ends. *)
Inductive Tried (T : Type) :=
| Done (data : option T)
| Failed (lastErr : string)
| Stuck.

Arguments Done {T} data.
Arguments Failed {T} lastErr.
Arguments Stuck {T}.

Definition try_url {T} (url : string) (a : Attempt T) : Tried T :=
  match a with
  | Hangs => Stuck
  | Fails m => Failed m
  | Responds ok status statusText body =>
      match body with
      | BadJson e => Failed e
      | NoText =>
          if ok then Done None
          else if status =? 404 then Failed ("404 at " +:+ url)
          else Failed ("HTTP " +:+ pretty status +:+ " " +:+ statusText)
      | Json err data =>
          if ok then Done (Some data)
          else if status =? 404 then Failed (JS.or_str err ("404 at " +:+ url))
          else Failed (JS.or_str err ("HTTP " +:+ pretty status +:+ " " +:+ statusText))
      end
  end.

Inductive Reply (T : Type) :=
| Returned (data : option T)
| Thrown (message : string)
| NeverSettles.

Arguments Returned {T} data.
Arguments Thrown {T} message.
Arguments NeverSettles {T}.

Definition no_endpoint : string := "No working endpoint for Spend Detective submit.".

(** The loop from the [n]-th [fetch] of the call on; [net n url] is what
    that [fetch] meets. *)
Fixpoint postJsonWithFallback_from {T} (net : nat -> string -> Attempt T)
    (n : nat) (urls : list string) (lastErr : option string) : Reply T :=
  match urls with
  | [] => Thrown (JS.nullish lastErr no_endpoint)
  | url :: rest =>
      match try_url url (net n url) with
      | Done data => Returned data
      | Failed e => postJsonWithFallback_from net (S n) rest (Some e)
      | Stuck => NeverSettles
      end
  end.

Definition postJsonWithFallback {T} (net : nat -> string -> Attempt T)
    (urls : list string) : Reply T :=
  postJsonWithFallback_from net 0 urls None.

Definition BASE_URL : string :=
  "https://capstone-backend-1041336188288.us-central1.run.app".

Definition GUESS_URLS : list string :=
  [BASE_URL +:+ "/api/minigame/spend-detective/guess";
   BASE_URL +:+ "/api/minigame/spend-detective/submit";
   BASE_URL +:+ "/api/minigame/spend-detective/submit-guess"].

(** The errors of the passes over [urls], in order, when each pass ends
    with an error. *)
Definition errors_of {T} (net : nat -> string -> Attempt T) (urls : list string) :
    list string :=
  omap (fun t => match t with Failed e => Some e | _ => None end)
       (imap (fun i url => try_url url (net i url)) urls).

(** What [onSubmit]'s [try] block gets from the call: reading a field of
    a [null] reply throws like a failed call does. *)
Definition guess_outcome (r : Reply GuessResp) : option GuessOutcome :=
  match r with
  | Returned (Some j) => Some (GuessReplied j)
  | Returned None => Some GuessThrew
  | Thrown _ => Some GuessThrew
  | NeverSettles => None
  end.

(** [onSubmit] with its call of [postJsonWithFallback] over [GUESS_URLS];
    [None] when the call never settles. *)
Definition submit_guess (net : nat -> string -> Attempt GuessResp) (s : State) :
    option State :=
  o ← guess_outcome (postJsonWithFallback net GUESS_URLS); Some (onSubmit o s).

End SpendDetective.

(** ** Games hub: rank tiers *)

Module GamesHome.

Record Tier := { key : string; min : Z; color : string }.

Definition tiers : list Tier := [
  {| key := "Penny Pincher"; min := 0; color := "#B87333" |};
  {| key := "Savvy Saver"; min := 500; color := "#CD7F32" |};
  {| key := "Budget Master"; min := 1500; color := "#C0C0C0" |};
  {| key := "Portfolio Pro"; min := 3500; color := "#FFD700" |};
  {| key := "Investment Expert"; min := 7000; color := "#E5E4E2" |};
  {| key := "Finance Legend"; min := 12000; color := "#B9F2FF" |}
].

Definition currentTierIndex (xp : Z) : Z :=
  let r := JS.findIndex (fun t => min t <=? xp) (reverse tiers) in
  if 0 <=? r then Z.of_nat (length tiers) - 1 - r else 0.

Definition tier_at (i : Z) : option Tier :=
  if i <? 0 then None else tiers !! Z.to_nat i.

Definition currentTier (xp : Z) : option Tier := tier_at (currentTierIndex xp).
Definition nextTier (xp : Z) : option Tier := tier_at (currentTierIndex xp + 1).

Definition toNext (xp : Z) : Z :=
  match nextTier xp with
  | Some t => Z.max 0 (min t - xp)
  | None => 0
  end.

(** [currentTier.min]: [currentTierIndex] always points at one of the
    six tiers. *)
Definition tierStart (xp : Z) : Z :=
  match currentTier xp with Some t => min t | None => 0 end.

Definition tierEnd (xp : Z) : Z :=
  match nextTier xp with
  | Some t => min t
  | None => Z.max (tierStart xp + 1) xp
  end.

Definition tierProgress (xp : Z) : Q :=
  (inject_Z (xp - tierStart xp) / inject_Z (Z.max 1 (tierEnd xp - tierStart xp)))%Q.

(** The width of the progress fill, in percent:
    [Math.max(0, Math.min(1, tierProgress)) * 100]. *)
Definition fill_width (xp : Z) : Q :=
  let p := tierProgress xp in
  let capped := if Qle_bool 1 p then 1%Q else p in
  ((if Qle_bool capped 0 then 0 else capped) * 100)%Q.

(** The badge of a tier is drawn as achieved when [xp >= t.min]. *)
Definition achieved (xp : Z) (t : Tier) : bool := min t <=? xp.

End GamesHome.


(** ** Sample inputs

    Concrete questions, replies and runs, on which the properties below
    are evaluated. *)

Module Samples.

(** Five questions, each answered correctly, with the timer firing
    between presses. *)
Definition five_questions : list TriviaTest.UIQuestion := take 5 TriviaTest.bank.

Definition answer (i : nat) : list TriviaTest.Event :=
  [TriviaTest.PressOption i; TriviaTest.PressCheck; TriviaTest.LockTimer;
   TriviaTest.PressNext; TriviaTest.LockTimer].

Definition perfect_presses : list TriviaTest.Event :=
  answer 1 ++ answer 0 ++ answer 2 ++ answer 1 ++ answer 1.



(** The first question selected and checked, the lock released. *)
Definition first_checked : TriviaTest.State :=
  TriviaTest.run (TriviaTest.load five_questions TriviaTest.initial)
    [TriviaTest.PressOption 1; TriviaTest.PressCheck; TriviaTest.LockTimer].

Definition perfect_round : TriviaTest.State :=
  TriviaTest.run (TriviaTest.load five_questions TriviaTest.initial) perfect_presses.

Definition perfect_result : TriviaTest.SubmitResult :=
  {| TriviaTest.score := 5; TriviaTest.total := 5; TriviaTest.accuracy := 5 # 5;
     TriviaTest.xpEarned := 100; TriviaTest.level := 11; TriviaTest.streak := 3;
     TriviaTest.res_explanations :=
       ["$600 × 6 = $3,600.";
        "APR is the yearly interest rate on balances.";
        "20% of $3,000 = $600.";
        "$12 covers interest only → principal remains; more fees may accrue.";
        "≈ 4% of $1,000 = $40 (ignoring compounding nuance)."] |}.

(** A category-matching round: the server sends names and amount texts,
    the player selects the first tile of each column. *)
Definition matching_start : Connections.StartResp :=
  {| Connections.ok := true; Connections.start_error := None;
     Connections.can_play := Some true; Connections.message := None;
     Connections.xp_awarded := None; Connections.start_total_xp := None;
     Connections.start_level := None; Connections.start_streak := None;
     Connections.round_id := Some "r1";
     Connections.start_tries_remaining := Some 3;
     Connections.category_tiles := None;
     Connections.amount_tiles :=
       Some [inr "$120.50"; inr "$45"; inr "$900"; inr "$60.25"; inr "$30"];
     Connections.categories_names :=
       Some ["food and drink"; "travel"; "rent"; "shopping"; "entertainment"] |}.

Definition tile_food : Connections.TileCategory :=
  {| Connections.cat_id := "cat_0"; Connections.cat_label := "Food And Drink";
     Connections.category := Some "food and drink" |}.

Definition tile_120 : Connections.TileAmount :=
  {| Connections.amt_id := "amt_0"; Connections.amt_label := "$120.50";
     Connections.value :=
       Some (default 0%Q (Connections.Number (Connections.keep_numeric "$120.50"))) |}.

Definition matching_presses : list Connections.Event :=
  [Connections.StartReply (Connections.StartReplied matching_start);
   Connections.PressCategory 0; Connections.PressAmount 0].

Definition matching_selected : Connections.State :=
  Connections.run Connections.initial matching_presses.

(** A start reply that sends one amount as a tile object with the id
    that [normalizePlayable] generates for the text next to it; then the
    first tile of each column selected. *)
Definition repeated_id_start : Connections.StartResp :=
  {| Connections.ok := true; Connections.start_error := None;
     Connections.can_play := Some true; Connections.message := None;
     Connections.xp_awarded := None; Connections.start_total_xp := None;
     Connections.start_level := None; Connections.start_streak := None;
     Connections.round_id := Some "r2";
     Connections.start_tries_remaining := Some 3;
     Connections.category_tiles := None;
     Connections.amount_tiles :=
       Some [inl {| Connections.amt_id := "amt_1"; Connections.amt_label := "$10";
                    Connections.value := Some 10%Q |};
             inr "$20"];
     Connections.categories_names := Some ["food"; "travel"] |}.

Definition repeated_id_selected : Connections.State :=
  Connections.run Connections.initial
    [Connections.StartReply (Connections.StartReplied repeated_id_start);
     Connections.PressCategory 0; Connections.PressAmount 0].

Definition match_reply (ok : bool) (left : option Z) : Connections.SubmitResp :=
  {| Connections.sub_ok := true; Connections.correct := Some ok;
     Connections.tries_remaining := left; Connections.round_complete := None;
     Connections.xp_earned := None; Connections.total_xp := None;
     Connections.level := None; Connections.streak := None;
     Connections.accuracy := None; Connections.reveal_rows := None |}.

(** After one miss that left two tries, the same two tiles selected again. *)
Definition matching_after_miss : Connections.State :=
  Connections.run matching_selected
    (Connections.check matching_selected
       (Connections.SubmitReplied (match_reply false (Some 2)))
     ++ [Connections.FeedbackTimer;
         Connections.PressCategory 0; Connections.PressAmount 0]).

(** A detective round of three transactions, the first one selected. *)
Definition tx (k : string) : SpendDetective.Tx :=
  {| SpendDetective.tx_id := k; SpendDetective.date := "2024-11-02";
     SpendDetective.merchant_name := "Store"; SpendDetective.amount := 42;
     SpendDetective.tx_category := "Shopping" |}.

Definition detective_start : SpendDetective.StartResp :=
  {| SpendDetective.ok := true; SpendDetective.start_error := None;
     SpendDetective.insufficient_data := None; SpendDetective.message := None;
     SpendDetective.xp_awarded := None; SpendDetective.start_level := None;
     SpendDetective.start_streak := None;
     SpendDetective.transactions_field := Some [tx "t1"; tx "t2"; tx "t3"];
     SpendDetective.round_field := None;
     SpendDetective.round_id := Some "d1";
     SpendDetective.start_tries_remaining := Some 3 |}.

Definition detective_presses : list SpendDetective.Event :=
  [SpendDetective.StartReply (SpendDetective.StartReplied detective_start);
   SpendDetective.PressTx 0].

Definition detective_selected : SpendDetective.State :=
  SpendDetective.run SpendDetective.initial detective_presses.

(** A start reply for a user with too little history. *)
Definition detective_low_start : SpendDetective.StartResp :=
  {| SpendDetective.ok := true; SpendDetective.start_error := None;
     SpendDetective.insufficient_data := Some true;
     SpendDetective.message := Some "Not enough data yet.";
     SpendDetective.xp_awarded := Some 5; SpendDetective.start_level := None;
     SpendDetective.start_streak := None;
     SpendDetective.transactions_field := None;
     SpendDetective.round_field := None;
     SpendDetective.round_id := None;
     SpendDetective.start_tries_remaining := None |}.

Definition guess_reply (left correct anomalies : option Z) (new : option Z)
  : SpendDetective.GuessResp :=
  {| SpendDetective.tries_remaining := left;
     SpendDetective.total_correct := correct;
     SpendDetective.new_correct := new;
     SpendDetective.total_anomalies := anomalies;
     SpendDetective.round_complete := None;
     SpendDetective.reveal_items := None;
     SpendDetective.xp_earned := None; SpendDetective.total_xp := None;
     SpendDetective.level := None; SpendDetective.streak := None;
     SpendDetective.accuracy := None;
     SpendDetective.streak_maintained := None;
     SpendDetective.summary := None; SpendDetective.feedback := None |}.

(** A guess is submitted, the round is restarted before the reply
    arrives, the restart is answered with low data, and then the reply to
    the guess arrives and completes the round. *)
Definition detective_restart_in_flight : list SpendDetective.Event :=
  detective_presses
  ++ [SpendDetective.PressSubmit; SpendDetective.PressStart;
      SpendDetective.StartReply (SpendDetective.StartReplied detective_low_start);
      SpendDetective.GuessReply 0
        (SpendDetective.GuessReplied (guess_reply None (Some 2) (Some 2) (Some 1)))].

(** Quiz start replies for a user with too little history. *)
Definition low_data_reply (msg : option string) (xp : option Z) : Trivia.NewSetResponse :=
  {| Trivia.ok := true; Trivia.can_play := false; Trivia.difficulty := None;
     Trivia.questions := None; Trivia.insufficient_data := Some true;
     Trivia.message := msg; Trivia.xp_awarded := xp;
     Trivia.total_xp := Some 150; Trivia.level := Some 2;
     Trivia.streak := Some 1 |}.

Definition matching_low_start : Connections.StartResp :=
  {| Connections.ok := true; Connections.start_error := None;
     Connections.can_play := Some false; Connections.message := None;
     Connections.xp_awarded := Some 50; Connections.start_total_xp := Some 150;
     Connections.start_level := Some 2; Connections.start_streak := Some 1;
     Connections.round_id := None;
     Connections.start_tries_remaining := None;
     Connections.category_tiles := None;
     Connections.amount_tiles := None;
     Connections.categories_names := None |}.

(** A playable quiz start that carries three questions. *)
Definition served (k : string) : Trivia.Question :=
  {| Trivia.id := k; Trivia.type := "multiple_choice";
     Trivia.question := "What does APR stand for?";
     Trivia.choices := ["Annual percentage rate"; "Average payment ratio"] |}.

Definition playable_reply : Trivia.NewSetResponse :=
  {| Trivia.ok := true; Trivia.can_play := true;
     Trivia.difficulty := Some "basic";
     Trivia.questions := Some [served "a"; served "b"; served "c"];
     Trivia.insufficient_data := None; Trivia.message := None;
     Trivia.xp_awarded := None; Trivia.total_xp := None;
     Trivia.level := None; Trivia.streak := None |}.

(** Choice [k] pressed and the answer accepted by the server. *)
Definition served_answer (k : nat) : list Trivia.Event :=
  [Trivia.PressChoice k;
   Trivia.PressCheckAnswer
     (Trivia.AnswerReplied
        {| Trivia.ar_ok := true; Trivia.is_correct := true;
           Trivia.correct_index := 0; Trivia.selected_index := Z.of_nat k;
           Trivia.ar_explanation := "APR is the yearly rate.";
           Trivia.ar_xp_earned := 10; Trivia.questions_answered := 1;
           Trivia.total_questions := 3; Trivia.quiz_complete := false |})].

Definition served_next : Trivia.Event :=
  Trivia.PressNextQuestion (Trivia.CompleteThrew None).

Definition served_completion : Trivia.CompleteResponse :=
  {| Trivia.cr_ok := true; Trivia.cr_score := 3; Trivia.cr_total := 3;
     Trivia.cr_accuracy := 1%Q; Trivia.cr_xp_earned := 30;
     Trivia.cr_total_xp := 180; Trivia.cr_level := 2; Trivia.cr_streak := 1 |}.

(** The quiz loaded and the first choice of the first question selected. *)
Definition served_first_selected : list Trivia.Event :=
  [Trivia.Reload (Trivia.Replied playable_reply); Trivia.PressChoice 0].

(** All three questions answered, feedback of the last one showing. *)
Definition served_all_answered : list Trivia.Event :=
  [Trivia.Reload (Trivia.Replied playable_reply)]
  ++ served_answer 0 ++ [served_next]
  ++ served_answer 1 ++ [served_next]
  ++ served_answer 0.

Definition served_finished : list Trivia.Event :=
  served_all_answered
  ++ [Trivia.PressNextQuestion (Trivia.CompleteReplied served_completion)].

(** The quiz finished, a reload that fails, and the first choice of the
    first question selected again. *)
Definition served_replay : list Trivia.Event :=
  served_finished ++ [Trivia.Reload (Trivia.Threw None); Trivia.PressChoice 0].

End Samples.

(** * Properties *)

(** ** Random draws and the shuffle *)

Section Shuffle.

Import TriviaTest.

Variable rnd : Rand.oracle.
Hypothesis rnd_unit : Rand.unit_draws rnd.

Lemma floor_random_range (n : Z) (k : nat) :
  0 < n ->
  exists j, Rand.floor_random rnd n k = Some (j, S k) /\ 0 <= j < n.
Proof.
  intros Hn. unfold Rand.floor_random. eexists; split; [reflexivity|].
  destruct (rnd_unit k) as [H0 H1].
  split.
  - change 0 with (Qfloor (inject_Z 0)) at 1. rewrite Qfloor_Z at 1.
    change 0 with (Qfloor 0). apply Qfloor_resp_le.
    apply Qmult_le_0_compat; [assumption|].
    change 0%Q with (inject_Z 0). rewrite <- Zle_Qle. lia.
  - assert (Hlt : (rnd k * inject_Z n < inject_Z n)%Q).
    { rewrite <- (Qmult_1_l (inject_Z n)) at 2.
      apply Qmult_lt_compat_r; [|assumption].
      change 0%Q with (inject_Z 0). rewrite <- Zlt_Qlt. lia. }
    destruct (Z_lt_le_dec (Qfloor (rnd k * inject_Z n)) n) as [|Hge]; [assumption|].
    exfalso. apply (Qlt_irrefl (inject_Z n)).
    eapply Qle_lt_trans; [|exact Hlt].
    eapply Qle_trans; [|apply Qfloor_le].
    rewrite <- Zle_Qle. exact Hge.
Qed.

Lemma insert_swap_cons {T} (l : list T) (j : nat) (x y : T) :
  l !! j = Some y -> y :: <[j := x]> l ≡ₚ x :: l.
Proof.
  revert j. induction l as [|a l IH]; intros j Hj; [destruct j; discriminate|].
  destruct j as [|j]; simpl in *.
  - injection Hj as ->. apply perm_swap.
  - rewrite (perm_swap a y). rewrite (IH j Hj). apply perm_swap.
Qed.

Lemma insert_insert_perm {T} (l : list T) (i j : nat) (x y : T) :
  l !! i = Some x -> l !! j = Some y ->
  <[j := x]> (<[i := y]> l) ≡ₚ l.
Proof.
  revert i j. induction l as [|a l IH]; intros i j Hi Hj;
    [destruct i; discriminate|].
  destruct i as [|i], j as [|j]; simpl in *.
  - injection Hi as ->. injection Hj as ->. reflexivity.
  - injection Hi as ->. by apply insert_swap_cons.
  - injection Hj as ->. rewrite (insert_swap_cons l i y x Hi). reflexivity.
  - f_equiv. by apply IH.
Qed.

Lemma swap_perm {T} (c c' : list T) (i : nat) (j : Z) :
  swap c i j = Some c' -> c' ≡ₚ c.
Proof.
  unfold swap. destruct (j <? 0); [discriminate|].
  destruct (c !! i) as [ci|] eqn:Hi; [|discriminate].
  destruct (c !! Z.to_nat j) as [cj|] eqn:Hj; [|discriminate].
  intros [= <-]. by apply insert_insert_perm.
Qed.

Lemma swap_defined {T} (c : list T) (i : nat) (j : Z) :
  (i < length c)%nat -> 0 <= j <= Z.of_nat i -> is_Some (swap c i j).
Proof.
  intros Hi Hj. unfold swap.
  destruct (Z.ltb_spec j 0) as [|_]; [lia|].
  destruct (lookup_lt_is_Some_2 c i Hi) as [ci ->].
  destruct (lookup_lt_is_Some_2 c (Z.to_nat j)) as [cj ->]; [lia|].
  by eexists.
Qed.

Lemma shuffle_loop_perm {T} (i : nat) (c : list T) (k : nat) :
  (i < length c)%nat \/ i = 0%nat ->
  exists c', shuffle_loop rnd i c k = Some (c', (k + i)%nat) /\ c' ≡ₚ c.
Proof.
  revert c k. induction i as [|i IH]; intros c k Hi.
  - exists c. rewrite Nat.add_0_r. split; reflexivity.
  - assert (Hlen : (S i < length c)%nat) by lia.
    cbn [shuffle_loop]. unfold mbind, rand_bind, Rand.bind.
    destruct (floor_random_range (Z.of_nat (S i) + 1) k) as (j & -> & Hj); [lia|].
    destruct (swap_defined c (S i) j Hlen) as [c1 Hc1]; [lia|].
    rewrite Hc1.
    pose proof (swap_perm _ _ _ _ Hc1) as Hp.
    destruct (IH c1 (S k)) as (c' & Hrun & Hp').
    { left. rewrite (Permutation_length Hp). lia. }
    exists c'. split.
    + rewrite Hrun. do 2 f_equal. lia.
    + by rewrite Hp'.
Qed.

(** [shuffle] returns a permutation of its argument and makes
    [length a - 1] draws. *)
Lemma shuffle_perm {T} (a : list T) (k : nat) :
  exists c, shuffle rnd a k = Some (c, (k + (length a - 1))%nat) /\ c ≡ₚ a.
Proof.
  unfold shuffle. apply shuffle_loop_perm. destruct a; simpl; lia.
Qed.

Lemma findIndex_from_found {A} (p : A -> bool) (a : list A) (i0 : Z) (x : A) :
  x ∈ a -> p x = true ->
  exists y, i0 <= JS.findIndex_from p a i0
            /\ a !! Z.to_nat (JS.findIndex_from p a i0 - i0) = Some y
            /\ p y = true.
Proof.
  revert i0. induction a as [|z a IH]; intros i0 Hin Hp.
  - by apply elem_of_nil in Hin.
  - simpl. destruct (p z) eqn:Hz.
    + exists z. rewrite Z.sub_diag. split; [lia|]. split; [done|done].
    + apply elem_of_cons in Hin as [->|Hin]; [congruence|].
      destruct (IH (i0 + 1) Hin Hp) as (y & Hle & Hy & Hpy).
      exists y. split; [lia|]. split; [|done].
      replace (Z.to_nat (JS.findIndex_from p a (i0 + 1) - i0))
        with (S (Z.to_nat (JS.findIndex_from p a (i0 + 1) - (i0 + 1)))) by lia.
      exact Hy.
Qed.

Lemma map_fst_pairs_of (cs : list string) : map fst (pairs_of cs) = cs.
Proof.
  unfold pairs_of. apply list_eq. intros i.
  rewrite list_lookup_fmap, list_lookup_imap.
  by destruct (cs !! i).
Qed.

Lemma elem_of_pairs_of (cs : list string) (c : string) (i : Z) :
  (c, i) ∈ pairs_of cs <-> 0 <= i /\ cs !! Z.to_nat i = Some c.
Proof.
  unfold pairs_of. rewrite elem_of_lookup_imap. split.
  - intros (n & y & [= -> ->] & Hy). rewrite Nat2Z.id. split; [lia|done].
  - intros [Hi Hc]. exists (Z.to_nat i), c. split; [|done].
    f_equal. lia.
Qed.

Lemma reshuffle_question_spec (q : UIQuestion) (k : nat) :
  exists q' k', reshuffle_question rnd q k = Some (q', k') /\ reshuffled q q'.
Proof.
  unfold reshuffle_question, mbind, rand_bind, Rand.bind.
  destruct (shuffle_perm (pairs_of (choices q)) k) as (s & -> & Hs).
  eexists _, _. split; [reflexivity|].
  assert (Hch : map fst s ≡ₚ choices q).
  { rewrite Hs. by rewrite map_fst_pairs_of. }
  repeat split; simpl; try done.
  all: assert (Hin : (c, correctIndex q) ∈ s)
    by (rewrite Hs; apply elem_of_pairs_of; done).
  all: destruct (findIndex_from_found
                   (fun p => snd p =? correctIndex q) s 0 _ Hin)
    as ([c' i'] & Hle & Hy & Hpy); [simpl; lia|].
  all: fold (JS.findIndex (fun p : string * Z => snd p =? correctIndex q) s) in *.
  all: rewrite Z.sub_0_r in Hy; simpl in Hpy; apply Z.eqb_eq in Hpy; subst i'.
  - lia.
  - apply lookup_lt_Some in Hy. rewrite length_map. lia.
  - rewrite list_lookup_fmap, Hy. simpl. f_equal.
    assert (Hc' : (c', correctIndex q) ∈ pairs_of (choices q)).
    { rewrite <- Hs. by eapply list_elem_of_lookup_2. }
    apply elem_of_pairs_of in Hc' as [_ Hc']. congruence.
Qed.

Lemma mapM_reshuffle (l : list UIQuestion) (k : nat) :
  exists l' k', Rand.mapM (reshuffle_question rnd) l k = Some (l', k')
                /\ Forall2 reshuffled l l'.
Proof.
  revert k. induction l as [|q l IH]; intros k.
  - exists [], k. split; [reflexivity|constructor].
  - simpl. unfold Rand.bind.
    destruct (reshuffle_question_spec q k) as (q' & k1 & -> & Hq).
    destruct (IH k1) as (l' & k2 & -> & Hl).
    exists (q' :: l'), k2. split; [reflexivity|by constructor].
Qed.

Lemma slice0_length {A} (a : list A) (n : Z) :
  0 <= n <= Z.of_nat (length a) -> length (JS.slice0 a n) = Z.to_nat n.
Proof.
  intros Hn. unfold JS.slice0.
  destruct (Z.ltb_spec n 0); [lia|].
  rewrite length_take. lia.
Qed.

(** [sampleQuestions] over any bank: it returns, and what it returns is
    the first [n] questions of a permutation of the bank, each with its
    choices reshuffled. *)
Lemma sampleQuestions_from_spec (b : list UIQuestion) (n : Z) (k : nat) :
  exists sb qs k',
    sampleQuestions_from rnd b n k = Some (qs, k')
    /\ sb ≡ₚ b /\ Forall2 reshuffled (JS.slice0 sb n) qs.
Proof.
  unfold sampleQuestions_from, mbind, rand_bind, Rand.bind.
  destruct (shuffle_perm b k) as (sb & -> & Hsb).
  destruct (mapM_reshuffle (JS.slice0 sb n) (k + (length b - 1))) as (qs & k' & Hrun & Hqs).
  exists sb, qs, k'. by rewrite Hrun.
Qed.

Lemma reshuffled_ids (l l' : list UIQuestion) :
  Forall2 reshuffled l l' -> map id l' = map id l.
Proof.
  induction 1 as [|q q' l l' Hq _ IH]; [reflexivity|].
  simpl. destruct Hq as (-> & _). by rewrite IH.
Qed.

Lemma sampleQuestions_from_sound (b : list UIQuestion) (n : Z) (k : nat) :
  well_formed_bank b ->
  0 <= n <= Z.of_nat (length b) ->
  exists qs k',
    sampleQuestions_from rnd b n k = Some (qs, k')
    /\ Z.of_nat (length qs) = n
    /\ NoDup (map id qs)
    /\ Forall (drawn_from b) qs.
Proof.
  intros [Hnd Hval] Hn.
  destruct (sampleQuestions_from_spec b n k) as (sb & qs & k' & Hrun & Hsb & Hqs).
  exists qs, k'. split; [exact Hrun|].
  assert (Hlen : length sb = length b) by (by rewrite Hsb).
  split; [|split].
  - rewrite <- (Forall2_length _ _ _ Hqs), slice0_length; lia.
  - rewrite (reshuffled_ids _ _ Hqs). unfold JS.slice0.
    change (map id (take ?m sb)) with (id <$> take m sb).
    rewrite fmap_take.
    eapply sublist_NoDup; [|apply sublist_take].
    change (NoDup (map id sb)). by rewrite Hsb.
  - eapply Forall2_Forall_r; [exact Hqs|].
    apply Forall_forall. intros q Hq q' Hq'.
    assert (Hb : q ∈ b).
    { rewrite <- Hsb. eapply subseteq_take. unfold JS.slice0 in Hq. exact Hq. }
    rewrite Forall_forall in Hval. destruct (Hval q Hb) as [H0 [c Hc]].
    destruct Hq' as (Hid & Hqu & _ & Hperm & Hidx).
    destruct (Hidx c H0 Hc) as [Hr Hc'].
    exists q, c. repeat split; try done; lia.
Qed.

Lemma bank_well_formed : well_formed_bank bank.
Proof.
  split.
  - apply (bool_decide_unpack _). vm_compute. exact I.
  - unfold bank. repeat constructor; try (simpl; lia); by eexists.
Qed.

(** C10.  For [0 <= n <= bank.length], [sampleQuestions(n)] returns
    exactly [n] questions with pairwise distinct ids, each one a question
    of the bank whose choices are a permutation of the original choices
    and whose [correctIndex] points at the same correct answer as before
    the shuffle. *)
Theorem sampleQuestions_distinct_and_remapped (n : Z) (k : nat) :
  0 <= n <= Z.of_nat (length bank) ->
  exists qs k',
    sampleQuestions rnd n k = Some (qs, k')
    /\ Z.of_nat (length qs) = n
    /\ NoDup (map id qs)
    /\ Forall (drawn_from bank) qs.
Proof.
  intros Hn. apply sampleQuestions_from_sound; [apply bank_well_formed|exact Hn].
Qed.

Lemma mount_six (k : nat) :
  exists s k', mount rnd k = Some (s, k') /\ length (questions s) = 6%nat.
Proof.
  unfold mount, mbind, rand_bind, Rand.bind.
  destruct (sampleQuestions_from_sound bank 6 k bank_well_formed)
    as (qs & k' & Hrun & Hlen & _).
  { simpl. lia. }
  unfold sampleQuestions. rewrite Hrun.
  eexists _, _. split; [reflexivity|]. simpl. lia.
Qed.

End Shuffle.

(** ** Local trivia quiz: scoring *)

Section QuizScoring.

Import TriviaTest.

Lemma index_assign {A} (a : list (option A)) (i j : nat) (v : A) :
  JS.index (JS.assign a i v) j = if decide (j = i) then Some v else JS.index a j.
Proof.
  unfold JS.index, JS.assign.
  destruct (decide (i < length a)%nat) as [Hi|Hi].
  - destruct (decide (j = i)) as [->|Hne].
    + by rewrite list_lookup_insert_eq.
    + by rewrite list_lookup_insert_ne.
  - destruct (decide (j < length a)%nat) as [Hj|Hj].
    + rewrite lookup_app_l by done.
      destruct (decide (j = i)); [lia|done].
    + rewrite lookup_app_r by lia.
      rewrite (lookup_ge_None_2 a j) by lia.
      destruct (decide (j - length a < i - length a)%nat) as [Hlt|Hge].
      * rewrite lookup_app_l by (by rewrite length_replicate).
        rewrite lookup_replicate_2 by done.
        destruct (decide (j = i)); [lia|done].
      * rewrite lookup_app_r by (rewrite length_replicate; lia).
        rewrite length_replicate.
        destruct (decide (j = i)) as [->|Hne].
        -- by rewrite Nat.sub_diag.
        -- destruct (j - length a - (i - length a))%nat as [|m] eqn:Hm; [lia|].
           reflexivity.
Qed.

Lemma reduce_from_hits (qs : list UIQuestion) (ans : list (option Z)) (acc : Z) (i : nat) :
  reduce_from
    (fun acc qq i => acc + b2z (JS.strict_eq (JS.index ans i) (correctIndex qq)))
    acc i qs
  = acc + hits qs ans i.
Proof.
  revert acc i. induction qs as [|qq qs IH]; intros acc i; simpl; [lia|].
  rewrite IH. lia.
Qed.

Lemma earlier_hits (qs : list UIQuestion) (ans : list (option Z)) :
  earlier qs ans = hits qs ans 0.
Proof. unfold earlier, reduce. by rewrite reduce_from_hits. Qed.

Lemma hits_assign (qs : list UIQuestion) (ans : list (option Z)) (i0 idx : nat) (v : Z) :
  hits qs (JS.assign ans idx v) i0
  = hits qs ans i0
    + match qs !! (idx - i0)%nat with
      | Some qq =>
          if decide (i0 <= idx)%nat
          then b2z (v =? correctIndex qq)
               - b2z (JS.strict_eq (JS.index ans idx) (correctIndex qq))
          else 0
      | None => 0
      end.
Proof.
  revert i0. induction qs as [|qq qs IH]; intros i0; [simpl; lia|].
  cbn [hits]. rewrite IH, index_assign.
  destruct (decide (i0 = idx)) as [->|Hne].
  - rewrite Nat.sub_diag.
    replace (idx - S idx)%nat with 0%nat by lia.
    cbn [lookup list_lookup].
    destruct (qs !! 0%nat); repeat case_decide; simpl; lia.
  - destruct (decide (i0 <= idx)%nat) as [Hle|Hgt].
    + replace (idx - i0)%nat with (S (idx - S i0)) by lia.
      cbn [lookup list_lookup].
      destruct (qs !! (idx - S i0)%nat); repeat case_decide; lia.
    + replace (idx - i0)%nat with 0%nat by lia.
      replace (idx - S i0)%nat with 0%nat by lia.
      cbn [lookup list_lookup].
      destruct (qs !! 0%nat); repeat case_decide; lia.
Qed.

Lemma hits_count (qs : list UIQuestion) (ans : list (option Z)) (i0 : nat) :
  hits qs ans i0
  = Z.of_nat (length (List.filter (answered_correctly ans)
                                  (imap (fun i qq => ((i0 + i)%nat, qq)) qs))).
Proof.
  revert i0. induction qs as [|qq qs IH]; intros i0; [reflexivity|].
  cbn [hits imap List.filter]. unfold answered_correctly at 1. cbn [fst snd].
  rewrite Nat.add_0_r, IH.
  rewrite (imap_ext (fun i qq => ((S i0 + i)%nat, qq))
                    ((fun i qq => ((i0 + i)%nat, qq)) ∘ S) qs)
    by (intros; simpl; f_equal; lia).
  destruct (JS.strict_eq (JS.index ans i0) (correctIndex qq)); simpl; lia.
Qed.

Lemma earlier_num_correct (qs : list UIQuestion) (ans : list (option Z)) :
  earlier qs ans = Z.of_nat (num_correct qs ans).
Proof. rewrite earlier_hits, hits_count. reflexivity. Qed.

Lemma num_correct_le (qs : list UIQuestion) (ans : list (option Z)) :
  (num_correct qs ans <= length qs)%nat.
Proof.
  unfold num_correct.
  etransitivity; [apply List.filter_length_le|]. by rewrite length_imap.
Qed.

Lemma isLast_q (s : State) :
  isLast s = true -> exists qq, q s = Some qq.
Proof.
  unfold isLast, q. intros H%Z.eqb_eq.
  apply lookup_lt_is_Some_2. lia.
Qed.

(** The score that the last [onNextOrSubmit] computes is the number of
    correct answers in the answer array it stores. *)
Lemma make_result_score (s : State) (qq : UIQuestion) (v : Z) :
  q s = Some qq -> selected s = Some v ->
  score (make_result s qq)
  = Z.of_nat (num_correct (questions s) (JS.assign (answers s) (index s) v)).
Proof.
  intros Hq Hsel. unfold make_result. cbn [score].
  rewrite <- earlier_num_correct, !earlier_hits, hits_assign.
  rewrite Nat.sub_0_r. unfold q in Hq. rewrite Hq, Hsel.
  rewrite decide_True by lia. simpl. lia.
Qed.

Lemma make_result_scored (s : State) (qq : UIQuestion) (v : Z) :
  q s = Some qq -> selected s = Some v ->
  scored (questions s) (JS.assign (answers s) (index s) v) (make_result s qq).
Proof.
  intros Hq Hsel.
  assert (Hlen : (0 < length (questions s))%nat).
  { unfold q in Hq. apply lookup_lt_Some in Hq. lia. }
  split.
  - by apply make_result_score.
  - reflexivity.
  - simpl. lia.
  - unfold make_result. cbn [accuracy score total].
    destruct (Z.eqb_spec (Z.of_nat (length (questions s))) 0); [lia|reflexivity].
  - reflexivity.
Qed.

Lemma quiz_inv_load (qs : list UIQuestion) (s : State) : quiz_inv (load qs s).
Proof. split; simpl; [discriminate|discriminate]. Qed.

Lemma quiz_inv_step (s : State) (e : Event) : quiz_inv s -> quiz_inv (step s e).
Proof.
  intros Hinv. pose proof Hinv as [Hsel Hres].
  destruct e as [i| | | |qs]; cbn [step].
  - destruct (result_view s); [exact Hinv|].
    destruct (q s) as [qq|]; [|exact Hinv].
    destruct (bool_decide (i < length (choices qq))%nat && negb (checked s)); [|exact Hinv].
    split; simpl; [by eexists|exact Hres].
  - destruct (result_view s || checked s); [exact Hinv|].
    destruct (selected s) as [v|] eqn:Hv; [|exact Hinv].
    unfold onCheck. rewrite Hv.
    destruct (q s) as [qq|]; [|exact Hinv].
    destruct (pressLock s); [exact Hinv|].
    split; simpl; [by eexists|exact Hres].
  - destruct (result_view s || negb (checked s)) eqn:Hview; [exact Hinv|].
    apply orb_false_iff in Hview as [Hrv Hch].
    apply negb_false_iff in Hch.
    unfold onNextOrSubmit.
    destruct (pressLock s); [exact Hinv|].
    destruct (Hsel Hch) as [v Hv]. rewrite Hv.
    assert (Hnone : result s = None).
    { destruct (result s) as [r|] eqn:Hr; [|done].
      destruct (Hres r eq_refl) as [Hd _].
      unfold result_view in Hrv. rewrite Hd, Hr in Hrv. discriminate. }
    destruct (isLast s) eqn:Hlast.
    + destruct (isLast_q s Hlast) as [qq Hq]. rewrite Hq.
      split; simpl; [discriminate|].
      intros r [= <-]. split.
      * unfold done. simpl. apply Nat.leb_le.
        unfold isLast in Hlast. apply Z.eqb_eq in Hlast. lia.
      * by apply make_result_scored.
    + split; simpl; [discriminate|]. rewrite Hnone. discriminate.
  - split; [exact Hsel|exact Hres].
  - destruct (result_view s); [apply quiz_inv_load|exact Hinv].
Qed.

Lemma quiz_inv_run (s : State) (es : list Event) : quiz_inv s -> quiz_inv (run s es).
Proof.
  revert s. induction es as [|e es IH]; intros s Hs; [exact Hs|].
  simpl. apply IH. by apply quiz_inv_step.
Qed.

(** C5.  When a round of the local quiz is complete, the XP it shows is
    20 times the number of questions answered correctly; a round of five
    questions, all answered correctly, earns 100 XP. *)
Theorem quiz_xp_twenty_per_correct
    (qs : list UIQuestion) (es : list Event) (r : SubmitResult) :
  result (run (load qs initial) es) = Some r ->
  let s := run (load qs initial) es in
  xpEarned r = 20 * Z.of_nat (num_correct (questions s) (answers s))
  /\ (length (questions s) = 5%nat ->
      num_correct (questions s) (answers s) = 5%nat ->
      xpEarned r = 100).
Proof.
  intros Hr s.
  destruct (quiz_inv_run (load qs initial) es (quiz_inv_load qs initial)) as [_ Hres].
  destruct (Hres r Hr) as [_ Hsc]. fold s in Hsc.
  assert (Hxp : xpEarned r = 20 * Z.of_nat (num_correct (questions s) (answers s))).
  { rewrite (scored_xp _ _ _ Hsc), (scored_score _ _ _ Hsc). lia. }
  split; [exact Hxp|].
  intros _ H5. rewrite Hxp, H5. reflexivity.
Qed.

End QuizScoring.

Lemma quiz_xp_twenty_per_correct_witness :
  TriviaTest.result Samples.perfect_round = Some Samples.perfect_result
  /\ TriviaTest.xpEarned Samples.perfect_result = 100.
Proof.
  split; [reflexivity|].
  apply (quiz_xp_twenty_per_correct Samples.five_questions Samples.perfect_presses
           Samples.perfect_result); reflexivity.
Defined.

(** ** Spend detective: completion and the tries counter *)

Section Detective.

Import SpendDetective.

Lemma set_guesses_same (s : State) : set_guesses (guesses s) s = s.
Proof. by destruct s. Qed.

Lemma delete_last {A} (l : list A) (x : A) : delete (length l) (l ++ [x]) = l.
Proof. induction l as [|y l IH]; [done|]. simpl. f_equal. exact IH. Qed.

Lemma elem_of_delete {A} (l : list A) (k : nat) (x : A) : x ∈ delete k l -> x ∈ l.
Proof.
  revert k. induction l as [|y l IH]; intros k Hx; [done|].
  destruct k as [|k]; cbn in Hx.
  - by apply list_elem_of_further.
  - apply elem_of_cons in Hx as [->|Hx]; [apply list_elem_of_here|].
    apply list_elem_of_further. by apply (IH k).
Qed.


(** What [maybeFinishLocally] leaves as it is. *)
Lemma maybeFinishLocally_frame (j : GuessResp) (c : Z) (t : option Z) (s : State) :
  let s' := maybeFinishLocally j c t s in
  selectedId s' = selectedId s /\ tries s' = tries s
  /\ totalCorrect s' = totalCorrect s /\ totalAnomalies s' = totalAnomalies s
  /\ locked s' = locked s /\ transactions s' = transactions s
  /\ guesses s' = guesses s
  /\ loading s' = loading s /\ error s' = error s
  /\ lowMsg s' = lowMsg s /\ canPlay s' = canPlay s
  /\ (completed s = true -> completed s' = true).
Proof.
  cbn zeta. unfold maybeFinishLocally.
  destruct (JS.truthy_bool (round_complete j)); [done|].
  destruct t as [n|]; [|done]. by destruct (n <=? c).
Qed.

(** What a reply to a guess does to the fields that the completion test
    does not decide. *)
Lemma onSubmit_reply_frame (g : Guess) (j : GuessResp) (s : State) :
  let s' := onSubmit_reply g (GuessReplied j) s in
  let sid := JS.or_str (gs_selectedId g) EmptyString in
  selectedId s' = None
  /\ tries s' = match tries_remaining j with
                | Some t => Z.min (tries s) t
                | None => tries s
                end
  /\ totalCorrect s' = totalCorrect (record_guess sid j s)
  /\ totalAnomalies s' = nextTotal j (totalAnomalies s)
  /\ locked s' = (if wasCorrect j then <[sid := true]> (locked s) else locked s)
  /\ transactions s' = transactions s
  /\ guesses s' = guesses s
  /\ loading s' = loading s /\ error s' = error s
  /\ lowMsg s' = lowMsg s /\ canPlay s' = canPlay s
  /\ (completed s = true -> completed s' = true).
Proof.
  cbn zeta. unfold onSubmit_reply.
  destruct (JS.truthy_bool (round_complete j)); [done|].
  pose proof (maybeFinishLocally_frame j (nextCorrect j (gs_foundCount g))
                (nextTotal j (gs_totalAnomalies g))
                (record_guess (JS.or_str (gs_selectedId g) EmptyString) j s)) as H.
  cbn zeta in H. destruct H as (-> & -> & -> & -> & -> & -> & -> & -> & -> & -> & -> & H).
  done.
Qed.




Lemma detective_inv_step (s : State) (e : Event) :
  detective_inv s -> detective_inv (step s e).
Proof.
  intros Hinv. destruct e as [i| |k o| |o]; cbn [step].
  - destruct (transactions s !! i) as [t|]; [|exact Hinv].
    destruct (board_shown s) eqn:Hb; [|exact Hinv].
    unfold board_shown in Hb. apply andb_true_iff in Hb as [_ Hc].
    apply negb_true_iff in Hc.
    unfold pressTx, detective_inv.
    destruct (JS.truthy_member (locked s) (tx_id t)); simpl; congruence.
  - destruct (board_shown s); [|exact Hinv].
    unfold onSubmit_press. by destruct (negb (JS.truthy_str (selectedId s))).
  - destruct (guesses s !! k) as [g|]; [|exact Hinv].
    destruct o as [j|]; [|exact Hinv].
    intros _. by destruct (onSubmit_reply_frame g j (set_guesses (delete k (guesses s)) s))
      as (-> & _).
  - by destruct (restart_shown s).
  - destruct (loading s); [|exact Hinv].
    unfold startRound_reply, detective_inv.
    destruct o as [json|m]; [|exact Hinv].
    destruct (ok json); [|exact Hinv]. by case_bool_decide.
Qed.

Lemma detective_inv_run (s : State) (es : list Event) :
  detective_inv s -> detective_inv (run s es).
Proof.
  revert s. induction es as [|e es IH]; intros s Hs; [exact Hs|].
  simpl. apply IH. by apply detective_inv_step.
Qed.


(** The counter after a guess: the smaller of its old value and the
    value the reply reports. *)
Lemma onSubmit_tries (j : GuessResp) (s : State) :
  JS.truthy_str (selectedId s) = true ->
  tries (onSubmit (GuessReplied j) s)
  = match tries_remaining j with
    | Some t => Z.min (tries s) t
    | None => tries s
    end.
Proof.
  intros Hsel. unfold onSubmit. rewrite Hsel. cbn [negb].
  by destruct (onSubmit_reply_frame (closure s) j s) as (_ & -> & _).
Qed.

Lemma onSubmit_reply_tries_bounds (g : Guess) (o : GuessOutcome) (s : State) :
  tries (onSubmit_reply g o s) <= tries s
  /\ (reports_nonneg o -> 0 <= tries s -> 0 <= tries (onSubmit_reply g o s)).
Proof.
  destruct o as [j|]; [|cbn; lia].
  destruct (onSubmit_reply_frame g j s) as (_ & -> & _).
  destruct (tries_remaining j) as [t|] eqn:Hrep; simpl; [|lia].
  split; [lia|]. intros Ht H0. specialize (Ht t Hrep). lia.
Qed.

Lemma step_tries_bounds (s : State) (e : Event) :
  is_start e = false ->
  tries (step s e) <= tries s
  /\ (event_reports_nonneg e -> 0 <= tries s -> 0 <= tries (step s e)).
Proof.
  destruct e as [i| |k o| |o]; intros He; try discriminate; cbn [step].
  - destruct (transactions s !! i) as [t|]; [|lia].
    destruct (board_shown s); [|lia].
    unfold pressTx. destruct (JS.truthy_member (locked s) (tx_id t)); simpl; lia.
  - destruct (board_shown s); [|lia].
    unfold onSubmit_press. destruct (negb (JS.truthy_str (selectedId s))); simpl; lia.
  - destruct (guesses s !! k) as [g|]; [|lia].
    apply (onSubmit_reply_tries_bounds g o (set_guesses (delete k (guesses s)) s)).
Qed.

(** Within one round (no new start), the counter never rises, and it
    stays non-negative as long as the replies report non-negative
    counts. *)
Lemma run_tries_bounds (es : list Event) (s : State) :
  Forall (fun e => is_start e = false) es ->
  tries (run s es) <= tries s
  /\ (Forall event_reports_nonneg es -> 0 <= tries s -> 0 <= tries (run s es)).
Proof.
  revert s. induction es as [|e es IH]; intros s Hes; [simpl; lia|].
  apply Forall_cons in Hes as [He Hes]. cbn [run foldl].
  destruct (step_tries_bounds s e He) as [Hle Hnn].
  destruct (IH (step s e) Hes) as [Hle' Hnn'].
  fold (run (step s e) es) in *.
  split; [lia|].
  intros Hrep H0. apply Forall_cons in Hrep as [Hr Hrep].
  apply Hnn'; [exact Hrep|]. by apply Hnn.
Qed.

End Detective.

(** ** Category matching: the pools and the solved list *)

Section Matching.

Import Connections.

Lemma foldl_insert_notin {A} (l : list (string * A)) (m : gmap string A) (k : string) :
  k ∉ map fst l ->
  foldl (fun m e => <[fst e := snd e]> m) m l !! k = m !! k.
Proof.
  revert m. induction l as [|[k0 v0] l IH]; intros m Hk; [reflexivity|].
  simpl in *. apply not_elem_of_cons in Hk as [Hne Hk].
  rewrite IH by exact Hk. by rewrite lookup_insert_ne.
Qed.

Lemma fromEntries_lookup {A} (l : list (string * A)) (k : string) (v : A) :
  NoDup (map fst l) -> (k, v) ∈ l -> fromEntries l !! k = Some v.
Proof.
  unfold fromEntries. generalize (∅ : gmap string A).
  induction l as [|[k0 v0] l IH]; intros m Hnd Hin.
  - by apply elem_of_nil in Hin.
  - simpl in *. apply NoDup_cons in Hnd as [Hk0 Hnd].
    apply elem_of_cons in Hin as [[= -> ->]|Hin].
    + rewrite foldl_insert_notin by exact Hk0. by rewrite lookup_insert_eq.
    + by apply IH.
Qed.

Lemma filter_andb {A} (g h : A -> bool) (l : list A) :
  List.filter (fun x => g x && h x) l = List.filter h (List.filter g l).
Proof.
  induction l as [|x l IH]; [reflexivity|]. simpl.
  destruct (g x); simpl; [destruct (h x)|]; by rewrite IH.
Qed.

Lemma filter_all {A} (p : A -> bool) (l : list A) :
  (forall x, x ∈ l -> p x = true) -> List.filter p l = l.
Proof.
  induction l as [|x l IH]; intros H; [reflexivity|]. simpl.
  rewrite (H x) by apply list_elem_of_here.
  f_equal. apply IH. intros y Hy. apply H. by apply list_elem_of_further.
Qed.

(** With pairwise distinct ids, dropping the tiles that carry the id of
    [c] drops [c] and nothing else. *)
Lemma filter_remove_one {A} (f : A -> string) (c : A) (l1 l2 : list A) :
  NoDup (map f (l1 ++ c :: l2)) ->
  List.filter (fun x => negb (String.eqb (f c) (f x))) (l1 ++ c :: l2) = l1 ++ l2.
Proof.
  intros Hnd. rewrite map_app in Hnd. simpl in Hnd.
  apply NoDup_app in Hnd as (_ & Hdisj & Hnd2).
  apply NoDup_cons in Hnd2 as [Hc2 _].
  rewrite List.filter_app. simpl. rewrite String.eqb_refl. simpl.
  rewrite !filter_all; [reflexivity| |].
  - intros x Hx. apply negb_true_iff, String.eqb_neq. intros Heq.
    apply Hc2. rewrite Heq. apply (list_elem_of_fmap_2 f). exact Hx.
  - intros x Hx. apply negb_true_iff, String.eqb_neq. intros Heq.
    apply (Hdisj (f x)).
    + apply (list_elem_of_fmap_2 f). exact Hx.
    + rewrite <- Heq. apply list_elem_of_here.
Qed.

Lemma filter_sublist_NoDup {A} (f : A -> string) (p : A -> bool) (l : list A) :
  NoDup (map f l) -> NoDup (map f (List.filter p l)).
Proof.
  induction l as [|x l IH]; intros Hnd; [exact Hnd|].
  simpl in *. apply NoDup_cons in Hnd as [Hx Hnd].
  destruct (p x); [|by apply IH].
  simpl. apply NoDup_cons. split; [|by apply IH].
  intros Hin. apply Hx.
  apply list_elem_of_fmap in Hin as (y & -> & Hy).
  apply list_elem_of_In, List.filter_In in Hy as [Hy _].
  apply (list_elem_of_fmap_2 f). by apply list_elem_of_In.
Qed.

(** Adding one pair to the solved list removes exactly its tile from a
    pool whose ids are pairwise distinct. *)
Lemma pool_after_match {A} (f : A -> string) (solved_ids : list string)
    (tiles : list A) (c : A) :
  let pool ids :=
    List.filter (fun x => negb (existsb (fun k => String.eqb k (f x)) ids)) tiles in
  NoDup (map f tiles) ->
  c ∈ pool solved_ids ->
  exists l1 l2,
    pool solved_ids = l1 ++ c :: l2
    /\ pool (solved_ids ++ [f c]) = l1 ++ l2.
Proof.
  intros pool Hnd Hc.
  destruct (list_elem_of_split _ _ Hc) as (l1 & l2 & Hsplit).
  exists l1, l2. split; [exact Hsplit|].
  unfold pool.
  rewrite (List.filter_ext _
             (fun x => negb (existsb (fun k => String.eqb k (f x)) solved_ids)
                       && negb (String.eqb (f c) (f x)))).
  - rewrite filter_andb. fold (pool solved_ids). rewrite Hsplit.
    apply filter_remove_one. rewrite <- Hsplit.
    by apply filter_sublist_NoDup.
  - intros x. rewrite existsb_app. simpl. rewrite orb_false_r.
    by rewrite negb_orb.
Qed.

Lemma existsb_ids {A} (f : A -> string) (k : string) (l : list A) :
  existsb (fun p => String.eqb (f p) k) l
  = existsb (fun k' => String.eqb k' k) (map f l).
Proof. induction l as [|x l IH]; [reflexivity|]. simpl. by rewrite IH. Qed.

Lemma unsolvedCategories_pool (s : State) :
  unsolvedCategories s
  = List.filter
      (fun x => negb (existsb (fun k => String.eqb k (cat_id x))
                              (map (fun p => cat_id (cat p)) (solved s))))
      (categories s).
Proof.
  unfold unsolvedCategories. apply List.filter_ext. intros x.
  by rewrite (existsb_ids (fun p => cat_id (cat p))).
Qed.

Lemma unsolvedAmounts_pool (s : State) :
  unsolvedAmounts s
  = List.filter
      (fun x => negb (existsb (fun k => String.eqb k (amt_id x))
                              (map (fun p => amt_id (amt p)) (solved s))))
      (amounts s).
Proof.
  unfold unsolvedAmounts. apply List.filter_ext. intros x.
  by rewrite (existsb_ids (fun p => amt_id (amt p))).
Qed.

Lemma catMap_lookup (s : State) (c : TileCategory) :
  NoDup (map cat_id (categories s)) -> c ∈ categories s ->
  catMap s !! cat_id c = Some c.
Proof.
  intros Hnd Hc. unfold catMap. apply fromEntries_lookup.
  - rewrite map_map. exact Hnd.
  - apply (list_elem_of_fmap_2 (fun c => (cat_id c, c))). exact Hc.
Qed.

Lemma amtMap_lookup (s : State) (a : TileAmount) :
  NoDup (map amt_id (amounts s)) -> a ∈ amounts s ->
  amtMap s !! amt_id a = Some a.
Proof.
  intros Hnd Ha. unfold amtMap. apply fromEntries_lookup.
  - rewrite map_map. exact Hnd.
  - apply (list_elem_of_fmap_2 (fun a => (amt_id a, a))). exact Ha.
Qed.

(** The effect of one submitted pairing of tiles [c] and [a] taken from
    the unsolved pools. *)
Lemma onCheck_frame
    (s : State) (json : SubmitResp) (c : TileCategory) (a : TileAmount) :
  onCheck_blocked s = false ->
  selCatId s = Some (cat_id c) ->
  selAmtId s = Some (amt_id a) ->
  c ∈ unsolvedCategories s ->
  a ∈ unsolvedAmounts s ->
  NoDup (map cat_id (categories s)) ->
  NoDup (map amt_id (amounts s)) ->
  let s' := onCheck (SubmitReplied json) s in
  if sub_ok json && JS.truthy_bool (correct json)
  then solved s' = solved s ++ [{| cat := c; amt := a |}]
       /\ (exists l1 l2, unsolvedCategories s = l1 ++ c :: l2
                         /\ unsolvedCategories s' = l1 ++ l2)
       /\ (exists l1 l2, unsolvedAmounts s = l1 ++ a :: l2
                         /\ unsolvedAmounts s' = l1 ++ l2)
  else solved s' = solved s
       /\ unsolvedCategories s' = unsolvedCategories s
       /\ unsolvedAmounts s' = unsolvedAmounts s.
Proof.
  intros Hgo Hsc Hsa Hc Ha Hndc Hnda s'. subst s'.
  unfold onCheck. rewrite Hgo. unfold onCheck_reply.
  cbn [closure ck_selCatId ck_selAmtId ck_catMap ck_amtMap ck_solvedCount].
  destruct (sub_ok json && JS.truthy_bool (correct json)) eqn:Hok.
  - apply andb_true_iff in Hok as [-> ->]. cbn [negb orb].
    assert (Hc' : c ∈ categories s).
    { unfold unsolvedCategories in Hc.
      apply list_elem_of_In, List.filter_In in Hc as [Hc _].
      by apply list_elem_of_In. }
    assert (Ha' : a ∈ amounts s).
    { unfold unsolvedAmounts in Ha.
      apply list_elem_of_In, List.filter_In in Ha as [Ha _].
      by apply list_elem_of_In. }
    rewrite Hsc, Hsa. cbn [mbind option_bind].
    rewrite (catMap_lookup s c Hndc Hc'), (amtMap_lookup s a Hnda Ha').
    split; [reflexivity|]. split.
    + rewrite !unsolvedCategories_pool in *. cbn [solved categories].
      rewrite map_app. cbn [map cat].
      by apply (pool_after_match cat_id).
    + rewrite !unsolvedAmounts_pool in *. cbn [solved amounts].
      rewrite map_app. cbn [map amt].
      by apply (pool_after_match amt_id).
  - assert (Hno : negb (sub_ok json) || negb (JS.truthy_bool (correct json)) = true).
    { apply andb_false_iff in Hok as [->| ->]; [done|by rewrite orb_true_r]. }
    rewrite Hno. done.
Qed.

Lemma set_checks_same (s : State) : set_checks (checks s) s = s.
Proof. by destruct s. Qed.

(** A press on Check and the arrival of its reply, one after the other,
    amount to the whole of [onCheck]. *)
Lemma run_check (s : State) (o : SubmitOutcome) :
  board_shown s = true -> run s (check s o) = onCheck o s.
Proof.
  intros Hb. unfold check, onCheck. cbn [run foldl step]. rewrite Hb.
  unfold onCheck_press. destruct (onCheck_blocked s).
  - by rewrite lookup_ge_None_2.
  - cbn [checks set_checks].
    rewrite lookup_app_r, Nat.sub_diag by lia. cbn [lookup list_lookup].
    rewrite delete_last.
    replace (set_checks (checks s) (set_checks (checks s ++ [closure s]) s))
      with s by (by destruct s).
    reflexivity.
Qed.

Lemma foldl_insert_is_Some {A} (l : list (string * A)) (m : gmap string A) (k : string) :
  k ∈ map fst l \/ is_Some (m !! k) ->
  is_Some (foldl (fun m e => <[fst e := snd e]> m) m l !! k).
Proof.
  revert m. induction l as [|[k0 v0] l IH]; intros m H.
  - destruct H as [H|H]; [by apply elem_of_nil in H|exact H].
  - cbn [foldl fst snd]. apply IH. cbn [map fst] in H.
    destruct H as [H|H].
    + apply elem_of_cons in H as [->|H]; [|by left].
      right. rewrite lookup_insert_eq. by eexists.
    + right. destruct (decide (k0 = k)) as [->|Hne].
      * rewrite lookup_insert_eq. by eexists.
      * by rewrite lookup_insert_ne.
Qed.

Lemma foldl_insert_key {A} (f : A -> string) (l : list A) (m : gmap string A)
    (k : string) (v : A) :
  (forall v', m !! k = Some v' -> f v' = k) ->
  foldl (fun m e => <[fst e := snd e]> m) m (map (fun x => (f x, x)) l) !! k = Some v ->
  f v = k.
Proof.
  revert m. induction l as [|x l IH]; intros m Hm H; [by apply Hm|].
  cbn [map foldl fst snd] in H. apply (IH _) in H; [exact H|].
  intros v'. destruct (decide (f x = k)) as [<-|Hne].
  - rewrite lookup_insert_eq. by intros [= <-].
  - rewrite lookup_insert_ne by exact Hne. apply Hm.
Qed.

(** The tile that [catMap] holds under the id of a tile of the board has
    that id. *)
Lemma catMap_own (s : State) (c : TileCategory) :
  c ∈ categories s ->
  exists t, catMap s !! cat_id c = Some t /\ cat_id t = cat_id c.
Proof.
  intros Hc. unfold catMap, fromEntries.
  destruct (foldl_insert_is_Some (map (fun c => (cat_id c, c)) (categories s))
              ∅ (cat_id c)) as [t Ht].
  { left. rewrite map_map. cbn. by apply (list_elem_of_fmap_2 cat_id). }
  exists t. split; [exact Ht|].
  apply (foldl_insert_key cat_id _ ∅ _ _) in Ht; [exact Ht|].
  intros v'. by rewrite lookup_empty.
Qed.

Lemma amtMap_own (s : State) (a : TileAmount) :
  a ∈ amounts s ->
  exists t, amtMap s !! amt_id a = Some t /\ amt_id t = amt_id a.
Proof.
  intros Ha. unfold amtMap, fromEntries.
  destruct (foldl_insert_is_Some (map (fun a => (amt_id a, a)) (amounts s))
              ∅ (amt_id a)) as [t Ht].
  { left. rewrite map_map. cbn. by apply (list_elem_of_fmap_2 amt_id). }
  exists t. split; [exact Ht|].
  apply (foldl_insert_key amt_id _ ∅ _ _) in Ht; [exact Ht|].
  intros v'. by rewrite lookup_empty.
Qed.

Lemma unsolvedCategories_board (s : State) (c : TileCategory) :
  c ∈ unsolvedCategories s -> c ∈ categories s.
Proof.
  intros Hc. unfold unsolvedCategories in Hc.
  apply list_elem_of_In, List.filter_In in Hc as [Hc _]. by apply list_elem_of_In.
Qed.

Lemma unsolvedAmounts_board (s : State) (a : TileAmount) :
  a ∈ unsolvedAmounts s -> a ∈ amounts s.
Proof.
  intros Ha. unfold unsolvedAmounts in Ha.
  apply list_elem_of_In, List.filter_In in Ha as [Ha _]. by apply list_elem_of_In.
Qed.

Lemma nothing_selected (s : State) :
  selCatId s = None -> selAmtId s = None -> selection_in_pools s.
Proof. intros Hc Ha _. rewrite Hc, Ha. split; intros k Hk; discriminate Hk. Qed.

Lemma board_shown_not_loading (s : State) : board_shown s = true -> loading s = false.
Proof.
  unfold board_shown. intros Hb.
  apply andb_true_iff in Hb as [Hb _]. apply andb_true_iff in Hb as [Hb _].
  apply andb_true_iff in Hb as [Hb _]. by apply negb_true_iff in Hb.
Qed.

Lemma live_inv_initial : live_inv initial.
Proof.
  split.
  - by apply nothing_selected.
  - done.
  - intros c Hc. by apply elem_of_nil in Hc.
Qed.

Lemma live_inv_onCheck_reply (c : Check) (o : SubmitOutcome) (s : State) :
  live_inv s -> live_inv (onCheck_reply c o s).
Proof.
  intros Hinv. destruct o as [json|]; [|exact Hinv].
  destruct Hinv as [Hsel Hload Hchk]. unfold onCheck_reply.
  destruct (negb (sub_ok json) || negb (JS.truthy_bool (correct json)));
    (split; [intros Hfb; discriminate Hfb|exact Hload|exact Hchk]).
Qed.

Lemma live_inv_step (s : State) (e : Event) : live_inv s -> live_inv (step s e).
Proof.
  intros Hinv. pose proof Hinv as [Hsel Hload Hchk].
  destruct e as [i|i| |k o| | |o]; cbn [step].
  - destruct (unsolvedCategories s !! i) as [c|] eqn:Hc; [|exact Hinv].
    destruct (board_shown s) eqn:Hb; [|exact Hinv].
    pose proof (board_shown_not_loading s Hb) as Hl.
    split; [|cbn; congruence|exact Hchk].
    intros Hfb. destruct (Hsel Hfb) as [_ Hamt]. split; [|exact Hamt].
    cbn [pressCategory selCatId]. intros k Hk.
    destruct (bool_decide (selCatId s = Some (cat_id c))); [discriminate|].
    injection Hk as <-. exists c. split; [|reflexivity].
    by eapply list_elem_of_lookup_2.
  - destruct (unsolvedAmounts s !! i) as [a|] eqn:Ha; [|exact Hinv].
    destruct (board_shown s) eqn:Hb; [|exact Hinv].
    pose proof (board_shown_not_loading s Hb) as Hl.
    split; [|cbn; congruence|exact Hchk].
    intros Hfb. destruct (Hsel Hfb) as [Hcat _]. split; [exact Hcat|].
    cbn [pressAmount selAmtId]. intros k Hk.
    destruct (bool_decide (selAmtId s = Some (amt_id a))); [discriminate|].
    injection Hk as <-. exists a. split; [|reflexivity].
    by eapply list_elem_of_lookup_2.
  - destruct (board_shown s); [|exact Hinv].
    unfold onCheck_press. destruct (onCheck_blocked s) eqn:Hblk; [exact Hinv|].
    split; [exact Hsel|exact Hload|].
    cbn [checks set_checks]. intros c Hc.
    apply elem_of_app in Hc as [Hc|Hc]; [by apply Hchk|].
    apply list_elem_of_singleton in Hc as ->.
    unfold onCheck_blocked in Hblk.
    apply orb_false_iff in Hblk as [_ Hfb]. apply bool_decide_eq_false in Hfb.
    assert (Hnone : feedback s = None).
    { destruct (feedback s); [exfalso; apply Hfb; by eexists|done]. }
    destruct (Hsel Hnone) as [Hcat Hamt].
    cbn [closure ck_selCatId ck_selAmtId ck_catMap ck_amtMap]. split.
    + intros k Hk. destruct (Hcat k Hk) as (t & Ht & <-).
      by apply catMap_own, unsolvedCategories_board.
    + intros k Hk. destruct (Hamt k Hk) as (t & Ht & <-).
      by apply amtMap_own, unsolvedAmounts_board.
  - destruct (checks s !! k) as [c|]; [|exact Hinv].
    apply live_inv_onCheck_reply.
    split; [exact Hsel|exact Hload|].
    cbn [checks set_checks]. intros c' Hc'. apply Hchk.
    by apply (elem_of_delete _ k).
  - destruct (timers s =? 0)%nat; [exact Hinv|].
    split; [by apply nothing_selected|done|exact Hchk].
  - destruct (restart_shown s); [|exact Hinv].
    split; [by apply nothing_selected|done|exact Hchk].
  - destruct (loading s) eqn:Hl; [|exact Hinv].
    destruct (Hload eq_refl) as [Hc Ha].
    unfold startRound_reply.
    destruct o as [json|m];
      [destruct (ok json); cbn [negb];
       [destruct (can_play json) as [[|]|]; try destruct (normalizePlayable json)|]|];
      (split; [by apply nothing_selected|done|exact Hchk]).
Qed.

Lemma live_inv_run (s : State) (es : list Event) : live_inv s -> live_inv (run s es).
Proof.
  revert s. induction es as [|e es IH]; intros s Hs; [exact Hs|].
  simpl. apply IH. by apply live_inv_step.
Qed.

(** C7 (as the code has it).  In any state the screen can reach, on a
    board whose tile ids are pairwise distinct, a pairing whose reply
    arrives before anything else happens selects one tile [c] of the
    unsolved categories and one tile [a] of the unsolved amounts; if the
    reply does not confirm the pairing, the solved list and both pools
    stay as they are; if it does, the pair [(c, a)] is appended to the
    solved list and exactly [c] and [a] leave their pools. *)
Theorem onCheck_pools_and_solved (es : list Event) (json : SubmitResp) :
  let s := run initial es in
  board_shown s = true ->
  onCheck_blocked s = false ->
  NoDup (map cat_id (categories s)) ->
  NoDup (map amt_id (amounts s)) ->
  let s' := run s (check s (SubmitReplied json)) in
  exists c a,
    selCatId s = Some (cat_id c) /\ selAmtId s = Some (amt_id a)
    /\ c ∈ unsolvedCategories s /\ a ∈ unsolvedAmounts s
    /\ if sub_ok json && JS.truthy_bool (correct json)
       then solved s' = solved s ++ [{| cat := c; amt := a |}]
            /\ (exists l1 l2, unsolvedCategories s = l1 ++ c :: l2
                              /\ unsolvedCategories s' = l1 ++ l2)
            /\ (exists l1 l2, unsolvedAmounts s = l1 ++ a :: l2
                              /\ unsolvedAmounts s' = l1 ++ l2)
       else solved s' = solved s
            /\ unsolvedCategories s' = unsolvedCategories s
            /\ unsolvedAmounts s' = unsolvedAmounts s.
Proof.
  intros s Hb Hgo Hndc Hnda s'. subst s'. rewrite (run_check s _ Hb).
  destruct (live_inv_run initial es live_inv_initial) as [Hinv _ _]. fold s in Hinv.
  unfold onCheck_blocked in Hgo.
  apply orb_false_iff in Hgo as [Hgo Hfb]. apply orb_false_iff in Hgo as [Hc Ha].
  apply negb_false_iff in Hc, Ha.
  assert (Hnone : feedback s = None).
  { destruct (feedback s); [discriminate Hfb|reflexivity]. }
  destruct (Hinv Hnone) as [Hcat Hamt].
  destruct (selCatId s) as [kc|] eqn:Hkc; [|discriminate Hc].
  destruct (selAmtId s) as [ka|] eqn:Hka; [|discriminate Ha].
  destruct (Hcat kc eq_refl) as (c & Hcin & <-).
  destruct (Hamt ka eq_refl) as (a & Hain & <-).
  exists c, a. repeat (split; [done|]).
  apply onCheck_frame; try done.
  unfold onCheck_blocked. by rewrite Hkc, Hka, Hc, Ha, Hnone.
Qed.

(** The counter after a submitted pairing is the count the reply
    reports, or the old one when the reply reports none. *)
Lemma onCheck_tries (j : SubmitResp) (s : State) :
  onCheck_blocked s = false ->
  tries (onCheck (SubmitReplied j) s) = default (tries s) (tries_remaining j).
Proof.
  intros Hgo. unfold onCheck. rewrite Hgo. unfold onCheck_reply.
  by destruct (negb (sub_ok j) || negb (JS.truthy_bool (correct j))).
Qed.

End Matching.

(** ** The tries counter *)

(** C1 (as the code has it).  In the detective screen a reply to a guess
    sets the counter to the smaller of its previous value and the reported
    one, so within a round the counter never rises; it stays non-negative,
    hence between 0 and its initial value, as long as the replies report
    non-negative counts.  In the category screen the counter after a reply
    is non-negative whenever its previous value and the reported count
    are. *)
Theorem tries_counter_bounds
    (s : SpendDetective.State) (es : list SpendDetective.Event)
    (jd : SpendDetective.GuessResp)
    (sc : Connections.State) (j : Connections.SubmitResp) :
  Forall (fun e => SpendDetective.is_start e = false) es ->
  Connections.onCheck_blocked sc = false ->
  (JS.truthy_str (SpendDetective.selectedId s) = true ->
   SpendDetective.tries (SpendDetective.onSubmit (SpendDetective.GuessReplied jd) s)
   = match SpendDetective.tries_remaining jd with
     | Some t => Z.min (SpendDetective.tries s) t
     | None => SpendDetective.tries s
     end)
  /\ SpendDetective.tries (SpendDetective.run s es) <= SpendDetective.tries s
  /\ (Forall SpendDetective.event_reports_nonneg es ->
      0 <= SpendDetective.tries s ->
      0 <= SpendDetective.tries (SpendDetective.run s es))
  /\ ((forall t, Connections.tries_remaining j = Some t -> 0 <= t) ->
      0 <= Connections.tries sc ->
      0 <= Connections.tries (Connections.onCheck (Connections.SubmitReplied j) sc)).
Proof.
  intros Hes Hgo. split; [apply onSubmit_tries|].
  destruct (run_tries_bounds es s Hes) as [Hle Hnn].
  split; [exact Hle|]. split; [exact Hnn|].
  rewrite (onCheck_tries j sc Hgo).
  intros Hrep H0. destruct (Connections.tries_remaining j) as [t|]; simpl; [|exact H0].
  by apply Hrep.
Qed.

Lemma tries_counter_bounds_witness :
  0 <= SpendDetective.tries
         (SpendDetective.run Samples.detective_selected
            [SpendDetective.PressSubmit;
             SpendDetective.GuessReply 0
               (SpendDetective.GuessReplied (Samples.guess_reply (Some 2) None None None))])
    <= SpendDetective.tries Samples.detective_selected
  /\ 0 <= Connections.tries
            (Connections.onCheck
               (Connections.SubmitReplied (Samples.match_reply false (Some 2)))
               Samples.matching_selected).
Proof.
  pose proof (tries_counter_bounds Samples.detective_selected
                [SpendDetective.PressSubmit;
                 SpendDetective.GuessReply 0
                   (SpendDetective.GuessReplied (Samples.guess_reply (Some 2) None None None))]
                (Samples.guess_reply (Some 2) None None None)
                Samples.matching_selected (Samples.match_reply false (Some 2))) as H.
  destruct H as (_ & Hle & Hnn & Hnn').
  - repeat constructor.
  - reflexivity.
  - split; [split; [|exact Hle]|].
    + apply Hnn.
      * repeat constructor. intros t [= <-]. lia.
      * apply Z.leb_le. reflexivity.
    + apply Hnn'.
      * intros t [= <-]. lia.
      * apply Z.leb_le. reflexivity.
Defined.

(** C1, as stated, fails on both screens: the category screen takes a
    reported count that is larger than the current one, and the detective
    screen takes a negative reported count. *)
Lemma tries_counter_can_rise_or_go_negative :
  (Connections.onCheck_blocked Samples.matching_after_miss = false
   /\ Connections.tries Samples.matching_after_miss = 2
   /\ Connections.tries
        (Connections.onCheck
           (Connections.SubmitReplied (Samples.match_reply false (Some 3)))
           Samples.matching_after_miss) = 3)
  /\ (SpendDetective.tries Samples.detective_selected = 3
      /\ SpendDetective.tries
           (SpendDetective.onSubmit
              (SpendDetective.GuessReplied
                 (Samples.guess_reply (Some (-1)) None None None))
              Samples.detective_selected) = -1).
Proof. repeat split; reflexivity. Qed.

(** ** Starting a round without enough history *)

Section LowData.

Lemma or_str_truthy (m : option string) (d : string) :
  d <> EmptyString -> JS.truthy_str (Some (JS.or_str m d)) = true.
Proof.
  intros Hd. unfold JS.or_str, JS.truthy_str.
  destruct m as [t|]; [destruct (String.eqb_spec t EmptyString)|];
    apply negb_true_iff, String.eqb_neq; done.
Qed.

Lemma or_num_nonneg (x : option Z) :
  (forall v, x = Some v -> 0 <= v) -> 0 <= JS.or_num x 0.
Proof.
  intros H. unfold JS.or_num. destruct x as [v|]; [|lia].
  destruct (v =? 0); [lia|]. by apply H.
Qed.

(** C4 (as the code has it).  A start reply with [ok] true that says the
    round cannot be played.  The category screen never shows the board:
    it shows the server's message, or a default one, and no error.  The
    quiz screen shows the low-data card, with the message and the
    reported XP award (0 when none is reported, so non-negative whenever
    the reported award is), exactly when the reply also carries
    [insufficient_data] and a non-empty message; otherwise it records an
    error, which is what a first load then displays. *)
Theorem low_data_start_outcome
    (res : Trivia.NewSetResponse) (s : Trivia.State)
    (json : Connections.StartResp) (sc : Connections.State) :
  Trivia.ok res = true ->
  Trivia.can_play res = false ->
  Connections.ok json = true ->
  Connections.can_play json = Some false ->
  let s' := Trivia.loadQuiz (Trivia.Replied res) s in
  let sc' := Connections.startRound (Connections.StartReplied json) sc in
  (if JS.truthy_bool (Trivia.insufficient_data res) && JS.truthy_str (Trivia.message res)
   then exists low,
          Trivia.view s' = Trivia.LowDataView low
          /\ Trivia.error s' = None
          /\ Trivia.message res = Some (Trivia.low_message low)
          /\ Trivia.low_xp_awarded low = JS.or_num (Trivia.xp_awarded res) 0
          /\ ((forall v, Trivia.xp_awarded res = Some v -> 0 <= v) ->
              0 <= Trivia.low_xp_awarded low)
   else exists msg,
          Trivia.error s' = Some msg /\ msg <> EmptyString
          /\ Trivia.lowDataMessage s' = None
          /\ (Trivia.st_questions s = [] -> Trivia.view s' = Trivia.ErrorView msg))
  /\ (Connections.canPlay sc' = false
      /\ Connections.board_shown sc' = false
      /\ Connections.error sc' = None
      /\ Connections.lowMsg sc'
         = Some (JS.or_str (Connections.message json) Connections.low_default)
      /\ JS.truthy_str (Connections.lowMsg sc') = true).
Proof.
  intros Hok Hcp Hokc Hcpc s' sc'. split.
  - subst s'. unfold Trivia.loadQuiz. rewrite Hok, Hcp. cbn [negb].
    destruct (JS.truthy_bool (Trivia.insufficient_data res)
              && JS.truthy_str (Trivia.message res)) eqn:Hlow.
    + apply andb_true_iff in Hlow as [_ Hmsg].
      eexists. split; [reflexivity|]. split; [reflexivity|].
      split; [|split; [reflexivity|]].
      * cbn [Trivia.low_message]. unfold JS.truthy_str, JS.or_str in *.
        destruct (Trivia.message res) as [t|]; [|discriminate].
        by destruct (String.eqb t EmptyString).
      * cbn [Trivia.low_xp_awarded]. apply or_num_nonneg.
    + exists (JS.or_str (Trivia.message res) "Cannot play quiz at this time").
      assert (Hne : JS.or_str (Trivia.message res) "Cannot play quiz at this time" <> EmptyString).
      { pose proof (or_str_truthy (Trivia.message res) "Cannot play quiz at this time") as H.
        intros Heq. rewrite Heq in H. by specialize (H ltac:(done)). }
      split; [reflexivity|]. split; [exact Hne|]. split; [reflexivity|].
      intros Hqs. unfold Trivia.view, Trivia.fail_with, Trivia.settle.
      cbn [Trivia.loading Trivia.error Trivia.st_questions Trivia.currentIndex
           Trivia.lowDataMessage Trivia.finalResults].
      rewrite Hqs. cbn [lookup list_lookup].
      by destruct (String.eqb_spec
                     (JS.or_str (Trivia.message res) "Cannot play quiz at this time") EmptyString).
  - subst sc'. unfold Connections.startRound, Connections.startRound_reply.
    rewrite Hokc, Hcpc. cbn [negb].
    repeat split; try reflexivity.
    cbn [Connections.lowMsg]. by apply or_str_truthy.
Qed.

End LowData.

Lemma low_data_start_outcome_witness :
  (exists low,
     Trivia.view (Trivia.loadQuiz
                    (Trivia.Replied
                       (Samples.low_data_reply (Some "Keep saving!") (Some 50)))
                    Trivia.initial)
     = Trivia.LowDataView low
     /\ Trivia.low_xp_awarded low = 50)
  /\ Connections.canPlay
       (Connections.startRound (Connections.StartReplied Samples.matching_low_start)
                               Connections.initial) = false.
Proof.
  destruct (low_data_start_outcome
              (Samples.low_data_reply (Some "Keep saving!") (Some 50)) Trivia.initial
              Samples.matching_low_start Connections.initial
              eq_refl eq_refl eq_refl eq_refl) as [Hquiz Hmatch].
  split.
  - destruct Hquiz as (low & Hview & _ & _ & Hxp & _).
    exists low. split; [exact Hview|exact Hxp].
  - exact (proj1 Hmatch).
Defined.

(** C4, as stated, fails on the quiz screen: a low-data reply that carries
    an XP award but no message ends on the error screen. *)
Lemma low_data_without_message_is_an_error :
  Trivia.view (Trivia.loadQuiz
                 (Trivia.Replied (Samples.low_data_reply None (Some 50)))
                 Trivia.initial)
  = Trivia.ErrorView "Cannot play quiz at this time".
Proof. reflexivity. Qed.

(** ** Score and accuracy of a finished round *)

Section Accuracy.

Lemma ratio_in_unit (a b : Z) :
  0 <= a <= b -> 0 < b ->
  (0 <= inject_Z a / inject_Z b)%Q /\ (inject_Z a / inject_Z b <= 1)%Q.
Proof.
  intros Ha Hb.
  assert (Hb' : (0 < inject_Z b)%Q).
  { change 0%Q with (inject_Z 0). rewrite <- Zlt_Qlt. exact Hb. }
  split.
  - apply Qle_shift_div_l; [exact Hb'|].
    rewrite Qmult_0_l. change 0%Q with (inject_Z 0). rewrite <- Zle_Qle. lia.
  - apply Qle_shift_div_r; [exact Hb'|].
    rewrite Qmult_1_l. rewrite <- Zle_Qle. lia.
Qed.

Lemma round_half_up_100_close (x : Q) :
  (x - (1 # 200) <= SpendDetective.round_half_up_100 x)%Q
  /\ (SpendDetective.round_half_up_100 x <= x + (1 # 200))%Q.
Proof.
  unfold SpendDetective.round_half_up_100.
  set (y := (x * 100 + (1 # 2))%Q).
  pose proof (Qfloor_le y) as Hlo.
  pose proof (Qlt_floor y) as Hhi.
  rewrite inject_Z_plus in Hhi.
  rewrite (Qmake_Qdiv (Qfloor y) 100).
  set (f := inject_Z (Qfloor y)) in *.
  change (inject_Z (Z.pos 100)) with 100%Q.
  change (inject_Z 1) with 1%Q in Hhi.
  subst y. split.
  - apply Qle_shift_div_l; [reflexivity|]. lra.
  - apply Qle_shift_div_r; [reflexivity|]. lra.
Qed.

Lemma toFixed2_one (x : Q) : (x == 1)%Q -> (SpendDetective.toFixed2 x == 1)%Q.
Proof.
  intros Hx. unfold SpendDetective.toFixed2.
  assert (Hpos : Qle_bool 0 x = true).
  { apply Qle_bool_iff. rewrite Hx. discriminate. }
  rewrite Hpos. unfold SpendDetective.round_half_up_100.
  rewrite Hx. reflexivity.
Qed.

Lemma toFixed2_nonneg (x : Q) :
  (0 <= x)%Q -> SpendDetective.toFixed2 x = SpendDetective.round_half_up_100 x.
Proof.
  intros Hx. unfold SpendDetective.toFixed2.
  apply Qle_bool_iff in Hx. by rewrite Hx.
Qed.

(** C2 (as the code has it).  A finished round of the local quiz has
    [0 <= score <= total], [accuracy = score / total] and an accuracy
    between 0 and 1.  The detective screen computes an accuracy of its
    own only when the reply carries none and the correct-count [c] has
    reached a positive anomaly total [t]; it is [c / t] rounded to two
    decimals, hence within 1/200 of [c / t], and it is exactly
    [c / t = 1] when [c = t]. *)
Theorem round_score_and_accuracy
    (qs : list TriviaTest.UIQuestion) (es : list TriviaTest.Event)
    (r : TriviaTest.SubmitResult)
    (j : SpendDetective.GuessResp) (c t : Z) (s : SpendDetective.State) :
  TriviaTest.result (TriviaTest.run (TriviaTest.load qs TriviaTest.initial) es) = Some r ->
  JS.truthy_bool (SpendDetective.round_complete j) = false ->
  SpendDetective.accuracy j = None ->
  0 < t -> t <= c ->
  (0 <= TriviaTest.score r <= TriviaTest.total r
   /\ (TriviaTest.accuracy r
       == inject_Z (TriviaTest.score r) / inject_Z (TriviaTest.total r))%Q
   /\ (0 <= TriviaTest.accuracy r)%Q /\ (TriviaTest.accuracy r <= 1)%Q)
  /\ exists a,
       SpendDetective.finalStats (SpendDetective.maybeFinishLocally j c (Some t) s)
         ≫= SpendDetective.fs_accuracy = Some a
       /\ a = SpendDetective.toFixed2 (inject_Z c / inject_Z t)
       /\ (inject_Z c / inject_Z t - (1 # 200) <= a)%Q
       /\ (a <= inject_Z c / inject_Z t + (1 # 200))%Q
       /\ (c = t -> (a == 1)%Q /\ (a == inject_Z c / inject_Z t)%Q).
Proof.
  intros Hr Hrc Hacc Ht Hc. split.
  - destruct (quiz_inv_run _ es (quiz_inv_load qs TriviaTest.initial)) as [_ Hres].
    destruct (Hres r Hr) as [_ Hsc].
    pose proof (TriviaTest.scored_score _ _ _ Hsc) as Hscore.
    pose proof (TriviaTest.scored_total _ _ _ Hsc) as Htot.
    pose proof (TriviaTest.scored_pos _ _ _ Hsc) as Hpos.
    pose proof (TriviaTest.scored_accuracy _ _ _ Hsc) as Ha.
    pose proof (num_correct_le
                  (TriviaTest.questions (TriviaTest.run (TriviaTest.load qs TriviaTest.initial) es))
                  (TriviaTest.answers (TriviaTest.run (TriviaTest.load qs TriviaTest.initial) es)))
      as Hle.
    assert (Hb : 0 <= TriviaTest.score r <= TriviaTest.total r) by lia.
    split; [exact Hb|]. split; [exact Ha|].
    rewrite Ha. by apply ratio_in_unit.
  - unfold SpendDetective.maybeFinishLocally. rewrite Hrc.
    destruct (Z.leb_spec t c) as [_|]; [|lia].
    cbn [SpendDetective.finalStats mbind option_bind SpendDetective.local_stats
         SpendDetective.fs_accuracy].
    rewrite Hacc. destruct (Z.ltb_spec 0 t) as [_|]; [|lia].
    eexists. split; [reflexivity|]. split; [reflexivity|].
    assert (Hq : (0 <= inject_Z c / inject_Z t)%Q).
    { apply Qle_shift_div_l.
      - change 0%Q with (inject_Z 0). rewrite <- Zlt_Qlt. exact Ht.
      - rewrite Qmult_0_l. change 0%Q with (inject_Z 0). rewrite <- Zle_Qle. lia. }
    rewrite (toFixed2_nonneg _ Hq).
    destruct (round_half_up_100_close (inject_Z c / inject_Z t)) as [Hlo Hhi].
    split; [exact Hlo|]. split; [exact Hhi|].
    intros ->.
    assert (H1 : (inject_Z t / inject_Z t == 1)%Q).
    { apply Qmult_inv_r. change 0%Q with (inject_Z 0). rewrite inject_Z_injective. lia. }
    rewrite <- (toFixed2_nonneg _ Hq).
    split; [by apply toFixed2_one|].
    transitivity 1%Q; [by apply toFixed2_one|symmetry; exact H1].
Qed.

End Accuracy.

Lemma round_score_and_accuracy_witness :
  (TriviaTest.score Samples.perfect_result <= TriviaTest.total Samples.perfect_result)
  /\ exists a,
       SpendDetective.finalStats
         (SpendDetective.maybeFinishLocally
            (Samples.guess_reply None (Some 3) (Some 3) (Some 1)) 3 (Some 3)
            Samples.detective_selected)
         ≫= SpendDetective.fs_accuracy = Some a
       /\ (a == 1)%Q.
Proof.
  destruct (round_score_and_accuracy
              Samples.five_questions Samples.perfect_presses Samples.perfect_result
              (Samples.guess_reply None (Some 3) (Some 3) (Some 1)) 3 3
              Samples.detective_selected
              eq_refl eq_refl eq_refl ltac:(lia) ltac:(lia))
    as [[Hscore _] (a & Ha & _ & _ & _ & Hone)].
  split; [exact (proj2 Hscore)|].
  exists a. split; [exact Ha|exact (proj1 (Hone eq_refl))].
Defined.

(** C2, as stated, fails on the detective screen: when a reply reports
    four correct finds against an anomaly total of three, the accuracy the
    screen computes is 1.33, which is neither 4/3 nor at most 1. *)
Lemma detective_fallback_accuracy_is_rounded :
  let s' :=
    SpendDetective.onSubmit
      (SpendDetective.GuessReplied (Samples.guess_reply None (Some 4) (Some 3) (Some 1)))
      Samples.detective_selected in
  SpendDetective.completed s' = true
  /\ SpendDetective.finalStats s' ≫= SpendDetective.fs_accuracy = Some (133 # 100)%Q
  /\ ~ (133 # 100 == 4 / 3)%Q
  /\ ~ (133 # 100 <= 1)%Q.
Proof.
  split; [reflexivity|]. split; [reflexivity|]. split.
  - intros H. discriminate H.
  - intros H. apply H. reflexivity.
Qed.

(** ** Rank tiers *)

Section Ranks.

Import GamesHome.

Lemma currentTierIndex_cases (xp : Z) :
  currentTierIndex xp
  = if 12000 <=? xp then 5
    else if 7000 <=? xp then 4
    else if 3500 <=? xp then 3
    else if 1500 <=? xp then 2
    else if 500 <=? xp then 1
    else 0.
Proof.
  unfold currentTierIndex, JS.findIndex, tiers. cbn [reverse rev_append JS.findIndex_from min length].
  repeat (match goal with |- context [?a <=? xp] => destruct (a <=? xp) eqn:? end;
          try reflexivity).
Qed.


End Ranks.

(** ** Timeouts of network calls *)

Section Timeouts.

Import Net.

Lemma fetch_with_abort_cases (ms : Z) (n : Network) :
  0 <= ms ->
  (exists t, arrival n = Some t /\ t < ms /\ fetch_with_abort ms n = n)
  \/ ((forall t, arrival n = Some t -> ms <= t)
      /\ fetch_with_abort ms n = Breaks ms "AbortError" "Aborted").
Proof.
  intros Hms. unfold fetch_with_abort. rewrite Z.max_r by exact Hms.
  destruct n as [t ok st b|t nm m|]; cbn [arrival].
  - destruct (Z.ltb_spec t ms); [left; by exists t|right]. split; [|done].
    by intros ? [= <-].
  - destruct (Z.ltb_spec t ms); [left; by exists t|right]. split; [|done].
    by intros ? [= <-].
  - right. split; [|done]. discriminate.
Qed.

Lemma fetchJson_ms_settles (ms : Z) (n : Network) :
  0 <= ms -> settles_by ms (fetchJson_ms ms n).
Proof.
  intros Hms. unfold fetchJson_ms.
  destruct (fetch_with_abort_cases ms n Hms) as [(t & Ht & Hlt & ->)|[_ ->]].
  - destruct n as [t' ok st b|t' nm m|]; cbn [arrival] in Ht; [| |discriminate];
      injection Ht as ->.
    + destruct b; [destruct ok| destruct ok |]; simpl; lia.
    + destruct (String.eqb nm "AbortError"); simpl; lia.
  - simpl. lia.
Qed.

(** C9 (as the code has it).  A call through the quiz screen's
    [fetchJson] settles within its 15 s timeout whatever the network
    does, and when the network has not answered by then it is rejected
    with the timed-out message.  The bank-link [post] arms no timer: it
    stays pending for as long as the network is silent, and a late
    answer is taken whenever it comes. *)
Theorem fetchJson_times_out_after_15s (n : Network) (late : Z) (body : Body) :
  default_timeout = 15000
  /\ settles_by 15000 (fetchJson n)
  /\ ((forall t, arrival n = Some t -> 15000 <= t) ->
      fetchJson n = Rejected 15000 timed_out_message)
  /\ post true Silent = Pending
  /\ (15000 <= late ->
      exists data, post true (Delivers late true "200 OK" body) = Resolved late data).
Proof.
  split; [reflexivity|]. split; [by apply fetchJson_ms_settles|]. split.
  - intros Hlate. unfold fetchJson, fetchJson_ms, default_timeout.
    destruct (fetch_with_abort_cases 15000 n) as [(t & Ht & Hlt & _)|[_ ->]]; [lia| |].
    + specialize (Hlate t Ht). lia.
    + reflexivity.
  - split; [reflexivity|]. intros _. simpl. by eexists.
Qed.

End Timeouts.

Lemma fetchJson_times_out_after_15s_witness :
  Net.fetchJson Net.Silent = Net.Rejected 15000 Net.timed_out_message
  /\ exists data,
       Net.post true (Net.Delivers 60000 true "200 OK" Net.EmptyBody)
       = Net.Resolved 60000 data.
Proof.
  destruct (fetchJson_times_out_after_15s Net.Silent 60000 Net.EmptyBody)
    as (_ & _ & Hsilent & _ & Hlate).
  split.
  - apply Hsilent. discriminate.
  - apply Hlate. lia.
Defined.

(** C9, as stated, fails for the bank-link service: its [post] never
    settles when the network stays silent, so no timeout error is ever
    raised. *)
Lemma post_has_no_timeout :
  Net.post true Net.Silent = Net.Pending
  /\ forall deadline, ~ Net.settles_by deadline (Net.post true Net.Silent).
Proof. split; [reflexivity|]. intros deadline H. exact H. Qed.

(** ** How many questions a quiz start brings *)

Lemma sample_oracle_unit : Rand.unit_draws sample_oracle.
Proof.
  intros k. unfold sample_oracle, Qle, Qlt. simpl.
  pose proof (Nat.mod_upper_bound (k * 7) 10). lia.
Qed.

(** C6 (as the code has it).  Every start of the local quiz brings
    exactly six questions; the server-backed quiz screen takes whatever
    non-empty list a playable reply carries and shows it. *)
Theorem quiz_start_question_count
    (rnd : Rand.oracle) (k : nat)
    (res : Trivia.NewSetResponse) (s : Trivia.State)
    (q0 : Trivia.Question) (qs : list Trivia.Question) :
  Rand.unit_draws rnd ->
  Trivia.ok res = true ->
  Trivia.can_play res = true ->
  Trivia.questions res = Some (q0 :: qs) ->
  (exists st k', TriviaTest.mount rnd k = Some (st, k')
                 /\ length (TriviaTest.questions st) = 6%nat)
  /\ Trivia.st_questions (Trivia.loadQuiz (Trivia.Replied res) s) = q0 :: qs
  /\ Trivia.view (Trivia.loadQuiz (Trivia.Replied res) s) = Trivia.QuizView.
Proof.
  intros Hrnd Hok Hcp Hqs. split; [by apply mount_six|].
  unfold Trivia.loadQuiz. rewrite Hok, Hcp, Hqs. split; reflexivity.
Qed.

Lemma quiz_start_question_count_witness :
  (exists st k', TriviaTest.mount sample_oracle 0%nat = Some (st, k')
                 /\ length (TriviaTest.questions st) = 6%nat)
  /\ length (Trivia.st_questions
               (Trivia.loadQuiz (Trivia.Replied Samples.playable_reply) Trivia.initial))
     = 3%nat.
Proof.
  destruct (quiz_start_question_count sample_oracle 0%nat Samples.playable_reply
              Trivia.initial (Samples.served "a") [Samples.served "b"; Samples.served "c"]
              sample_oracle_unit eq_refl eq_refl eq_refl) as (Hsix & Hqs & _).
  split; [exact Hsix|]. rewrite Hqs. reflexivity.
Defined.

(** C6, as stated, fails: a start of the local quiz brings six questions,
    not five. *)
Lemma quiz_start_is_not_five :
  exists st k', TriviaTest.mount sample_oracle 0%nat = Some (st, k')
                /\ length (TriviaTest.questions st) = 6%nat
                /\ length (TriviaTest.questions st) <> 5%nat.
Proof.
  eexists _, _. split; [vm_compute; reflexivity|]. split; [reflexivity|discriminate].
Qed.

(** ** Evaluations on the sample inputs *)

Lemma sampleQuestions_distinct_and_remapped_witness :
  exists qs k',
    TriviaTest.sampleQuestions sample_oracle 3 0%nat = Some (qs, k')
    /\ Z.of_nat (length qs) = 3
    /\ NoDup (map TriviaTest.id qs)
    /\ Forall (TriviaTest.drawn_from TriviaTest.bank) qs.
Proof.
  apply (sampleQuestions_distinct_and_remapped sample_oracle sample_oracle_unit 3 0%nat).
  simpl. lia.
Defined.

Lemma onCheck_pools_and_solved_witness :
  length (Connections.solved
            (Connections.run Samples.matching_selected
               (Connections.check Samples.matching_selected
                  (Connections.SubmitReplied (Samples.match_reply true (Some 3))))))
  = 1%nat
  /\ Connections.unsolvedCategories
       (Connections.run Samples.matching_selected
          (Connections.check Samples.matching_selected
             (Connections.SubmitReplied (Samples.match_reply false (Some 2)))))
     = Connections.unsolvedCategories Samples.matching_selected.
Proof.
  assert (Hndc : NoDup (map Connections.cat_id
                            (Connections.categories Samples.matching_selected)))
    by (apply (bool_decide_unpack _); vm_compute; exact I).
  assert (Hnda : NoDup (map Connections.amt_id
                            (Connections.amounts Samples.matching_selected)))
    by (apply (bool_decide_unpack _); vm_compute; exact I).
  destruct (onCheck_pools_and_solved Samples.matching_presses
              (Samples.match_reply true (Some 3)) eq_refl eq_refl Hndc Hnda)
    as (c & a & _ & _ & _ & _ & Hhit).
  destruct (onCheck_pools_and_solved Samples.matching_presses
              (Samples.match_reply false (Some 2)) eq_refl eq_refl Hndc Hnda)
    as (c' & a' & _ & _ & _ & _ & Hmiss).
  cbn [Samples.match_reply Connections.sub_ok Connections.correct JS.truthy_bool
       default andb] in Hhit, Hmiss.
  split; [|exact (proj1 (proj2 Hmiss))].
  fold Samples.matching_selected in Hhit.
  rewrite (proj1 Hhit). reflexivity.
Defined.

(** C7, as stated, fails in two ways.  On a board with a repeated tile
    id, which [normalizePlayable] builds when the reply sends a tile
    object with the id it generates for a text, a confirmed pairing
    takes both amount tiles out of the pool and records the tile that
    was not pressed.  And when Check is pressed twice before the first
    reply arrives, the second confirmed reply appends the pair again and
    removes no tile. *)
Lemma onCheck_can_remove_two_tiles_or_none :
  (let s := Samples.repeated_id_selected in
   let s' := Connections.run s
               (Connections.check s
                  (Connections.SubmitReplied (Samples.match_reply true (Some 3)))) in
   map Connections.amt_label (Connections.unsolvedAmounts s) = ["$10"; "$20"]
   /\ Connections.amt_label <$> (Connections.unsolvedAmounts s !! 0%nat) = Some "$10"
   /\ Connections.unsolvedAmounts s' = []
   /\ map (fun p => Connections.amt_label (Connections.amt p)) (Connections.solved s')
      = ["$20"])
  /\ (let s := Samples.matching_selected in
      let hit := Connections.SubmitReplied (Samples.match_reply true (Some 3)) in
      let s1 := Connections.run s
                  [Connections.PressCheck; Connections.PressCheck;
                   Connections.CheckReply 0 hit] in
      let s2 := Connections.step s1 (Connections.CheckReply 0 hit) in
      length (Connections.solved s1) = 1%nat
      /\ length (Connections.solved s2) = 2%nat
      /\ Connections.unsolvedCategories s2 = Connections.unsolvedCategories s1
      /\ Connections.unsolvedAmounts s2 = Connections.unsolvedAmounts s1).
Proof. repeat split; reflexivity. Qed.



(** * Further properties of the screens *)

(** ** Local trivia quiz: the shape of a round *)

Section QuizRound.

Import TriviaTest.

Lemma assign_at_end {A} (a : list (option A)) (v : A) :
  JS.assign a (length a) v = a ++ [Some v].
Proof.
  unfold JS.assign. rewrite decide_False by lia.
  by rewrite Nat.sub_diag.
Qed.

Lemma round_inv_load (qs : list UIQuestion) (s : State) : round_inv (load qs s).
Proof.
  split; cbn [load questions index answers selected checked explanations result];
    try done; try lia.
  split; [intros [r Hr]; discriminate Hr|intros [H0 H1]; lia].
Qed.

Lemma round_inv_unlock (s : State) : round_inv s -> round_inv (unlock s).
Proof. intros [H1 H2 H3 H4 H5 H6 H7 H8]. by split. Qed.

Lemma round_inv_setSelected (s : State) (i : nat) (qq : UIQuestion) :
  q s = Some qq -> (i < length (choices qq))%nat -> checked s = false ->
  round_inv s -> round_inv (setSelected i s).
Proof.
  intros Hq Hi Hch [H1 H2 H3 H4 H5 H6 H7 H8].
  split; cbn [setSelected questions index answers selected checked explanations result];
    try done.
  intros v [= <-]. exists qq. split; [exact Hq|lia].
Qed.

Lemma round_inv_no_result (s : State) (qq : UIQuestion) :
  round_inv s -> q s = Some qq -> result s = None.
Proof.
  intros Hinv Hq. destruct (result s) as [r|] eqn:Hr; [|done].
  destruct (proj1 (inv_result s Hinv)) as [_ Hidx]; [by eexists|].
  unfold q in Hq. apply lookup_lt_Some in Hq. lia.
Qed.

Lemma round_inv_onCheck (s : State) :
  checked s = false -> round_inv s -> round_inv (onCheck s).
Proof.
  intros Hch Hinv. unfold onCheck.
  destruct (selected s) as [v|] eqn:Hsel; [|exact Hinv].
  destruct (q s) as [qq|] eqn:Hq; [|exact Hinv].
  destruct (pressLock s); [exact Hinv|].
  pose proof (round_inv_no_result s qq Hinv Hq) as Hnone.
  destruct Hinv as [H1 H2 H3 H4 H5 H6 H7 H8].
  split; cbn [questions index answers selected checked explanations result]; try done.
  - intros v0 [= <-]. exact (H4 v Hsel).
  - unfold checked_count. cbn [questions index checked].
    rewrite Nat.add_1_r. unfold q in Hq.
    rewrite (take_S_r _ _ _ Hq), omap_app.
    replace (omap shown_explanation (take (index s) (questions s)))
      with (explanations s)
      by (rewrite H6; unfold checked_count; rewrite Hch, Nat.add_0_r; reflexivity).
    cbn [omap list_omap]. unfold shown_explanation.
    destruct (explanation qq) as [e|]; [destruct (blank e)|];
      by rewrite ?app_nil_r.
  - rewrite Hnone. discriminate.
Qed.

Lemma round_inv_onNextOrSubmit (s : State) :
  checked s = true -> round_inv s -> round_inv (onNextOrSubmit s).
Proof.
  intros Hch Hinv. unfold onNextOrSubmit.
  destruct (pressLock s); [exact Hinv|].
  destruct (inv_checked s Hinv Hch) as [v Hsel].
  destruct (inv_selected s Hinv v Hsel) as (qq & Hq & Hv).
  pose proof (round_inv_no_result s qq Hinv Hq) as Hnone.
  rewrite Hsel, Hq.
  destruct Hinv as [H1 H2 H3 H4 H5 H6 H7 H8].
  assert (Hlt : (index s < length (questions s))%nat).
  { unfold q in Hq. by apply lookup_lt_Some in Hq. }
  assert (Hassign : JS.assign (answers s) (index s) v = answers s ++ [Some v]).
  { rewrite <- H2 at 1. apply assign_at_end. }
  assert (Hans : forall i qq', questions s !! i = Some qq' -> (i < S (index s))%nat ->
            exists v', (answers s ++ [Some v]) !! i = Some (Some v')
                       /\ 0 <= v' < Z.of_nat (length (choices qq'))).
  { intros i qq' Hqq' Hi. destruct (decide (i = index s)) as [->|Hne].
    - exists v. unfold q in Hq. rewrite Hq in Hqq'. injection Hqq' as <-.
      split; [|exact Hv].
      rewrite lookup_app_r by lia. by rewrite H2, Nat.sub_diag.
    - destruct (H3 i qq' Hqq') as (v' & Hv' & Hb); [lia|].
      exists v'. split; [|exact Hb]. rewrite lookup_app_l by lia. exact Hv'. }
  assert (Hexp : explanations s
                 = omap shown_explanation (take (S (index s) + 0) (questions s))).
  { rewrite H6. unfold checked_count. rewrite Hch. do 2 f_equal. lia. }
  destruct (isLast s) eqn:Hlast.
  - unfold isLast in Hlast. apply Z.eqb_eq in Hlast.
    split; cbn [questions index answers selected checked explanations result];
      rewrite ?Hassign; try done.
    + rewrite length_app, H2. simpl. lia.
    + split; [intros _; lia|intros _; by eexists].
    + intros r [= <-]. by repeat split.
  - unfold isLast in Hlast. apply Z.eqb_neq in Hlast.
    split; cbn [questions index answers selected checked explanations result];
      rewrite ?Hassign; try done.
    + rewrite length_app, H2. simpl. lia.
    + rewrite Hnone. split; [intros [r Hr]; discriminate Hr|intros [_ Hidx]; lia].
Qed.

Lemma round_inv_step (s : State) (e : Event) : round_inv s -> round_inv (step s e).
Proof.
  intros Hinv. destruct e as [i| | | |qs]; cbn [step].
  - destruct (result_view s); [exact Hinv|].
    destruct (q s) as [qq|] eqn:Hq; [|exact Hinv].
    destruct (bool_decide (i < length (choices qq))%nat) eqn:Hi; [|exact Hinv].
    destruct (checked s) eqn:Hch; [exact Hinv|]. cbn [negb andb].
    apply bool_decide_eq_true in Hi. by eapply round_inv_setSelected.
  - destruct (result_view s); [exact Hinv|].
    destruct (checked s) eqn:Hch; [exact Hinv|]. cbn [orb].
    destruct (selected s); [|exact Hinv]. by apply round_inv_onCheck.
  - destruct (result_view s); [exact Hinv|].
    destruct (checked s) eqn:Hch; [|exact Hinv]. cbn [orb negb].
    by apply round_inv_onNextOrSubmit.
  - by apply round_inv_unlock.
  - destruct (result_view s); [apply round_inv_load|exact Hinv].
Qed.

Lemma round_inv_run (s : State) (es : list Event) : round_inv s -> round_inv (run s es).
Proof.
  revert s. induction es as [|e es IH]; intros s Hs; [exact Hs|].
  simpl. apply IH. by apply round_inv_step.
Qed.

Lemma js_round_percent (i n : Z) :
  0 <= i <= n -> 0 < n ->
  0 <= js_round (inject_Z i / inject_Z n * 100) <= 100
  /\ (i = n -> js_round (inject_Z i / inject_Z n * 100) = 100).
Proof.
  intros Hi Hn. unfold js_round.
  destruct (ratio_in_unit i n Hi Hn) as [H0 H1].
  set (x := (inject_Z i / inject_Z n)%Q) in *.
  split; [split|].
  - assert (H : Qfloor 0 <= Qfloor (x * 100 + (1 # 2)))
      by (apply Qfloor_resp_le; lra).
    exact H.
  - assert (H : Qfloor (x * 100 + (1 # 2)) <= Qfloor (100 + (1 # 2)))
      by (apply Qfloor_resp_le; lra).
    exact H.
  - intros ->. subst x.
    assert (H : (inject_Z n / inject_Z n == 1)%Q).
    { apply Qmult_inv_r. change 0%Q with (inject_Z 0). rewrite inject_Z_injective. lia. }
    rewrite H. reflexivity.
Qed.

(** X1.  In every state the local quiz can reach, the answers array has
    one entry per question already passed and no hole: entry [i] is the
    index of one of the choices of question [i]. *)
Theorem quiz_answers_one_per_question_passed
    (qs : list UIQuestion) (es : list Event) :
  let s := run (load qs initial) es in
  length (answers s) = index s
  /\ (index s <= length (questions s))%nat
  /\ forall i qq, questions s !! i = Some qq -> (i < index s)%nat ->
       exists v, answers s !! i = Some (Some v)
                 /\ 0 <= v < Z.of_nat (length (choices qq)).
Proof.
  intros s.
  pose proof (round_inv_run _ es (round_inv_load qs initial)) as Hinv.
  fold s in Hinv.
  split; [apply (inv_answers_length s Hinv)|].
  split; [apply (inv_index s Hinv)|apply (inv_answers s Hinv)].
Qed.

(** X2.  A result is stored, and the result view shown, exactly when the
    round has at least one question and all of them have been passed; the
    progress bar stays between 0 and 100 percent and stands at 100 once
    the result is there. *)
Theorem quiz_result_exactly_after_last_question
    (qs : list UIQuestion) (es : list Event) :
  let s := run (load qs initial) es in
  (is_Some (result s)
   <-> (0 < length (questions s))%nat /\ index s = length (questions s))
  /\ (result_view s = true <-> is_Some (result s))
  /\ 0 <= progressPct s <= 100
  /\ (is_Some (result s) -> progressPct s = 100).
Proof.
  intros s.
  pose proof (round_inv_run _ es (round_inv_load qs initial)) as Hinv.
  fold s in Hinv.
  pose proof (inv_result s Hinv) as Hres.
  pose proof (inv_index s Hinv) as Hidx.
  split; [exact Hres|]. split.
  { unfold result_view, done. rewrite andb_true_iff, bool_decide_eq_true, Nat.leb_le.
    split; [by intros [_ ?]|]. intros H. split; [|exact H].
    apply Hres in H. lia. }
  unfold progressPct.
  destruct (Nat.eqb_spec (length (questions s)) 0) as [H0|Hne].
  - split; [lia|]. intros H. apply Hres in H. lia.
  - destruct (js_round_percent (Z.of_nat (index s)) (Z.of_nat (length (questions s))))
      as [Hb H100]; [lia|lia|].
    split; [exact Hb|]. intros H. apply Hres in H. apply H100. lia.
Qed.

(** X3.  The explanations collected so far are, in order, the non-blank
    explanations of the questions checked so far, and a stored result
    carries exactly that list. *)
Theorem quiz_explanations_follow_questions
    (qs : list UIQuestion) (es : list Event) :
  let s := run (load qs initial) es in
  explanations s
  = omap shown_explanation (take (checked_count s) (questions s))
  /\ forall r, result s = Some r ->
       res_explanations r = omap shown_explanation (questions s).
Proof.
  intros s.
  pose proof (round_inv_run _ es (round_inv_load qs initial)) as Hinv.
  fold s in Hinv.
  split; [apply (inv_explanations s Hinv)|].
  intros r Hr.
  destruct (inv_result_value s Hinv r Hr) as (_ & _ & ->).
  rewrite (inv_explanations s Hinv).
  destruct (proj1 (inv_result s Hinv)) as [_ Hidx]; [by eexists|].
  unfold checked_count. rewrite Hidx. by rewrite take_ge by lia.
Qed.

Lemma Qfloor_one_plus_ten_ratio (a : Q) (sc t : Z) :
  0 < t -> (a == inject_Z sc / inject_Z t)%Q ->
  Qfloor (1 + a * 10) = 1 + (10 * sc) / t.
Proof.
  intros Ht Ha. destruct t as [|p|p]; [lia| |lia].
  assert (H : (1 + a * 10 == (Z.pos p + 10 * sc) # p)%Q).
  { rewrite Ha, (Qmake_Qdiv (Z.pos p + 10 * sc) p), inject_Z_plus, inject_Z_mult.
    field. change 0%Q with (inject_Z 0). rewrite inject_Z_injective. lia. }
  rewrite H. unfold Qfloor.
  rewrite <- (Z.mul_1_l (Z.pos p)) at 1. rewrite Z.div_add_l by lia. reflexivity.
Qed.

(** X4.  The level and the demo streak of a finished round: the level is
    [1 + floor(10 * score / total)], between 1 and 11, and 11 exactly for a
    perfect round; the streak is 3 exactly when at least 60 percent of the
    answers are correct, and 0 otherwise. *)
Theorem quiz_level_and_streak
    (qs : list UIQuestion) (es : list Event) (r : SubmitResult) :
  result (run (load qs initial) es) = Some r ->
  level r = 1 + (10 * score r) / total r
  /\ 1 <= level r <= 11
  /\ (level r = 11 <-> score r = total r)
  /\ (streak r = 3 <-> 3 * total r <= 5 * score r)
  /\ (streak r = 3 \/ streak r = 0).
Proof.
  intros Hr.
  pose proof (round_inv_run _ es (round_inv_load qs initial)) as Hinv.
  destruct (inv_result_value _ Hinv r Hr) as (Hlevel & Hstreak & _).
  destruct (quiz_inv_run _ es (quiz_inv_load qs initial)) as [_ Hq].
  destruct (Hq r Hr) as [_ Hsc].
  pose proof (scored_score _ _ _ Hsc) as Hscore.
  pose proof (scored_total _ _ _ Hsc) as Htot.
  pose proof (scored_pos _ _ _ Hsc) as Hpos.
  pose proof (scored_accuracy _ _ _ Hsc) as Hacc.
  pose proof (num_correct_le
                (questions (run (load qs initial) es))
                (answers (run (load qs initial) es))) as Hle.
  assert (Hb : 0 <= score r <= total r) by lia.
  rewrite (Qfloor_one_plus_ten_ratio _ _ _ Hpos Hacc) in Hlevel.
  assert (Hdiv : 0 <= (10 * score r) / total r <= 10).
  { split; [apply Z.div_pos; lia|].
    apply Z.div_le_upper_bound; lia. }
  assert (Hlev : level r = 1 + (10 * score r) / total r) by lia.
  split; [exact Hlev|]. split; [lia|]. split.
  { rewrite Hlev. split.
    - intros H. assert (H10 : 10 <= (10 * score r) / total r) by lia.
      assert (10 * total r <= 10 * score r); [|lia].
      etransitivity; [|apply (Z.mul_div_le (10 * score r) (total r)); lia].
      rewrite (Z.mul_comm (total r)). apply Z.mul_le_mono_nonneg_r; lia.
    - intros ->. rewrite Z.div_mul by lia. reflexivity. }
  assert (Hq6 : Qle_bool (6 # 10) (accuracy r) = true <-> 3 * total r <= 5 * score r).
  { rewrite Qle_bool_iff, Hacc.
    destruct (total r) as [|p|p] eqn:Hp; [lia| |lia].
    rewrite <- (Qmake_Qdiv (score r) p). unfold Qle. simpl. lia. }
  rewrite Hstreak. destruct (Qle_bool (6 # 10) (accuracy r)).
  - split; [|by left]. split; [intros _; by apply Hq6|done].
  - split; [|by right]. split; [discriminate|].
    intros H. apply Hq6 in H. discriminate H.
Qed.

Lemma passive_step_index (i : nat) (s : State) (e : Event) :
  passive e = true ->
  index s = i \/ (index s = S i /\ checked s = false) ->
  index (step s e) = i \/ (index (step s e) = S i /\ checked (step s e) = false).
Proof.
  intros He Hs. destruct e as [k| | | |qs]; try discriminate He; cbn [step].
  - destruct (result_view s); [exact Hs|].
    destruct (q s) as [qq|]; [|exact Hs].
    destruct (bool_decide (k < length (choices qq))%nat && negb (checked s)); exact Hs.
  - destruct (result_view s || negb (checked s)) eqn:Hg; [exact Hs|].
    apply orb_false_iff in Hg as [_ Hch]. apply negb_false_iff in Hch.
    destruct Hs as [Hi|[_ Hc]]; [|congruence].
    unfold onNextOrSubmit. destruct (pressLock s); [by left|].
    destruct (isLast s); [destruct (q s)|]; cbn [index checked];
      [right|left|right]; rewrite ?Hi; done.
  - exact Hs.
Qed.

Lemma passive_run_index (i : nat) (es : list Event) (s : State) :
  Forall (fun e => passive e = true) es ->
  index s = i \/ (index s = S i /\ checked s = false) ->
  index (run s es) = i \/ (index (run s es) = S i /\ checked (run s es) = false).
Proof.
  intros Hes. revert s. induction Hes as [|e es He Hes IH]; intros s Hs; [exact Hs|].
  cbn [run foldl]. apply IH. by apply passive_step_index.
Qed.

(** X5.  Next never skips a question: however often Next is pressed, and
    whatever the press-lock timer and the choice buttons do in between,
    the quiz advances by at most one question until an answer is checked
    again. *)
Theorem quiz_next_advances_once_per_check (s : State) (es : list Event) :
  Forall (fun e => passive e = true) es ->
  (index s <= index (run s es) <= S (index s))%nat.
Proof.
  intros Hes.
  destruct (passive_run_index (index s) es s Hes) as [H|[H _]]; [by left| |]; lia.
Qed.



End QuizRound.

Lemma quiz_next_advances_once_per_check_witness :
  TriviaTest.index Samples.first_checked = 0%nat
  /\ TriviaTest.index
       (TriviaTest.run Samples.first_checked
          [TriviaTest.PressNext; TriviaTest.LockTimer; TriviaTest.PressNext;
           TriviaTest.PressOption 2; TriviaTest.PressNext]) = 1%nat.
Proof.
  split; [reflexivity|].
  pose proof (quiz_next_advances_once_per_check Samples.first_checked
                [TriviaTest.PressNext; TriviaTest.LockTimer; TriviaTest.PressNext;
                 TriviaTest.PressOption 2; TriviaTest.PressNext]) as H.
  destruct H as [_ H]; [repeat constructor|]. reflexivity.
Defined.

Lemma quiz_level_and_streak_witness :
  TriviaTest.level Samples.perfect_result = 11
  /\ TriviaTest.streak Samples.perfect_result = 3.
Proof.
  destruct (quiz_level_and_streak Samples.five_questions Samples.perfect_presses
              Samples.perfect_result eq_refl) as (_ & _ & Hl & Hs & _).
  split; [by apply Hl|apply Hs; simpl; lia].
Defined.

(** ** Rank and level *)




(** ** Server-backed quiz: answering in order *)

Section ServedQuiz.

Import Trivia.

Local Ltac no_feedback := intros [? ?]; discriminate.

Lemma quiz_shown_facts (s : State) :
  quiz_shown s = true ->
  loading s = false /\ lowDataMessage s = None /\ finalResults s = None.
Proof.
  unfold quiz_shown, view.
  destruct (loading s); [discriminate|].
  destruct (error s) as [e|], (st_questions s !! currentIndex s),
    (lowDataMessage s), (finalResults s); try discriminate; done.
Qed.

(** With a current question, no low-data card and no results, the quiz
    view is rendered whatever the error is. *)
Lemma quiz_shown_with_question (s : State) (qq : Question) :
  loading s = false -> lowDataMessage s = None -> finalResults s = None ->
  st_questions s !! currentIndex s = Some qq -> quiz_shown s = true.
Proof.
  intros Hl Hlow Hfin Hq. unfold quiz_shown, view. rewrite Hl, Hlow, Hfin, Hq.
  by destruct (error s).
Qed.

Lemma loadQuiz_cases (o : Outcome) (s : State) :
  if loads o
  then exists q0 qs d, loadQuiz o s = settle s (q0 :: qs) d None None (refreshes s)
  else exists err low r,
         loadQuiz o s = settle s (st_questions s) (st_difficulty s) err low r.
Proof.
  unfold loads, loadQuiz, fail_with. destruct o as [res|m]; [|by eexists _, _, _].
  destruct (ok res); cbn [negb andb]; [|by eexists _, _, _].
  destruct (can_play res); cbn [negb andb].
  - destruct (questions res) as [[|q0 qs]|]; by eexists _, _, _.
  - destruct (JS.truthy_bool (insufficient_data res) && JS.truthy_str (message res));
      by eexists _, _, _.
Qed.

Lemma passes_snoc (n : nat) (ids : list string) :
  passes n ids ++ ids = passes (S n) ids.
Proof.
  unfold passes. induction n as [|n IH]; cbn [replicate concat].
  - by rewrite app_nil_r.
  - by rewrite <- app_assoc, IH.
Qed.

Lemma served_inv_initial : quiz_inv initial [].
Proof.
  split.
  - by left.
  - cbn. no_feedback.
  - reflexivity.
  - by exists 0%nat.
  - intros _. by left.
Qed.

Lemma served_inv_loadQuiz (o : Outcome) (s : State) (acc : list string) :
  quiz_shown s = false ->
  quiz_inv s acc -> quiz_inv (loadQuiz o s) (if loads o then [] else acc).
Proof.
  intros Hout [Hi Hf Hs [n Ha] Ho].
  pose proof (loadQuiz_cases o s) as Hcases. destruct (loads o).
  - destruct Hcases as (q0 & qs & d & ->). split.
    + right. cbn. lia.
    + cbn. no_feedback.
    + exact Hs.
    + by exists 0%nat.
    + intros _. by left.
  - destruct Hcases as (err & low & r & ->). split.
    + cbn. destruct Hi as [->|Hi]; [by left|right; lia].
    + cbn. no_feedback.
    + exact Hs.
    + unfold answered_count. cbn.
      destruct (Ho Hout) as [Hz|Hall]; rewrite Ha.
      * exists n. by rewrite Hz.
      * exists (S n). rewrite Hall, firstn_all, passes_snoc. by rewrite app_nil_r.
    + intros _. by left.
Qed.

Lemma served_inv_step (s : State) (e : Event) (acc : list string) :
  quiz_inv s acc -> quiz_inv (step s e) (accepts s e acc).
Proof.
  intros Hinv. pose proof Hinv as [Hi Hf Hs [n Ha] Ho].
  destruct e as [i|o|o|o]; cbn [step accepts].
  - destruct (currentQuestion s) as [qq|] eqn:Hq; [|exact Hinv].
    destruct (feedbackState s) eqn:Hfb; [exact Hinv|].
    destruct (quiz_shown s) eqn:Hshown; cbn [andb]; [|exact Hinv].
    case_bool_decide; [|exact Hinv].
    split.
    + exact Hi.
    + cbn. rewrite Hfb. no_feedback.
    + exact Hs.
    + exists n. rewrite Ha. unfold answered_count. cbn. by rewrite Hfb.
    + intros Hout. change (quiz_shown s = false) in Hout. congruence.
  - cbn [requests].
    destruct (feedbackState s) as [fb|] eqn:Hfb.
    { destruct o; exact Hinv. }
    destruct (selectedIndex s) as [k|] eqn:Hsel.
    2:{ destruct o; exact Hinv. }
    destruct (quiz_shown s) eqn:Hshown; cbn [andb].
    2:{ destruct (currentQuestion s); destruct o; exact Hinv. }
    destruct (negb (submitting s)).
    2:{ destruct (currentQuestion s); destruct o; exact Hinv. }
    unfold handleSubmitAnswer. rewrite Hsel, Hfb.
    destruct (currentQuestion s) as [qq|] eqn:Hq.
    2:{ destruct o; exact Hinv. }
    destruct (quiz_shown_facts s Hshown) as (Hl & Hlow & Hfin).
    assert (Hview : forall err fb', quiz_shown (with_answer s err fb') = true).
    { intros err fb'. by apply (quiz_shown_with_question _ qq). }
    assert (Hsame : forall err, quiz_inv (with_answer s err None) acc).
    { intros err. split.
      - exact Hi.
      - cbn. no_feedback.
      - reflexivity.
      - exists n. rewrite Ha. unfold answered_count. cbn. by rewrite Hfb.
      - intros Hout. by rewrite (Hview err None) in Hout. }
    destruct o as [res|m]; [|apply Hsame].
    destruct (ar_ok res); cbn [negb]; [|apply Hsame].
    split.
    + exact Hi.
    + intros _. unfold currentQuestion in *. cbn. by rewrite Hq.
    + reflexivity.
    + exists n. unfold answered_count in *. cbn. rewrite Hfb in Ha.
      rewrite Nat.add_0_r in Ha. rewrite Nat.add_1_r.
      unfold currentQuestion in Hq.
      change (map id (take (S (currentIndex s)) (st_questions s)))
        with (id <$> take (S (currentIndex s)) (st_questions s)).
      rewrite (take_S_r _ _ _ Hq), fmap_app, Ha. by rewrite app_assoc.
    + intros Hout. by rewrite Hview in Hout.
  - unfold handleNext.
    destruct (feedbackState s) as [fb|] eqn:Hfb; [|exact Hinv].
    destruct (quiz_shown s) eqn:Hshown; cbn [andb]; [|exact Hinv].
    destruct (negb (submitting s)); [|exact Hinv].
    destruct (quiz_shown_facts s Hshown) as (Hl & Hlow & Hfin).
    destruct (Hf ltac:(by eexists)) as [qq Hq]. unfold currentQuestion in Hq.
    pose proof (lookup_lt_Some _ _ _ Hq) as Hlt.
    destruct (isLastQuestion s) eqn:Hlast.
    + unfold isLastQuestion in Hlast. apply Z.eqb_eq in Hlast.
      assert (Hsame : forall err fin r,
                quiz_inv {| st_questions := st_questions s;
                            currentIndex := currentIndex s;
                            st_difficulty := st_difficulty s;
                            selectedIndex := selectedIndex s;
                            feedbackState := Some fb;
                            loading := loading s; submitting := false; error := err;
                            finalResults := fin; lowDataMessage := lowDataMessage s;
                            refreshes := r |} acc).
      { intros err fin r. split.
        - exact Hi.
        - intros _. unfold currentQuestion. cbn. by eexists.
        - reflexivity.
        - exists n. rewrite Ha. unfold answered_count. cbn. by rewrite Hfb.
        - intros _. right. unfold answered_count. cbn. lia. }
      destruct o as [res|m]; [destruct (cr_ok res)|]; cbn [negb]; apply Hsame.
    + unfold isLastQuestion in Hlast. apply Z.eqb_neq in Hlast.
      destruct (lookup_lt_is_Some_2 (st_questions s) (S (currentIndex s)) ltac:(lia))
        as [q' Hq'].
      split.
      * right. cbn. lia.
      * cbn. no_feedback.
      * exact Hs.
      * exists n. unfold answered_count in *. cbn. rewrite Hfb in Ha. rewrite Ha.
        do 3 f_equal. lia.
      * intros Hout. rewrite (quiz_shown_with_question _ q') in Hout; done.
  - destruct (quiz_shown s) eqn:Hshown; [exact Hinv|].
    by apply served_inv_loadQuiz.
Qed.

Lemma served_inv_run (es : list Event) (s : State) (acc : list string) :
  quiz_inv s acc -> quiz_inv (run s es) (accepted s acc es).
Proof.
  revert s acc. induction es as [|e es IH]; intros s acc Hs; [exact Hs|].
  cbn [run foldl accepted]. apply IH. by apply served_inv_step.
Qed.

Lemma screen_inv_initial : screen_inv initial.
Proof.
  split; cbn.
  - intros _. by left.
  - intros i Hi. discriminate.
  - no_feedback.
Qed.

Lemma screen_inv_loadQuiz (o : Outcome) (s : State) : screen_inv (loadQuiz o s).
Proof.
  assert (Herr : forall m d r, d <> EmptyString ->
            screen_inv (settle s (st_questions s) (st_difficulty s)
                          (Some (JS.or_str m d)) None r)).
  { intros m d r Hd. split; cbn.
    - intros _. right. left. by apply (or_str_truthy m d).
    - intros i Hi. discriminate.
    - no_feedback. }
  unfold loadQuiz, fail_with. destruct o as [res|m]; [|by apply Herr].
  destruct (ok res); cbn [negb]; [|by apply (Herr None)].
  destruct (can_play res); cbn [negb].
  - destruct (questions res) as [[|q0 qs]|]; try (by apply (Herr None)).
    split; cbn.
    + discriminate.
    + intros i Hi. discriminate.
    + no_feedback.
  - destruct (JS.truthy_bool (insufficient_data res) && JS.truthy_str (message res));
      [|by apply Herr].
    split; cbn.
    + intros _. right. right. by eexists.
    + intros i Hi. discriminate.
    + no_feedback.
Qed.

Lemma screen_inv_step (s : State) (e : Event) (acc : list string) :
  quiz_inv s acc -> screen_inv s -> screen_inv (step s e).
Proof.
  intros [Hi Hf Hs Ha Ho] Hscr. pose proof Hscr as [He Hsel Hfin].
  destruct e as [i|o|o|o]; cbn [step].
  - destruct (currentQuestion s) as [qq|] eqn:Hq; [|exact Hscr].
    destruct (feedbackState s) eqn:Hfb; [exact Hscr|].
    destruct (quiz_shown s) eqn:Hshown; cbn [andb]; [|exact Hscr].
    case_bool_decide as Hlt; [|exact Hscr].
    destruct (quiz_shown_facts s Hshown) as (Hl & Hlow & Hnone).
    split; cbn.
    + exact He.
    + intros j [= <-]. exists qq. split; [exact Hq|lia].
    + rewrite Hnone. no_feedback.
  - destruct (feedbackState s) as [fb|] eqn:Hfb; [exact Hscr|].
    destruct (selectedIndex s) as [k|] eqn:Hk; [|exact Hscr].
    destruct (quiz_shown s) eqn:Hshown; cbn [andb]; [|exact Hscr].
    destruct (negb (submitting s)); [|exact Hscr].
    destruct (quiz_shown_facts s Hshown) as (Hl & Hlow & Hnone).
    unfold handleSubmitAnswer. rewrite Hk, Hfb.
    destruct (currentQuestion s) as [qq|] eqn:Hq; [|exact Hscr].
    assert (Hany : forall err fb', screen_inv (with_answer s err fb')).
    { intros err fb'. split; cbn.
      - intros Hnil. unfold currentQuestion in Hq. by rewrite Hnil in Hq.
      - intros j Hj. rewrite Hk in Hj. injection Hj as <-.
        destruct (Hsel k eq_refl) as (q' & [= <-] & Hr). exists qq. split; [|exact Hr].
        exact Hq.
      - rewrite Hnone. no_feedback. }
    destruct o as [res|m]; [destruct (negb (ar_ok res))|]; apply Hany.
  - destruct (feedbackState s) as [fb|] eqn:Hfb; [|exact Hscr].
    destruct (quiz_shown s) eqn:Hshown; cbn [andb]; [|exact Hscr].
    destruct (negb (submitting s)); [|exact Hscr].
    destruct (quiz_shown_facts s Hshown) as (Hl & Hlow & Hnone).
    destruct (Hf ltac:(by eexists)) as [qq Hq].
    unfold handleNext. rewrite Hfb.
    destruct (isLastQuestion s) eqn:Hlast.
    + assert (Hany : forall err fin r,
                screen_inv {| st_questions := st_questions s;
                              currentIndex := currentIndex s;
                              st_difficulty := st_difficulty s;
                              selectedIndex := selectedIndex s;
                              feedbackState := Some fb;
                              loading := loading s; submitting := false; error := err;
                              finalResults := fin; lowDataMessage := lowDataMessage s;
                              refreshes := r |}).
      { intros err fin r. split; cbn.
        - intros Hnil. unfold currentQuestion in Hq. by rewrite Hnil in Hq.
        - exact Hsel.
        - intros _. repeat split; done. }
      destruct o as [res|m]; [destruct (negb (cr_ok res))|]; apply Hany.
    + split; cbn.
      * intros Hnil. unfold currentQuestion in Hq. by rewrite Hnil in Hq.
      * intros j Hj. discriminate.
      * rewrite Hnone. no_feedback.
  - destruct (quiz_shown s); [exact Hscr|]. apply screen_inv_loadQuiz.
Qed.

Lemma served_run_inv (es : list Event) (s : State) (acc : list string) :
  quiz_inv s acc -> screen_inv s ->
  quiz_inv (run s es) (accepted s acc es) /\ screen_inv (run s es).
Proof.
  revert s acc. induction es as [|e es IH]; intros s acc Hq Hs; [done|].
  cbn [run foldl accepted]. apply IH.
  - by apply served_inv_step.
  - by eapply screen_inv_step.
Qed.

Lemma served_reachable_inv (es : list Event) :
  quiz_inv (run initial es) (accepted initial [] es) /\ screen_inv (run initial es).
Proof. apply served_run_inv; [apply served_inv_initial|apply screen_inv_initial]. Qed.

End ServedQuiz.

(** X6.  Server-backed quiz, in every state reachable from the initial
    one by choice presses, answer checks, next presses and reloads, with
    any server replies: the current index lies within the loaded
    questions whenever there are any; the quiz view is only rendered
    with a current question to show, and feedback only exists for one;
    the progress bar stays within 0..100 and is positive once questions
    are loaded. *)
Theorem served_quiz_always_has_its_question (es : list Trivia.Event) :
  let s := Trivia.run Trivia.initial es in
  (Trivia.st_questions s = []
   \/ (Trivia.currentIndex s < length (Trivia.st_questions s))%nat)
  /\ (Trivia.quiz_shown s = true -> is_Some (Trivia.currentQuestion s))
  /\ (is_Some (Trivia.feedbackState s) -> is_Some (Trivia.currentQuestion s))
  /\ (0 <= Trivia.progress s <= 100)%Q
  /\ (Trivia.st_questions s <> [] -> 0 < Trivia.progress s)%Q.
Proof.
  intros s. destruct (served_reachable_inv es) as [[Hi Hf Hs _ _] [He Hsel Hfin]].
  fold s in Hi, Hf, Hs, He, Hsel, Hfin.
  split; [exact Hi|]. split; [|split; [exact Hf|]].
  - intros Hshown. destruct Hi as [Hnil|Hlt].
    + exfalso. destruct (quiz_shown_facts s Hshown) as (Hl & Hlow & Hnone).
      unfold Trivia.quiz_shown, Trivia.view in Hshown.
      rewrite Hl, Hlow, Hnone, Hnil in Hshown. cbn in Hshown.
      destruct (He Hnil) as [Hload|[Herr|[low Hsome]]].
      * congruence.
      * destruct (Trivia.error s) as [e|]; [|discriminate]. cbn in Herr.
        destruct (String.eqb e EmptyString); discriminate.
      * congruence.
    + by apply lookup_lt_is_Some_2.
  - unfold Trivia.progress.
    destruct (Nat.eqb_spec (length (Trivia.st_questions s)) 0) as [Hz|Hnz].
    + split; [split; [lra|lra]|]. intros Hne. destruct (Trivia.st_questions s); done.
    + destruct Hi as [Hnil|Hlt]; [rewrite Hnil in Hnz; done|].
      set (a := Z.of_nat (Trivia.currentIndex s) + 1).
      set (b := Z.of_nat (length (Trivia.st_questions s))).
      assert (Hb : (0 < inject_Z b)%Q).
      { change 0%Q with (inject_Z 0). rewrite <- Zlt_Qlt. lia. }
      assert (Hlo : (0 < inject_Z a / inject_Z b)%Q).
      { apply Qlt_shift_div_l; [exact Hb|]. rewrite Qmult_0_l.
        change 0%Q with (inject_Z 0). rewrite <- Zlt_Qlt. lia. }
      assert (Hhi : (inject_Z a / inject_Z b <= 1)%Q).
      { apply Qle_shift_div_r; [exact Hb|]. rewrite Qmult_1_l, <- Zle_Qle. lia. }
      set (x := (inject_Z a / inject_Z b)%Q) in *.
      split; [split; lra|]. intros _. lra.
Qed.

Lemma elem_of_passes (n : nat) (ids : list string) (k : string) :
  k ∈ ids -> (k ∈ Trivia.passes n ids <-> n <> 0%nat).
Proof.
  intros Hk. unfold Trivia.passes. destruct n as [|n]; cbn [replicate concat].
  - split; [intros H; by apply elem_of_nil in H|done].
  - split; [done|]. intros _. apply elem_of_app. by left.
Qed.

(** X7.  Server-backed quiz: whenever a press of Check Answer sends an
    answer request, the request names the current question and a
    selected index that is one of its choices, and the answers accepted
    since the questions were loaded are complete passes over them
    followed by the answers of the questions before the current one, in
    order; with distinct question ids, the current question has been
    answered before exactly when such an earlier pass exists, that is,
    when the same questions are gone through again after a reload that
    did not replace them. *)
Theorem served_answer_is_for_the_current_question (es : list Trivia.Event)
    (e : Trivia.Event) (k : string) (i : Z) :
  Trivia.Answer k i ∈ Trivia.requests (Trivia.run Trivia.initial es) e ->
  let s := Trivia.run Trivia.initial es in
  let ids := map Trivia.id (Trivia.st_questions s) in
  exists qq n,
    Trivia.currentQuestion s = Some qq /\ k = Trivia.id qq
    /\ 0 <= i < Z.of_nat (length (Trivia.choices qq))
    /\ Trivia.accepted Trivia.initial [] es
       = Trivia.passes n ids ++ take (Trivia.currentIndex s) ids
    /\ (NoDup ids -> (k ∈ Trivia.accepted Trivia.initial [] es <-> n <> 0%nat)).
Proof.
  intros Hreq s ids.
  destruct (served_reachable_inv es) as [[Hi Hf Hs [n Ha] Ho] [He Hsel Hfin]].
  fold s in Hreq, Hi, Hf, Hs, Ha, Ho, He, Hsel, Hfin.
  destruct e as [j|o|o|o]; cbn [Trivia.requests] in Hreq.
  - by apply elem_of_nil in Hreq.
  - destruct (Trivia.feedbackState s) eqn:Hfb; [by apply elem_of_nil in Hreq|].
    destruct (Trivia.selectedIndex s) as [i'|] eqn:Hi';
      [|by apply elem_of_nil in Hreq].
    destruct (Trivia.currentQuestion s) as [qq|] eqn:Hq;
      [|by apply elem_of_nil in Hreq].
    destruct (Trivia.quiz_shown s && negb (Trivia.submitting s));
      [|by apply elem_of_nil in Hreq].
    apply list_elem_of_singleton in Hreq. injection Hreq as -> ->.
    destruct (Hsel i' eq_refl) as (q' & Hq' & Hr).
    assert (q' = qq) as -> by congruence.
    assert (Hacc : Trivia.accepted Trivia.initial [] es
                   = Trivia.passes n ids ++ take (Trivia.currentIndex s) ids).
    { rewrite Ha. unfold Trivia.answered_count. rewrite Hfb, Nat.add_0_r.
      subst ids. change (map Trivia.id ?l) with (Trivia.id <$> l).
      by rewrite fmap_take. }
    exists qq, n. split; [reflexivity|]. split; [reflexivity|]. split; [exact Hr|].
    split; [exact Hacc|].
    intros Hnd. unfold Trivia.currentQuestion in Hq.
    assert (Hin : Trivia.id qq ∈ ids).
    { subst ids. apply (list_elem_of_fmap_2 Trivia.id). by eapply list_elem_of_lookup_2. }
    assert (Hnot : Trivia.id qq ∉ take (Trivia.currentIndex s) ids).
    { intros Hpre.
      rewrite <- (take_drop (Trivia.currentIndex s) ids) in Hnd.
      apply NoDup_app in Hnd as (_ & Hdis & _). apply (Hdis _ Hpre).
      apply list_elem_of_lookup_2 with 0%nat. rewrite lookup_drop, Nat.add_0_r.
      subst ids. change (map Trivia.id ?l) with (Trivia.id <$> l).
      by rewrite list_lookup_fmap, Hq. }
    rewrite Hacc, elem_of_app, (elem_of_passes n ids _ Hin). tauto.
  - destruct (Trivia.feedbackState s); [|by apply elem_of_nil in Hreq].
    destruct (Trivia.quiz_shown s && negb (Trivia.submitting s)
              && Trivia.isLastQuestion s).
    + apply list_elem_of_singleton in Hreq. discriminate.
    + by apply elem_of_nil in Hreq.
  - destruct (Trivia.quiz_shown s).
    + by apply elem_of_nil in Hreq.
    + apply list_elem_of_singleton in Hreq. discriminate.
Qed.

(** Evaluated on the replay: every question answered, the quiz
    completed, a reload that fails, and the first choice of the first
    question selected again. *)
Lemma served_answer_is_for_the_current_question_witness :
  exists qq n,
    Trivia.currentQuestion (Trivia.run Trivia.initial Samples.served_replay) = Some qq
    /\ "a" = Trivia.id qq
    /\ Trivia.accepted Trivia.initial [] Samples.served_replay
       = Trivia.passes n ["a"; "b"; "c"] ++ [].
Proof.
  destruct (served_answer_is_for_the_current_question Samples.served_replay
              (Trivia.PressCheckAnswer (Trivia.AnswerThrew None)) "a" 0)
    as (qq & n & Hq & Hk & _ & Hacc & _).
  - vm_compute. apply list_elem_of_here.
  - exists qq, n. split; [exact Hq|]. split; [exact Hk|exact Hacc].
Defined.

(** X8.  Server-backed quiz: whenever a press of Next sends the
    completion request, feedback is showing for the last question and
    the answers accepted since the questions were loaded are complete
    passes over them, at least one: in the pass that ends here every
    question has had exactly one answer accepted, in the order of the
    questions. *)
Theorem served_completion_follows_a_complete_pass (es : list Trivia.Event)
    (e : Trivia.Event) :
  Trivia.Complete ∈ Trivia.requests (Trivia.run Trivia.initial es) e ->
  let s := Trivia.run Trivia.initial es in
  Trivia.st_questions s <> []
  /\ S (Trivia.currentIndex s) = length (Trivia.st_questions s)
  /\ is_Some (Trivia.feedbackState s)
  /\ exists n, Trivia.accepted Trivia.initial [] es
               = Trivia.passes n (map Trivia.id (Trivia.st_questions s))
                 ++ map Trivia.id (Trivia.st_questions s).
Proof.
  intros Hreq s.
  destruct (served_reachable_inv es) as [[Hi Hf Hs [n Ha] Ho] [He Hsel Hfin]].
  fold s in Hreq, Hi, Hf, Hs, Ha, Ho, He, Hsel, Hfin.
  destruct e as [j|o|o|o]; cbn [Trivia.requests] in Hreq.
  - by apply elem_of_nil in Hreq.
  - destruct (Trivia.feedbackState s), (Trivia.selectedIndex s),
      (Trivia.currentQuestion s); try (by apply elem_of_nil in Hreq).
    destruct (Trivia.quiz_shown s && negb (Trivia.submitting s)).
    + apply list_elem_of_singleton in Hreq. discriminate.
    + by apply elem_of_nil in Hreq.
  - destruct (Trivia.feedbackState s) as [fb|] eqn:Hfb; [|by apply elem_of_nil in Hreq].
    destruct (Trivia.isLastQuestion s) eqn:Hlast.
    2:{ rewrite andb_false_r in Hreq. by apply elem_of_nil in Hreq. }
    destruct (Hf ltac:(by eexists)) as [qq Hq]. unfold Trivia.currentQuestion in Hq.
    pose proof (lookup_lt_Some _ _ _ Hq) as Hlt.
    unfold Trivia.isLastQuestion in Hlast. apply Z.eqb_eq in Hlast.
    assert (Hlen : S (Trivia.currentIndex s) = length (Trivia.st_questions s)) by lia.
    split. { intros Hnil. rewrite Hnil in Hlt. cbn in Hlt. lia. }
    split; [exact Hlen|]. split; [by eexists|].
    exists n. rewrite Ha. unfold Trivia.answered_count. rewrite Hfb, Nat.add_1_r, Hlen.
    by rewrite firstn_all.
  - destruct (Trivia.quiz_shown s).
    + by apply elem_of_nil in Hreq.
    + apply list_elem_of_singleton in Hreq. discriminate.
Qed.

Lemma served_completion_follows_a_complete_pass_witness :
  exists n, Trivia.accepted Trivia.initial [] Samples.served_all_answered
            = Trivia.passes n ["a"; "b"; "c"] ++ ["a"; "b"; "c"].
Proof.
  destruct (served_completion_follows_a_complete_pass Samples.served_all_answered
              Samples.served_next) as (_ & _ & _ & H).
  - vm_compute. apply list_elem_of_here.
  - exact H.
Defined.

(** X9.  Server-backed quiz: once results are stored the results view is
    what the screen renders, the answers accepted since the questions
    were loaded are complete passes over them, at least one, so every
    question has had its answer accepted, and choice, check and next
    presses change nothing and send nothing until the quiz is
    reloaded. *)
Theorem served_results_end_the_quiz (es : list Trivia.Event)
    (r : Trivia.CompleteResponse) :
  Trivia.finalResults (Trivia.run Trivia.initial es) = Some r ->
  let s := Trivia.run Trivia.initial es in
  Trivia.view s = Trivia.ResultsView
  /\ (exists n, Trivia.accepted Trivia.initial [] es
                = Trivia.passes n (map Trivia.id (Trivia.st_questions s))
                  ++ map Trivia.id (Trivia.st_questions s))
  /\ (forall q, q ∈ Trivia.st_questions s ->
        Trivia.id q ∈ Trivia.accepted Trivia.initial [] es)
  /\ (forall e, Trivia.in_quiz e = true ->
        Trivia.step s e = s /\ Trivia.requests s e = []).
Proof.
  intros Hr s.
  destruct (served_reachable_inv es) as [[Hi Hf Hs [n Ha] Ho] [He Hsel Hfin]].
  fold s in Hr, Hi, Hf, Hs, Ha, Ho, He, Hsel, Hfin.
  destruct (Hfin ltac:(by eexists)) as (Hl & Hlow & Hfb & Hlast).
  assert (Hview : Trivia.view s = Trivia.ResultsView).
  { unfold Trivia.view. rewrite Hl, Hlow, Hr.
    by destruct (Trivia.error s), (Trivia.st_questions s !! Trivia.currentIndex s). }
  assert (Hshown : Trivia.quiz_shown s = false).
  { unfold Trivia.quiz_shown. by rewrite Hview. }
  assert (Hacc : Trivia.accepted Trivia.initial [] es
                 = Trivia.passes n (map Trivia.id (Trivia.st_questions s))
                   ++ map Trivia.id (Trivia.st_questions s)).
  { destruct (Hf Hfb) as [qq Hq]. unfold Trivia.currentQuestion in Hq.
    pose proof (lookup_lt_Some _ _ _ Hq) as Hlt.
    unfold Trivia.isLastQuestion in Hlast. apply Z.eqb_eq in Hlast.
    destruct Hfb as [fb Hfb].
    rewrite Ha. unfold Trivia.answered_count. rewrite Hfb, Nat.add_1_r.
    replace (S (Trivia.currentIndex s)) with (length (Trivia.st_questions s)) by lia.
    by rewrite firstn_all. }
  split; [exact Hview|]. split; [by exists n|]. split.
  - intros q Hq. rewrite Hacc. apply elem_of_app. right.
    by apply (list_elem_of_fmap_2 Trivia.id).
  - intros e Hin. destruct e as [j|o|o|o]; [| | |discriminate];
      cbn [Trivia.step Trivia.requests]; rewrite Hshown; cbn [andb].
    + by destruct (Trivia.currentQuestion s), (Trivia.feedbackState s).
    + by destruct (Trivia.feedbackState s), (Trivia.selectedIndex s),
        (Trivia.currentQuestion s).
    + by destruct (Trivia.feedbackState s).
Qed.

Lemma served_results_end_the_quiz_witness :
  Trivia.view (Trivia.run Trivia.initial Samples.served_finished) = Trivia.ResultsView.
Proof.
  destruct (served_results_end_the_quiz Samples.served_finished
              Samples.served_completion) as (H & _).
  - vm_compute. reflexivity.
  - exact H.
Defined.

(** ** Category matching: the board as a whole *)

Section MatchingBoard.

Import Connections.

Lemma is_word_toUpperCase (c : ascii) : is_word (toUpperCase c) = is_word c.
Proof. destruct c as [[] [] [] [] [] [] [] []]; reflexivity. Qed.

Lemma toUpperCase_idem (c : ascii) : toUpperCase (toUpperCase c) = toUpperCase c.
Proof. destruct c as [[] [] [] [] [] [] [] []]; reflexivity. Qed.

Lemma capitalize_from_idem (b : bool) (t : string) :
  capitalize_from b (capitalize_from b t) = capitalize_from b t.
Proof.
  revert b. induction t as [|c t IH]; intros b; [reflexivity|].
  cbn [capitalize_from].
  destruct (is_word c && negb b) eqn:Hc.
  - rewrite is_word_toUpperCase, Hc, toUpperCase_idem. by rewrite IH.
  - rewrite Hc. by rewrite IH.
Qed.

Lemma capitalize_from_length (b : bool) (t : string) :
  String.length (capitalize_from b t) = String.length t.
Proof.
  revert b. induction t as [|c t IH]; intros b; [reflexivity|].
  cbn [capitalize_from String.length]. by rewrite IH.
Qed.

Lemma NoDup_imap_inj {A B} (g : nat -> B) (l : list A) :
  (forall i j, g i = g j -> i = j) -> NoDup (imap (fun i _ => g i) l).
Proof.
  revert g. induction l as [|x l IH]; intros g Hg; [constructor|].
  cbn [imap]. constructor.
  - intros Hin. apply elem_of_lookup_imap in Hin as (i & y & Heq & _).
    cbn in Heq. apply Hg in Heq. discriminate.
  - apply (IH (g ∘ S)). intros i j Hij. cbn in Hij. apply Hg in Hij. lia.
Qed.

Lemma slice0_le {A} (a : list A) (n : Z) :
  0 <= n -> (length (JS.slice0 a n) <= Z.to_nat n)%nat.
Proof.
  intros Hn. unfold JS.slice0. destruct (Z.ltb_spec n 0); [lia|].
  rewrite length_take. lia.
Qed.

Lemma slice0_take {A} (a : list A) (n : Z) :
  0 <= n -> JS.slice0 a n = take (Z.to_nat n) a.
Proof.
  intros Hn. unfold JS.slice0. destruct (Z.ltb_spec n 0); [lia|].
  destruct (Z.le_ge_cases n (Z.of_nat (length a))).
  - by rewrite Z.min_l.
  - rewrite Z.min_r, Nat2Z.id by lia. rewrite !firstn_all2; [done|lia|lia].
Qed.

Lemma NoDup_take_of {A} (l : list A) (n : nat) : NoDup l -> NoDup (take n l).
Proof. intros H. exact (sublist_NoDup _ _ H (sublist_take l n)). Qed.

Lemma elem_of_take_of {A} (l : list A) (n : nat) (x : A) : x ∈ take n l -> x ∈ l.
Proof. apply subseteq_take. Qed.

(** X10.  [normalizePlayable]: each column of the board has at most five
    tiles; tiles sent by the server are passed on as they are, cut to
    five; when the reply only names its categories, the category tiles
    built from the names have pairwise distinct ids, keep the name as
    their category and carry it capitalised, with the same length, as
    their label; when the amounts are sent as texts, the amount tiles
    have pairwise distinct ids, the texts as labels, and always a
    value. *)
Theorem normalizePlayable_deals_at_most_five (s : StartResp) :
  let cats := fst (normalizePlayable s) in
  let amts := snd (normalizePlayable s) in
  (length cats <= 5)%nat /\ (length amts <= 5)%nat
  /\ (forall tiles, category_tiles s = Some tiles -> cats = take 5 tiles)
  /\ (category_tiles s = None ->
      NoDup (map cat_id cats)
      /\ Forall (fun c => exists name,
                   category c = Some name
                   /\ cat_label c = capitalize_words name
                   /\ String.length (cat_label c) = String.length name) cats)
  /\ (forall texts, amount_tiles s = Some (map inr texts) ->
      NoDup (map amt_id amts)
      /\ map amt_label amts = take 5 texts
      /\ Forall (fun a => is_Some (value a)) amts).
Proof.
  intros cats amts. subst cats amts. unfold normalizePlayable. cbn [fst snd].
  rewrite !slice0_take by lia. change (Z.to_nat 5) with 5%nat.
  split; [rewrite length_take; lia|]. split; [rewrite length_take; lia|].
  split; [|split].
  - intros tiles Ht. unfold normalize_cats. by rewrite Ht.
  - intros Hnone. unfold normalize_cats. rewrite Hnone. split.
    + change (map cat_id ?l) with (cat_id <$> l). rewrite fmap_take, fmap_imap.
      apply NoDup_take_of.
      apply (NoDup_imap_inj (fun i => "cat_" +:+ pretty i)).
      intros i j Hij. cbn in Hij. injection Hij as Hij. by apply (inj pretty).
    + apply Forall_forall. intros c Hc. apply elem_of_take_of in Hc.
      apply elem_of_lookup_imap in Hc as (i & name & -> & _).
      exists name. cbn. split; [done|]. split; [done|].
      apply capitalize_from_length.
  - intros texts Ht. unfold normalize_amts. rewrite Ht.
    change (map inr texts) with (@inr TileAmount string <$> texts).
    rewrite imap_fmap. split; [|split].
    + change (map amt_id ?l) with (amt_id <$> l). rewrite fmap_take, fmap_imap.
      apply NoDup_take_of.
      apply (NoDup_imap_inj (fun i => "amt_" +:+ pretty i)).
      intros i j Hij. cbn in Hij. injection Hij as Hij. by apply (inj pretty).
    + change (map amt_label ?l) with (amt_label <$> l). rewrite fmap_take, fmap_imap.
      f_equal. cbn. rewrite (imap_ext _ (fun _ x => x) texts) by done.
      clear Ht. induction texts as [|x l IH]; [done|]. cbn [imap]. f_equal. exact IH.
    + apply Forall_forall. intros a Ha. apply elem_of_take_of in Ha.
      apply elem_of_lookup_imap in Ha as (i & txt & -> & _). cbn. by eexists.
Qed.

(** X11.  The label capitaliser of [normalizePlayable] (the replace of
    every word-initial character by its upper case) keeps the length of
    the text and changes nothing when applied a second time. *)
Theorem capitalize_words_is_idempotent (t : string) :
  String.length (capitalize_words t) = String.length t
  /\ capitalize_words (capitalize_words t) = capitalize_words t.
Proof.
  split; [apply capitalize_from_length|apply capitalize_from_idem].
Qed.

(** *** The solved pairs and the pools *)

Lemma foldl_insert_lookup {A} (l : list (string * A)) (m : gmap string A)
    (k : string) (v : A) :
  foldl (fun m e => <[fst e := snd e]> m) m l !! k = Some v ->
  (k, v) ∈ l \/ m !! k = Some v.
Proof.
  revert m. induction l as [|[k0 v0] l IH]; intros m H; [by right|].
  cbn [foldl fst snd] in H. destruct (IH _ H) as [Hin|Hm].
  - left. by apply list_elem_of_further.
  - destruct (decide (k0 = k)) as [->|Hne].
    + rewrite lookup_insert_eq in Hm. injection Hm as ->. left. apply list_elem_of_here.
    + rewrite lookup_insert_ne in Hm by exact Hne. by right.
Qed.

Lemma catMap_lookup_Some (s : State) (k : string) (c : TileCategory) :
  catMap s !! k = Some c -> cat_id c = k.
Proof.
  unfold catMap, fromEntries. intros H.
  apply foldl_insert_lookup in H as [Hin|Hm]; [|by rewrite lookup_empty in Hm].
  apply list_elem_of_In, in_map_iff in Hin as (x & [= <- <-] & _). reflexivity.
Qed.

Lemma amtMap_lookup_Some (s : State) (k : string) (a : TileAmount) :
  amtMap s !! k = Some a -> amt_id a = k.
Proof.
  unfold amtMap, fromEntries. intros H.
  apply foldl_insert_lookup in H as [Hin|Hm]; [|by rewrite lookup_empty in Hm].
  apply list_elem_of_In, in_map_iff in Hin as (x & [= <- <-] & _). reflexivity.
Qed.

Lemma filter_andb_le {A} (g h : A -> bool) (l : list A) :
  (length (List.filter (fun y => g y && h y) l) <= length (List.filter g l))%nat.
Proof.
  induction l as [|y l IH]; [done|]. cbn [List.filter].
  destruct (g y), (h y); cbn [andb length]; lia.
Qed.

Lemma filter_andb_lt {A} (g h : A -> bool) (l : list A) (x : A) :
  x ∈ List.filter g l -> h x = false ->
  (S (length (List.filter (fun y => g y && h y) l)) <= length (List.filter g l))%nat.
Proof.
  induction l as [|y l IH]; intros Hin Hx.
  - by apply elem_of_nil in Hin.
  - cbn [List.filter] in *. destruct (g y) eqn:Hg; cbn [andb].
    + apply elem_of_cons in Hin as [->|Hin].
      * rewrite Hx. cbn [length]. pose proof (filter_andb_le g h l). lia.
      * specialize (IH Hin Hx). destruct (h y); cbn [length]; lia.
    + by apply IH.
Qed.

(** One more solved pair whose tile is still in the pool shrinks the pool. *)
Lemma pool_shrinks {A P} (fa : A -> string) (fp : P -> string)
    (sv : list P) (p : P) (l : list A) (x : A) :
  x ∈ List.filter (fun c => negb (existsb (fun q => String.eqb (fp q) (fa c)) sv)) l ->
  fa x = fp p ->
  (S (length (List.filter
                (fun c => negb (existsb (fun q => String.eqb (fp q) (fa c)) (sv ++ [p]))) l))
   <= length (List.filter
                (fun c => negb (existsb (fun q => String.eqb (fp q) (fa c)) sv)) l))%nat.
Proof.
  intros Hin Hx.
  rewrite (List.filter_ext _
             (fun c => negb (existsb (fun q => String.eqb (fp q) (fa c)) sv)
                       && negb (String.eqb (fp p) (fa c)))).
  - apply (filter_andb_lt _ _ l x Hin). rewrite Hx, String.eqb_refl. reflexivity.
  - intros c. rewrite existsb_app. cbn [existsb]. rewrite orb_false_r.
    apply negb_orb.
Qed.

Lemma pool_of_fresh {A P} (fa : A -> string) (fp : P -> string) (l : list A) :
  List.filter (fun c => negb (existsb (fun q : P => String.eqb (fp q) (fa c)) [])) l = l.
Proof. apply filter_all. reflexivity. Qed.

Lemma board_inv_same (s s' : State) :
  solved s' = solved s -> categories s' = categories s -> amounts s' = amounts s ->
  (completed s = true -> completed s' = true) ->
  board_inv s -> board_inv s'.
Proof.
  intros Hsv Hc Ha Hdone [H1 H2 H3 H4 H5].
  split; unfold unsolvedCategories, unsolvedAmounts in *;
    rewrite ?Hsv, ?Hc, ?Ha; auto.
Qed.

Lemma board_inv_fresh (s' : State) :
  solved s' = [] -> (length (categories s') <= 5)%nat ->
  (length (amounts s') <= 5)%nat -> board_inv s'.
Proof.
  intros Hsv Hc Ha.
  split; unfold unsolvedCategories, unsolvedAmounts; rewrite ?Hsv; try done.
  - rewrite (pool_of_fresh cat_id (fun p => cat_id (cat p))). cbn. lia.
  - rewrite (pool_of_fresh amt_id (fun p => amt_id (amt p))). cbn. lia.
  - cbn. lia.
Qed.

Lemma board_inv_initial : board_inv initial.
Proof. apply board_inv_fresh; cbn; [done|lia|lia]. Qed.

Lemma board_inv_startRound_reply (o : StartOutcome) (s : State) :
  board_inv s -> solved s = [] -> board_inv (startRound_reply o s).
Proof.
  intros [H1 H2 H3 H4 H5] Hsv. unfold startRound_reply.
  destruct o as [json|m]; [|by apply board_inv_fresh].
  destruct (ok json); cbn [negb]; [|by apply board_inv_fresh].
  destruct (can_play json) as [[]|].
  - apply board_inv_fresh; cbn [solved categories amounts normalizePlayable];
      [done|apply (slice0_le _ 5); lia|apply (slice0_le _ 5); lia].
  - apply board_inv_fresh; cbn; [done|lia|lia].
  - apply board_inv_fresh; cbn [solved categories amounts normalizePlayable];
      [done|apply (slice0_le _ 5); lia|apply (slice0_le _ 5); lia].
Qed.

Lemma startRound_reply_loading (o : StartOutcome) (s : State) :
  loading (startRound_reply o s) = false.
Proof.
  unfold startRound_reply. destruct o as [json|m]; [|done].
  destruct (ok json); cbn [negb]; [|done].
  by destruct (can_play json) as [[]|].
Qed.

Lemma onCheck_loading (o : SubmitOutcome) (s : State) :
  loading (onCheck o s) = loading s.
Proof.
  unfold onCheck. destruct (onCheck_blocked s); [done|].
  destruct o as [json|]; [|done]. unfold onCheck_reply.
  by destruct (negb (sub_ok json) || negb (JS.truthy_bool (correct json))).
Qed.

Lemma board_inv_onCheck (o : SubmitOutcome) (s : State) :
  selection_in_pools s -> board_inv s -> board_inv (onCheck o s).
Proof.
  intros Hsel Hinv. unfold onCheck.
  destruct (onCheck_blocked s) eqn:Hb; [exact Hinv|].
  destruct o as [json|]; [|exact Hinv].
  unfold onCheck_reply.
  cbn [closure ck_selCatId ck_selAmtId ck_catMap ck_amtMap ck_solvedCount].
  destruct (negb (sub_ok json) || negb (JS.truthy_bool (correct json))).
  { revert Hinv. by apply board_inv_same. }
  unfold onCheck_blocked in Hb.
  apply orb_false_iff in Hb as [Hb Hfb]. apply orb_false_iff in Hb as [Hc Ha].
  apply bool_decide_eq_false in Hfb.
  assert (Hnone : feedback s = None).
  { destruct (feedback s); [exfalso; apply Hfb; by eexists|done]. }
  destruct (Hsel Hnone) as [Hselc Hsela].
  destruct (selCatId s ≫= (fun k => catMap s !! k)) as [c|] eqn:Hlc.
  2:{ revert Hinv. apply board_inv_same; cbn; try done.
      intros ->. by destruct (_ || _). }
  destruct (selAmtId s ≫= (fun k => amtMap s !! k)) as [a|] eqn:Hla.
  2:{ revert Hinv. apply board_inv_same; cbn; try done.
      intros ->. by destruct (_ || _). }
  destruct (selCatId s) as [kc|] eqn:Hkc; [|discriminate].
  destruct (selAmtId s) as [ka|] eqn:Hka; [|discriminate].
  cbn in Hlc, Hla.
  apply catMap_lookup_Some in Hlc. apply amtMap_lookup_Some in Hla.
  destruct (Hselc kc eq_refl) as (x & Hx & Hxk).
  destruct (Hsela ka eq_refl) as (y & Hy & Hyk).
  destruct Hinv as [H1 H2 H3 H4 H5].
  split; unfold unsolvedCategories, unsolvedAmounts in *;
    cbn [solved categories amounts completed]; try done.
  - pose proof (pool_shrinks cat_id (fun p => cat_id (cat p)) (solved s)
                  {| cat := c; amt := a |} (categories s) x Hx) as Hlt.
    cbn in Hlt. specialize (Hlt ltac:(congruence)).
    rewrite length_app. cbn [length]. lia.
  - pose proof (pool_shrinks amt_id (fun p => amt_id (amt p)) (solved s)
                  {| cat := c; amt := a |} (amounts s) y Hy) as Hlt.
    cbn in Hlt. specialize (Hlt ltac:(congruence)).
    rewrite length_app. cbn [length]. lia.
  - rewrite length_app. cbn [length]. intros Hfive.
    unfold total, solvedCount.
    destruct (Z.leb_spec 5 (Z.of_nat (length (solved s)) + 1)); [|lia].
    by rewrite orb_true_r.
Qed.

(** A press on Check that the screen does not show sends nothing. *)
Lemma run_check_hidden (s : State) (o : SubmitOutcome) :
  board_shown s = false -> run s (check s o) = s.
Proof.
  intros Hb. unfold check. cbn [run foldl step]. rewrite Hb.
  by rewrite lookup_ge_None_2.
Qed.

(** One play keeps the board within its bounds, and a round that is
    loading has an empty solved list. *)
Lemma board_inv_events (s : State) (p : Play) :
  live_inv s -> board_inv s -> (loading s = true -> solved s = []) ->
  board_inv (run s (events_of s p))
  /\ (loading (run s (events_of s p)) = true -> solved (run s (events_of s p)) = []).
Proof.
  intros Hlive Hinv Hload. destruct p as [i|i|o| |o]; cbn [events_of].
  - cbn [run foldl step]. destruct (unsolvedCategories s !! i); [|done].
    destruct (board_shown s); [|done].
    split; [revert Hinv; by apply board_inv_same|exact Hload].
  - cbn [run foldl step]. destruct (unsolvedAmounts s !! i); [|done].
    destruct (board_shown s); [|done].
    split; [revert Hinv; by apply board_inv_same|exact Hload].
  - destruct (board_shown s) eqn:Hb.
    + rewrite (run_check s o Hb). split.
      * apply board_inv_onCheck; [apply Hlive|exact Hinv].
      * rewrite onCheck_loading, (board_shown_not_loading s Hb). discriminate.
    + by rewrite (run_check_hidden s o Hb).
  - cbn [run foldl step]. destruct (timers s =? 0)%nat; [done|].
    split; [revert Hinv; by apply board_inv_same|exact Hload].
  - cbn [run foldl step]. destruct (restart_shown s).
    + cbn [step loading startRound_press]. split.
      * apply board_inv_startRound_reply; [|done].
        destruct Hinv as [H1 H2 H3 H4 H5]. by apply board_inv_fresh.
      * rewrite startRound_reply_loading. discriminate.
    + cbn [step]. destruct (loading s) eqn:Hl; [|by rewrite Hl].
      split.
      * apply board_inv_startRound_reply; [exact Hinv|by apply Hload].
      * rewrite startRound_reply_loading. discriminate.
Qed.

Lemma board_inv_play (ps : list Play) (s : State) :
  live_inv s -> board_inv s -> (loading s = true -> solved s = []) ->
  board_inv (play s ps).
Proof.
  revert s. induction ps as [|p ps IH]; intros s Hlive Hinv Hload; [exact Hinv|].
  cbn [play foldl]. destruct (board_inv_events s p Hlive Hinv Hload) as [Hb Hl].
  apply IH; [by apply live_inv_run|exact Hb|exact Hl].
Qed.

(** X12.  Category matching, in every state reached from the mounted
    screen by play in which every reply arrives before the next press
    (tile presses, answered checks, feedback timers and answered round
    starts, with any server replies): in each column the solved pairs
    and the tiles still in the pool together never exceed the tiles
    dealt, of which there are at most five; so the solved count stays
    within 0..5, and once it is 5 the round is completed, the board is
    done and both pools are empty. *)
Theorem matching_solved_count_within_total (ps : list Play) :
  let s := play initial ps in
  solvedCount s + Z.of_nat (length (unsolvedCategories s))
    <= Z.of_nat (length (categories s)) <= total
  /\ solvedCount s + Z.of_nat (length (unsolvedAmounts s))
       <= Z.of_nat (length (amounts s)) <= total
  /\ 0 <= solvedCount s <= total
  /\ (solvedCount s = total ->
      completed s = true /\ done s = true /\ board_shown s = false
      /\ unsolvedCategories s = [] /\ unsolvedAmounts s = []).
Proof.
  intros s.
  destruct (board_inv_play ps initial live_inv_initial board_inv_initial (fun _ => eq_refl))
    as [H1 H2 H3 H4 H5].
  fold s in H1, H2, H3, H4, H5.
  unfold solvedCount, total.
  split; [lia|]. split; [lia|]. split; [lia|].
  intros Hfive. assert (Hc : completed s = true) by (apply H5; lia).
  split; [exact Hc|]. unfold board_shown, done. rewrite Hc. cbn [orb negb].
  split; [done|]. split; [by rewrite !andb_false_r|].
  split.
  - destruct (unsolvedCategories s); [done|]. cbn [length] in H1. lia.
  - destruct (unsolvedAmounts s); [done|]. cbn [length] in H2. lia.
Qed.

End MatchingBoard.

(** ** Spend detective: the cards and the fallback endpoints *)

Section DetectiveCards.

Import SpendDetective.

Lemma cards_inv_initial : cards_inv initial.
Proof.
  split; cbn.
  - intros k b H. by rewrite lookup_empty in H.
  - intros k H. discriminate.
  - done.
  - intros g Hg. by apply elem_of_nil in Hg.
Qed.

Lemma cards_inv_unselected (s s' : State) :
  selectedId s' = None -> guesses s' = guesses s ->
  (forall k b, locked s' !! k = Some b -> b = true) ->
  cards_inv s -> cards_inv s'.
Proof.
  intros Hsel Hg Hl [_ _ _ Hgs]. split.
  - exact Hl.
  - intros k Hk. rewrite Hsel in Hk. discriminate Hk.
  - done.
  - rewrite Hg. exact Hgs.
Qed.

Lemma cards_inv_pressTx (t : Tx) (s : State) :
  loading s = false -> t ∈ transactions s -> cards_inv s -> cards_inv (pressTx t s).
Proof.
  intros Hld Ht Hinv. pose proof Hinv as [Hl Hs Hload Hgs]. unfold pressTx.
  destruct (JS.truthy_member (locked s) (tx_id t)) eqn:Hlk; [exact Hinv|].
  split; cbn.
  - exact Hl.
  - intros k Hk. case_bool_decide; [discriminate|].
    injection Hk as <-. split; [exact Hlk|]. by exists t.
  - congruence.
  - exact Hgs.
Qed.

Lemma or_str_nonempty (k : string) :
  JS.truthy_str (Some k) = true -> JS.or_str (Some k) EmptyString = k.
Proof.
  cbn. by destruct (String.eqb k EmptyString).
Qed.

Lemma cards_inv_step (s : State) (e : Event) : cards_inv s -> cards_inv (step s e).
Proof.
  intros Hinv. pose proof Hinv as [Hl Hs Hload Hgs].
  destruct e as [i| |k o| |o]; cbn [step].
  - destruct (transactions s !! i) as [t|] eqn:Hi; [|exact Hinv].
    destruct (board_shown s) eqn:Hb; [|exact Hinv].
    apply cards_inv_pressTx; [|by eapply list_elem_of_lookup_2|exact Hinv].
    unfold board_shown in Hb.
    apply andb_true_iff in Hb as [Hb _]. apply andb_true_iff in Hb as [Hb _].
    apply andb_true_iff in Hb as [Hb _]. by apply negb_true_iff in Hb.
  - destruct (board_shown s); [|exact Hinv].
    unfold onSubmit_press.
    destruct (JS.truthy_str (selectedId s)) eqn:Ht; cbn [negb]; [|exact Hinv].
    split; [exact Hl|exact Hs|exact Hload|].
    cbn [guesses set_guesses]. intros g Hg.
    apply elem_of_app in Hg as [Hg|Hg]; [by apply Hgs|].
    apply list_elem_of_singleton in Hg as ->. cbn [closure gs_selectedId].
    destruct (selectedId s) as [sid|]; [|discriminate Ht].
    exists sid. split; [reflexivity|].
    cbn in Ht. apply negb_true_iff in Ht. by apply String.eqb_neq.
  - destruct (guesses s !! k) as [g|]; [|exact Hinv].
    assert (Hdel : cards_inv (set_guesses (delete k (guesses s)) s)).
    { split; [exact Hl|exact Hs|exact Hload|].
      cbn [guesses set_guesses]. intros g' Hg'. apply Hgs.
      by apply (elem_of_delete _ k). }
    destruct o as [j|]; [|exact Hdel].
    destruct (onSubmit_reply_frame g j (set_guesses (delete k (guesses s)) s))
      as (Hsel & _ & _ & _ & Hlk & _ & Hg & _).
    revert Hdel. apply cards_inv_unselected; [exact Hsel|exact Hg|].
    intros k' b. rewrite Hlk. cbn [locked set_guesses].
    destruct (wasCorrect j); [|apply Hl].
    destruct (decide (JS.or_str (gs_selectedId g) EmptyString = k')) as [<-|Hne].
    + rewrite lookup_insert_eq. by intros [= <-].
    + rewrite lookup_insert_ne by exact Hne. apply Hl.
  - destruct (restart_shown s); [|exact Hinv].
    revert Hinv. apply cards_inv_unselected; cbn; [done|done|].
    intros k b H. by rewrite lookup_empty in H.
  - destruct (loading s) eqn:Hld; [|exact Hinv].
    specialize (Hload eq_refl).
    assert (Hsame : forall s', selectedId s' = selectedId s -> guesses s' = guesses s ->
                               locked s' = locked s -> cards_inv s').
    { intros s' H1 H2 H3. revert Hinv. apply cards_inv_unselected;
        [congruence|exact H2|by rewrite H3]. }
    unfold startRound_reply. destruct o as [json|m]; [|by apply Hsame].
    destruct (ok json); cbn [negb]; [|by apply Hsame].
    case_bool_decide; by apply Hsame.
Qed.

Lemma cards_inv_run (es : list Event) (s : State) : cards_inv s -> cards_inv (run s es).
Proof.
  revert s. induction es as [|e es IH]; intros s Hs; [exact Hs|].
  cbn [run foldl]. apply IH. by apply cards_inv_step.
Qed.

(** X13.  Spend detective, in every state reachable from the initial one
    by card presses, presses on Submit, round starts and the replies to
    them, in whatever order they arrive: every own entry of [locked] is
    [true]; the selected card is a card of the board that does not read
    as locked; and the reply to any guess in flight clears the selection
    and, when the guess was right, locks the card that was selected when
    Submit was pressed (whose id is not empty), and no card otherwise. *)
Theorem detective_locks_the_selected_card (es : list Event) :
  let s := run initial es in
  (forall k b, locked s !! k = Some b -> b = true)
  /\ (forall k, selectedId s = Some k ->
        JS.truthy_member (locked s) k = false
        /\ exists t, t ∈ transactions s /\ tx_id t = k)
  /\ (forall k g j,
        guesses s !! k = Some g ->
        let s' := step s (GuessReply k (GuessReplied j)) in
        exists sid,
          gs_selectedId g = Some sid /\ sid <> EmptyString
          /\ selectedId s' = None
          /\ locked s' = if wasCorrect j then <[sid := true]> (locked s) else locked s).
Proof.
  intros s. destruct (cards_inv_run es initial cards_inv_initial) as [Hl Hs _ Hgs].
  fold s in Hl, Hs, Hgs. split; [exact Hl|]. split; [exact Hs|].
  intros k g j Hk s'. subst s'. cbn [step]. rewrite Hk.
  destruct (Hgs g) as (sid & Hsid & Hne); [by eapply list_elem_of_lookup_2|].
  exists sid. split; [exact Hsid|]. split; [exact Hne|].
  destruct (onSubmit_reply_frame g j (set_guesses (delete k (guesses s)) s))
    as (Hsel & _ & _ & _ & Hlk & _).
  split; [exact Hsel|]. rewrite Hlk. cbn [locked set_guesses].
  rewrite Hsid, or_str_nonempty; [done|].
  cbn. apply negb_true_iff. by apply String.eqb_neq.
Qed.

(** *** The fallback over the guess endpoints *)

Lemma fallback_shift {T} (net : nat -> string -> Attempt T) (n : nat)
    (urls : list string) (lastErr : option string) :
  postJsonWithFallback_from net (S n) urls lastErr
  = postJsonWithFallback_from (fun i => net (S i)) n urls lastErr.
Proof.
  revert n lastErr. induction urls as [|url rest IH]; intros n lastErr; [done|].
  cbn [postJsonWithFallback_from]. destruct (try_url url (net (S n) url)); [done| |done].
  apply IH.
Qed.

Lemma fallback_returns {T} (net : nat -> string -> Attempt T) (urls : list string)
    (lastErr : option string) (d : option T) :
  postJsonWithFallback_from net 0 urls lastErr = Returned d
  <-> exists i url,
        urls !! i = Some url /\ try_url url (net i url) = Done d
        /\ forall j url', (j < i)%nat -> urls !! j = Some url' ->
             exists e, try_url url' (net j url') = Failed e.
Proof.
  revert net lastErr. induction urls as [|url rest IH]; intros net lastErr.
  - cbn. split; [discriminate|]. intros (i & u & Hu & _). by destruct i.
  - cbn [postJsonWithFallback_from].
    destruct (try_url url (net 0%nat url)) as [d0|e|] eqn:Htry.
    + split.
      * intros [= <-]. exists 0%nat, url. split; [done|]. split; [done|]. lia.
      * intros (i & u & Hu & Hd & Hpre). destruct i as [|i].
        -- injection Hu as <-. congruence.
        -- destruct (Hpre 0%nat url ltac:(lia) eq_refl) as [e He]. congruence.
    + rewrite fallback_shift, IH. split.
      * intros (i & u & Hu & Hd & Hpre). exists (S i), u.
        split; [done|]. split; [done|].
        intros [|j] u' Hj Hu'.
        -- injection Hu' as <-. by exists e.
        -- apply (Hpre j u'); [lia|done].
      * intros (i & u & Hu & Hd & Hpre). destruct i as [|i].
        -- injection Hu as <-. congruence.
        -- exists i, u. split; [done|]. split; [done|].
           intros j u' Hj Hu'. apply (Hpre (S j) u'); [lia|done].
    + split; [discriminate|].
      intros (i & u & Hu & Hd & Hpre). destruct i as [|i].
      * injection Hu as <-. congruence.
      * destruct (Hpre 0%nat url ltac:(lia) eq_refl) as [e He]. congruence.
Qed.

Lemma last_cons_default {A} (x d : A) (l : list A) :
  default d (last (x :: l)) = default x (last l).
Proof.
  revert x d. induction l as [|y l IH]; intros x d; [done|].
  rewrite last_cons_cons. by rewrite (IH y d), (IH y x).
Qed.

Lemma errors_of_cons {T} (net : nat -> string -> Attempt T) (url : string)
    (rest : list string) :
  errors_of net (url :: rest)
  = match try_url url (net 0%nat url) with
    | Failed e => e :: errors_of (fun i => net (S i)) rest
    | _ => errors_of (fun i => net (S i)) rest
    end.
Proof.
  unfold errors_of. cbn [imap omap]. by destruct (try_url url (net 0%nat url)).
Qed.

Lemma fallback_throws {T} (net : nat -> string -> Attempt T) (urls : list string)
    (lastErr : option string) :
  (forall i url, urls !! i = Some url -> exists e, try_url url (net i url) = Failed e) ->
  postJsonWithFallback_from net 0 urls lastErr
  = Thrown (default (JS.nullish lastErr no_endpoint) (last (errors_of net urls)))
  /\ length (errors_of net urls) = length urls.
Proof.
  revert net lastErr. induction urls as [|url rest IH]; intros net lastErr Hall; [done|].
  cbn [postJsonWithFallback_from].
  destruct (Hall 0%nat url eq_refl) as [e He]. rewrite He, fallback_shift.
  destruct (IH (fun i => net (S i)) (Some e)) as [Hrun Hlen].
  { intros i u Hu. apply (Hall (S i) u Hu). }
  rewrite Hrun, errors_of_cons, He. cbn [JS.nullish default].
  split.
  - f_equal. symmetry. apply last_cons_default.
  - cbn [length]. by rewrite Hlen.
Qed.

(** X14.  [postJsonWithFallback] returns exactly when some endpoint of
    the list answers with an ok response whose body parses (or is
    empty), every endpoint before it having ended its pass with an
    error; what it returns is the data of that first endpoint, whatever
    the later ones would have answered. *)
Theorem postJsonWithFallback_returns_first_answer {T}
    (net : nat -> string -> Attempt T) (urls : list string) (d : option T) :
  postJsonWithFallback net urls = Returned d
  <-> exists i url,
        urls !! i = Some url /\ try_url url (net i url) = Done d
        /\ forall j url', (j < i)%nat -> urls !! j = Some url' ->
             exists e, try_url url' (net j url') = Failed e.
Proof. apply fallback_returns. Qed.

(** X15.  When the pass over every endpoint ends with an error (a
    rejected fetch, a body that does not parse, a 404 or any other
    status that is not ok), [postJsonWithFallback] tries them all and
    throws the error of the last one, or the no-endpoint error for an
    empty list; [onSubmit] then leaves the round as it was. *)
Theorem postJsonWithFallback_throws_last_error
    (net : nat -> string -> Attempt GuessResp) (urls : list string) (s : State) :
  (forall i url, urls !! i = Some url -> exists e, try_url url (net i url) = Failed e) ->
  postJsonWithFallback net urls
  = Thrown (default no_endpoint (last (errors_of net urls)))
  /\ length (errors_of net urls) = length urls
  /\ (urls = GUESS_URLS -> submit_guess net s = Some s).
Proof.
  intros Hall. destruct (fallback_throws net urls None Hall) as [Hrun Hlen].
  split; [exact Hrun|]. split; [exact Hlen|].
  intros ->. unfold submit_guess, postJsonWithFallback. rewrite Hrun.
  cbn. unfold onSubmit. by destruct (negb (JS.truthy_str (selectedId s))).
Qed.

End DetectiveCards.

Lemma postJsonWithFallback_throws_last_error_witness :
  SpendDetective.postJsonWithFallback
    (fun _ _ => SpendDetective.Fails "Network request failed")
    SpendDetective.GUESS_URLS
  = SpendDetective.Thrown (T := SpendDetective.GuessResp) "Network request failed".
Proof.
  destruct (postJsonWithFallback_throws_last_error
              (fun _ _ => SpendDetective.Fails "Network request failed")
              SpendDetective.GUESS_URLS SpendDetective.initial) as (H & _).
  - intros i url _. by eexists.
  - exact H.
Defined.

(** ** Games hub: progress within a rank and the badges *)

Section RankProgress.

Import GamesHome.

Lemma ratio_bounds (a b : Z) :
  0 <= a -> 1 <= b -> a <= b ->
  (0 <= inject_Z a / inject_Z b <= 1)%Q
  /\ (a < b -> (inject_Z a / inject_Z b < 1)%Q).
Proof.
  intros Ha Hb Hab.
  assert (Hb' : (0 < inject_Z b)%Q).
  { change 0%Q with (inject_Z 0). rewrite <- Zlt_Qlt. lia. }
  split; [split|].
  - apply Qle_shift_div_l; [exact Hb'|]. rewrite Qmult_0_l.
    change 0%Q with (inject_Z 0). rewrite <- Zle_Qle. lia.
  - apply Qle_shift_div_r; [exact Hb'|]. rewrite Qmult_1_l, <- Zle_Qle. lia.
  - intros Hlt. apply Qlt_shift_div_r; [exact Hb'|]. rewrite Qmult_1_l, <- Zlt_Qlt. lia.
Qed.

Lemma tier_of_xp (xp : Z) :
  0 <= xp ->
  exists t, currentTier xp = Some t /\ min t <= xp
    /\ match nextTier xp with
       | Some t' => xp < min t' /\ currentTierIndex (min t') = currentTierIndex xp + 1
       | None => currentTierIndex xp = 5
       end.
Proof.
  intros Hxp. unfold currentTier, nextTier.
  rewrite (currentTierIndex_cases xp).
  repeat match goal with
         | |- context [?a <=? xp] => destruct (Z.leb_spec a xp)
         end; try lia;
    repeat match goal with
           | |- context [tier_at ?i] =>
               let v := eval vm_compute in (tier_at i) in change (tier_at i) with v
           end;
    (eexists; split; [reflexivity|]; cbn; split; [lia|];
     first [split; [lia|reflexivity] | reflexivity]).
Qed.

Lemma fill_width_in_range (xp : Z) :
  (0 <= tierProgress xp <= 1)%Q -> (fill_width xp == tierProgress xp * 100)%Q.
Proof.
  unfold fill_width. set (p := tierProgress xp). intros [H0 H1].
  destruct (Qle_bool 1 p) eqn:Hc1.
  - apply Qle_bool_iff in Hc1. destruct (Qle_bool 1 0) eqn:Hc0.
    + apply Qle_bool_iff in Hc0. lra.
    + lra.
  - destruct (Qle_bool p 0) eqn:Hc0.
    + apply Qle_bool_iff in Hc0. lra.
    + lra.
Qed.

(** X16.  Games hub, for any non-negative XP total: the current tier
    exists and starts at or below the total; the progress within the
    tier lies in [0,1], so the clamp of the fill width never cuts; below
    the top tier the total is short of the next tier's minimum, the XP
    shown as needed is exactly the difference, earning it lands on the
    next tier, and the progress is below 1; in the top tier nothing more
    is needed and the progress is 1 once the total exceeds 12000. *)
Theorem tier_progress_needs_no_clamp (xp : Z) :
  0 <= xp ->
  is_Some (currentTier xp)
  /\ tierStart xp <= xp
  /\ (0 <= tierProgress xp <= 1)%Q
  /\ (fill_width xp == tierProgress xp * 100)%Q
  /\ (forall t, nextTier xp = Some t ->
        xp < min t /\ tierEnd xp = min t /\ toNext xp = min t - xp
        /\ currentTierIndex (xp + toNext xp) = currentTierIndex xp + 1
        /\ (tierProgress xp < 1)%Q)
  /\ (nextTier xp = None ->
      toNext xp = 0 /\ (tierProgress xp == if 12000 <? xp then 1 else 0)%Q).
Proof.
  intros Hxp. destruct (tier_of_xp xp Hxp) as (t & Ht & Hmin & Hnext).
  assert (Hstart : tierStart xp = min t) by (unfold tierStart; by rewrite Ht).
  assert (Hbounds : (0 <= tierProgress xp <= 1)%Q
                    /\ (forall t', nextTier xp = Some t' -> (tierProgress xp < 1)%Q)).
  { unfold tierProgress, tierEnd. rewrite Hstart.
    destruct (nextTier xp) as [t'|] eqn:Hn.
    - destruct Hnext as [Hlt _].
      destruct (ratio_bounds (xp - min t) (Z.max 1 (min t' - min t))) as [Hr Hs];
        [lia|lia|lia|].
      split; [exact Hr|]. intros _ _. apply Hs. lia.
    - destruct (ratio_bounds (xp - min t) (Z.max 1 (Z.max (min t + 1) xp - min t)))
        as [Hr _]; [lia|lia|lia|].
      split; [exact Hr|]. discriminate. }
  destruct Hbounds as [Hrange Hbelow].
  split; [by eexists|]. split; [lia|]. split; [exact Hrange|].
  split; [by apply fill_width_in_range|]. split.
  - intros t' Hn. rewrite Hn in Hnext. destruct Hnext as [Hlt Hidx].
    assert (Hto : toNext xp = min t' - xp).
    { unfold toNext. rewrite Hn. lia. }
    split; [exact Hlt|]. split; [unfold tierEnd; by rewrite Hn|].
    split; [exact Hto|]. split; [|by apply (Hbelow t')].
    rewrite Hto. replace (xp + (min t' - xp)) with (min t') by lia. exact Hidx.
  - intros Hn. rewrite Hn in Hnext. split; [unfold toNext; by rewrite Hn|].
    assert (Ht12 : min t = 12000).
    { unfold currentTier in Ht. rewrite Hnext in Ht. vm_compute in Ht.
      by injection Ht as <-. }
    unfold tierProgress, tierEnd. rewrite Hn, Hstart, Ht12.
    destruct (Z.ltb_spec 12000 xp) as [Hgt|Hle].
    + replace (Z.max 1 (Z.max (12000 + 1) xp - 12000)) with (xp - 12000) by lia.
      apply Qmult_inv_r. intros Hz.
      assert (Hpos : (0 < inject_Z (xp - 12000))%Q).
      { change 0%Q with (inject_Z 0). rewrite <- Zlt_Qlt. lia. }
      rewrite Hz in Hpos. by apply Qlt_irrefl in Hpos.
    + replace xp with 12000 by lia. reflexivity.
Qed.

(** X17.  Games hub badges: the badge of a tier is drawn as achieved
    exactly when the XP total is non-negative and the tier is not above
    the current tier, so for a non-negative total the number of achieved
    badges is the current tier index plus one; for a negative total no
    badge is achieved although the first tier is shown as current, and
    the progress fill is empty. *)
Theorem badges_follow_the_current_tier (xp : Z) :
  (forall i t, tiers !! i = Some t ->
     achieved xp t = true <-> 0 <= xp /\ Z.of_nat i <= currentTierIndex xp)
  /\ Z.of_nat (length (List.filter (achieved xp) tiers))
     = (if 0 <=? xp then currentTierIndex xp + 1 else 0)
  /\ (xp < 0 -> currentTierIndex xp = 0 /\ (fill_width xp == 0)%Q).
Proof.
  split; [|split].
  - intros i t Hi. unfold achieved. rewrite currentTierIndex_cases.
    do 6 (destruct i as [|i];
          [injection Hi as <-; cbn [min]; rewrite Z.leb_le;
           repeat match goal with
                  | |- context [?a <=? xp] => destruct (Z.leb_spec a xp)
                  end; lia|]).
    discriminate.
  - unfold achieved, tiers. cbn [List.filter min]. rewrite currentTierIndex_cases.
    repeat match goal with
           | |- context [?a <=? xp] => destruct (Z.leb_spec a xp)
           end; cbn [length]; lia.
  - intros Hneg.
    assert (Hidx : currentTierIndex xp = 0).
    { rewrite currentTierIndex_cases.
      repeat match goal with
             | |- context [?a <=? xp] => destruct (Z.leb_spec a xp)
             end; lia. }
    split; [exact Hidx|].
    assert (Hp : (tierProgress xp < 0)%Q).
    { unfold tierProgress, tierEnd, tierStart, currentTier, nextTier. rewrite Hidx.
      repeat match goal with
             | |- context [tier_at ?i] =>
                 let v := eval vm_compute in (tier_at i) in change (tier_at i) with v
             end.
      cbn. apply Qlt_shift_div_r; [reflexivity|]. rewrite Qmult_0_l.
      change 0%Q with (inject_Z 0). rewrite <- Zlt_Qlt. lia. }
    unfold fill_width. set (p := tierProgress xp) in *.
    destruct (Qle_bool 1 p) eqn:Hc1.
    + apply Qle_bool_iff in Hc1. lra.
    + destruct (Qle_bool p 0) eqn:Hc0; [lra|].
      assert (Hle : Qle_bool p 0 = true) by (apply Qle_bool_iff; lra).
      congruence.
Qed.

End RankProgress.

Lemma tier_progress_needs_no_clamp_witness :
  GamesHome.toNext 620 = 880
  /\ GamesHome.currentTierIndex (620 + GamesHome.toNext 620)
     = GamesHome.currentTierIndex 620 + 1.
Proof.
  destruct (tier_progress_needs_no_clamp 620 ltac:(lia)) as (_ & _ & _ & _ & H & _).
  destruct (H {| GamesHome.key := "Budget Master"; GamesHome.min := 1500; GamesHome.color := "#C0C0C0" |} eq_refl)
    as (_ & _ & Hto & Hidx & _).
  split; [exact Hto|exact Hidx].
Defined.

(** ** Local trivia quiz: any number of questions asked for *)

Section SampleAnyCount.

Import TriviaTest.

Variable rnd : Rand.oracle.
Hypothesis rnd_unit : Rand.unit_draws rnd.

(** The number of elements [slice(0, n)] keeps of an array of [len]. *)
Lemma slice0_clamp {A} (a : list A) (n : Z) :
  let n' := if n <? 0 then Z.max (Z.of_nat (length a) + n) 0
            else Z.min n (Z.of_nat (length a)) in
  0 <= n' <= Z.of_nat (length a) /\ JS.slice0 a n = JS.slice0 a n'.
Proof.
  intros n'. subst n'. unfold JS.slice0.
  destruct (Z.ltb_spec n 0).
  - split; [lia|]. destruct (Z.ltb_spec (Z.max (Z.of_nat (length a) + n) 0) 0); [lia|].
    f_equal. lia.
  - split; [lia|]. destruct (Z.ltb_spec (Z.min n (Z.of_nat (length a))) 0); [lia|].
    f_equal. lia.
Qed.

Lemma sampleQuestions_from_clamp (b : list UIQuestion) (n : Z) (k : nat) :
  sampleQuestions_from rnd b n k
  = sampleQuestions_from rnd b
      (if n <? 0 then Z.max (Z.of_nat (length b) + n) 0
       else Z.min n (Z.of_nat (length b))) k.
Proof.
  unfold sampleQuestions_from, mbind, rand_bind, Rand.bind.
  destruct (shuffle_perm rnd rnd_unit b k) as (sb & -> & Hsb).
  assert (Hlen : length sb = length b) by (by rewrite Hsb).
  destruct (slice0_clamp sb n) as [_ Heq]. rewrite Hlen in Heq. by rewrite Heq.
Qed.

(** X18.  [shuffle] on any array, for every oracle of [Math.random] with
    draws in [0,1): the loop never indexes outside the array, it returns
    a permutation of the array, and it takes one draw per element but
    one. *)
Theorem shuffle_returns_a_permutation {T} (a : list T) (k : nat) :
  exists c, shuffle rnd a k = Some (c, (k + (length a - 1))%nat)
            /\ c ≡ₚ a /\ length c = length a.
Proof.
  destruct (shuffle_perm rnd rnd_unit a k) as (c & Hrun & Hc).
  exists c. split; [exact Hrun|]. split; [exact Hc|]. by rewrite Hc.
Qed.

(** X19.  [sampleQuestions(n)] for any [n], not only those within the
    bank: asking for more than the eight questions of the bank gives all
    eight, and a negative [n] leaves out that many from the end of the
    shuffled bank (none are left from -8 down); the questions returned
    always have distinct ids and are questions of the bank with their
    correct choice re-indexed. *)
Theorem sampleQuestions_count_is_clamped (n : Z) (k : nat) :
  exists qs k',
    sampleQuestions rnd n k = Some (qs, k')
    /\ Z.of_nat (length qs) = (if n <? 0 then Z.max (8 + n) 0 else Z.min n 8)
    /\ NoDup (map id qs)
    /\ Forall (drawn_from bank) qs.
Proof.
  unfold sampleQuestions. rewrite sampleQuestions_from_clamp.
  change (Z.of_nat (length bank)) with 8.
  apply (sampleQuestions_from_sound rnd rnd_unit bank _ k bank_well_formed).
  change (Z.of_nat (length bank)) with 8.
  destruct (Z.ltb_spec n 0); lia.
Qed.

End SampleAnyCount.

Lemma shuffle_returns_a_permutation_witness :
  exists c, TriviaTest.shuffle sample_oracle [1; 2; 3; 4] 0%nat = Some (c, 3%nat)
            /\ c ≡ₚ [1; 2; 3; 4].
Proof.
  destruct (shuffle_returns_a_permutation sample_oracle sample_oracle_unit
              [1; 2; 3; 4] 0%nat) as (c & Hrun & Hc & _).
  exists c. split; [exact Hrun|exact Hc].
Defined.

Lemma sampleQuestions_count_is_clamped_witness :
  exists qs k',
    TriviaTest.sampleQuestions sample_oracle 20 0%nat = Some (qs, k')
    /\ Z.of_nat (length qs) = 8.
Proof.
  destruct (sampleQuestions_count_is_clamped sample_oracle sample_oracle_unit 20 0%nat)
    as (qs & k' & Hrun & Hlen & _).
  exists qs, k'. split; [exact Hrun|exact Hlen].
Defined.

(** ** Network helpers: when a call resolves *)

Section Resolving.

Import Net.

Lemma fetch_with_abort_in_time (ms : Z) (n : Network) (t : Z) :
  arrival n = Some t -> t < Z.max 0 ms -> fetch_with_abort ms n = n.
Proof.
  intros Ha Ht. unfold fetch_with_abort.
  destruct n as [t' ok st b|t' nm m|]; cbn [arrival] in Ha; [| |discriminate];
    injection Ha as ->; by destruct (Z.ltb_spec t (Z.max 0 ms)); [|lia].
Qed.

(** X20.  [fetchJson] resolves exactly when the network delivers, before
    the abort timer fires, an ok response whose body is empty or parses;
    it then resolves at the instant of the delivery, with [null] for an
    empty body and the parsed data otherwise.  A call answered before
    the timer fires has the same outcome under any longer timeout.
    Whenever [fetchJson] resolves, the bank-link [post] of a signed-in
    user resolves on the same network at the same instant, with the same
    data when the body parses and with [{}] where [fetchJson] gives
    [null]; on an ok response whose body does not parse [post] still
    resolves, with [{}], where [fetchJson] is rejected. *)
Theorem fetchJson_resolves_on_timely_ok_response
    (ms ms' : Z) (n : Network) (t : Z) (d : option string) :
  (fetchJson_ms ms n = Resolved t d
   <-> t < Z.max 0 ms
       /\ exists st body,
            n = Delivers t true st body
            /\ ((body = EmptyBody /\ d = None)
                \/ exists e m p, body = JsonBody e m p /\ d = Some p))
  /\ (arrival n = Some t -> t < Z.max 0 ms -> ms <= ms' ->
      fetchJson_ms ms' n = fetchJson_ms ms n)
  /\ (fetchJson_ms ms n = Resolved t d ->
      post true n = Resolved t (Some (default empty_object d)))
  /\ (forall st e, t < Z.max 0 ms ->
        fetchJson_ms ms (Delivers t true st (Malformed e)) = Rejected t e
        /\ post true (Delivers t true st (Malformed e))
           = Resolved t (Some empty_object)).
Proof.
  assert (Hiff : fetchJson_ms ms n = Resolved t d
                 <-> t < Z.max 0 ms
                     /\ exists st body,
                          n = Delivers t true st body
                          /\ ((body = EmptyBody /\ d = None)
                              \/ exists e m p, body = JsonBody e m p /\ d = Some p)).
  { split.
    - unfold fetchJson_ms, fetch_with_abort.
      destruct n as [t' ok st b|t' nm m|].
      + destruct (Z.ltb_spec t' (Z.max 0 ms)) as [Hlt|Hge].
        * destruct b as [|e m p|e]; destruct ok; try discriminate.
          -- intros [= <- <-]. split; [exact Hlt|]. exists st, EmptyBody.
             split; [done|]. by left.
          -- intros [= <- <-]. split; [exact Hlt|]. exists st, (JsonBody e m p).
             split; [done|]. right. by exists e, m, p.
        * cbn. discriminate.
      + destruct (Z.ltb_spec t' (Z.max 0 ms)); cbn.
        * destruct (String.eqb nm "AbortError"); discriminate.
        * discriminate.
      + cbn. discriminate.
    - intros (Hlt & st & body & -> & Hbody).
      unfold fetchJson_ms, fetch_with_abort.
      destruct (Z.ltb_spec t (Z.max 0 ms)); [|lia].
      destruct Hbody as [[-> ->]|(e & m & p & -> & ->)]; reflexivity. }
  split; [exact Hiff|]. split; [|split].
  - intros Ha Ht Hle. unfold fetchJson_ms.
    rewrite (fetch_with_abort_in_time ms n t Ha Ht).
    rewrite (fetch_with_abort_in_time ms' n t Ha); [done|lia].
  - intros Hres. apply Hiff in Hres as (_ & st & body & -> & Hbody).
    destruct Hbody as [[-> ->]|(e & m & p & -> & ->)]; reflexivity.
  - intros st e Hlt. split; [|reflexivity].
    unfold fetchJson_ms, fetch_with_abort.
    by destruct (Z.ltb_spec t (Z.max 0 ms)); [|lia].
Qed.

End Resolving.

(** ** What the matching and detective screens render *)

Section Rendered.

Lemma detective_flags_same (s s' : SpendDetective.State) :
  SpendDetective.loading s' = SpendDetective.loading s ->
  SpendDetective.error s' = SpendDetective.error s ->
  SpendDetective.lowMsg s' = SpendDetective.lowMsg s ->
  SpendDetective.canPlay s' = SpendDetective.canPlay s ->
  SpendDetective.flags_inv s -> SpendDetective.flags_inv s'.
Proof. unfold SpendDetective.flags_inv. by intros -> -> -> ->. Qed.

Lemma detective_flags_startRound_reply (o : SpendDetective.StartOutcome)
    (s : SpendDetective.State) :
  SpendDetective.flags_inv (SpendDetective.startRound_reply o s).
Proof.
  unfold SpendDetective.startRound_reply, SpendDetective.flags_inv.
  destruct o as [json|m].
  - destruct (SpendDetective.ok json); cbn [negb].
    + case_bool_decide; cbn.
      * right. right. left. split; [|done].
        by apply (or_str_truthy (SpendDetective.message json)).
      * right. right. right. done.
    + right. left. by apply (or_str_truthy (SpendDetective.start_error json)).
  - right. left. by apply (or_str_truthy m).
Qed.

Lemma detective_flags_step (s : SpendDetective.State) (e : SpendDetective.Event) :
  SpendDetective.flags_inv s -> SpendDetective.flags_inv (SpendDetective.step s e).
Proof.
  intros Hinv. destruct e as [i| |k o| |o]; cbn [SpendDetective.step].
  - destruct (SpendDetective.transactions s !! i) as [t|]; [|exact Hinv].
    destruct (SpendDetective.board_shown s); [|exact Hinv].
    unfold SpendDetective.pressTx. by destruct (JS.truthy_member _ _).
  - destruct (SpendDetective.board_shown s); [|exact Hinv].
    unfold SpendDetective.onSubmit_press. by destruct (negb _).
  - destruct (SpendDetective.guesses s !! k) as [g|]; [|exact Hinv].
    destruct o as [j|]; [|exact Hinv].
    destruct (onSubmit_reply_frame g j
                (SpendDetective.set_guesses (delete k (SpendDetective.guesses s)) s))
      as (_ & _ & _ & _ & _ & _ & _ & H1 & H2 & H3 & H4 & _).
    revert Hinv. by apply detective_flags_same.
  - destruct (SpendDetective.restart_shown s); [|exact Hinv]. by left.
  - destruct (SpendDetective.loading s); [|exact Hinv].
    apply detective_flags_startRound_reply.
Qed.

Lemma detective_flags_run (es : list SpendDetective.Event) (s : SpendDetective.State) :
  SpendDetective.flags_inv s -> SpendDetective.flags_inv (SpendDetective.run s es).
Proof.
  revert s. induction es as [|e es IH]; intros s Hs; [exact Hs|].
  cbn [SpendDetective.run foldl]. apply IH. by apply detective_flags_step.
Qed.

(** X21.  Spend detective, in every state reachable from the initial one
    by presses, round starts and replies in whatever order they arrive:
    of the five blocks of the screen (loading, error, low data, board,
    completed round) exactly one is rendered, except that the low-data
    card and the completed round are rendered together when a guess
    completes the round after a restart has answered with low data; the
    low-data card never appears together with the board. *)
Theorem detective_blocks_rendered (es : list SpendDetective.Event) :
  let s := SpendDetective.run SpendDetective.initial es in
  let low_shown :=
    negb (SpendDetective.loading s) && negb (JS.truthy_str (SpendDetective.error s))
    && JS.truthy_str (SpendDetective.lowMsg s) in
  JS.rendered (SpendDetective.blocks s)
  = (if low_shown && SpendDetective.completed s then 2 else 1)%nat
  /\ (low_shown = true -> SpendDetective.board_shown s = false).
Proof.
  pose proof (detective_flags_run es SpendDetective.initial (or_introl eq_refl)) as Hinv.
  set (s := SpendDetective.run SpendDetective.initial es) in *. cbn zeta.
  unfold JS.rendered, SpendDetective.blocks, SpendDetective.board_shown.
  destruct Hinv as [H|[H|[(H1 & H2)|(H1 & H2)]]].
  - rewrite H. cbn. by rewrite andb_false_r.
  - rewrite H. by destruct (SpendDetective.loading s).
  - rewrite H1, H2.
    by destruct (SpendDetective.loading s), (JS.truthy_str (SpendDetective.error s)),
      (SpendDetective.completed s).
  - rewrite H1, H2.
    by destruct (SpendDetective.loading s), (JS.truthy_str (SpendDetective.error s)),
      (SpendDetective.completed s).
Qed.

(** The low-data card and the completed round are met together when a
    restart answered with low data overtakes the reply to a guess. *)
Lemma detective_low_data_and_completed_together :
  let s := SpendDetective.run SpendDetective.initial Samples.detective_restart_in_flight in
  SpendDetective.blocks s = [false; false; true; false; true]
  /\ JS.rendered (SpendDetective.blocks s) = 2%nat.
Proof. split; reflexivity. Qed.

Lemma matching_flags_same (s s' : Connections.State) :
  Connections.loading s' = Connections.loading s ->
  Connections.error s' = Connections.error s ->
  Connections.lowMsg s' = Connections.lowMsg s ->
  Connections.canPlay s' = Connections.canPlay s ->
  Connections.flags_inv s -> Connections.flags_inv s'.
Proof. unfold Connections.flags_inv. by intros -> -> -> ->. Qed.

Lemma matching_flags_startRound_reply (o : Connections.StartOutcome)
    (s : Connections.State) :
  Connections.lowMsg s = None ->
  Connections.flags_inv (Connections.startRound_reply o s).
Proof.
  intros Hlow. unfold Connections.startRound_reply, Connections.flags_inv.
  destruct o as [json|m].
  - destruct (Connections.ok json); cbn [negb].
    + destruct (Connections.can_play json) as [[]|]; cbn.
      * split; [discriminate|]. right. right. right. by rewrite Hlow.
      * split; [discriminate|]. right. right. left. split; [|done].
        by apply (or_str_truthy (Connections.message json)).
      * split; [discriminate|]. right. right. right. by rewrite Hlow.
    + split; [discriminate|].
      right. left. by apply (or_str_truthy (Connections.start_error json)).
  - split; [discriminate|]. right. left. by apply (or_str_truthy m).
Qed.

Lemma matching_flags_step (s : Connections.State) (e : Connections.Event) :
  Connections.flags_inv s -> Connections.flags_inv (Connections.step s e).
Proof.
  intros Hinv. destruct e as [i|i| |k o| | |o]; cbn [Connections.step].
  - destruct (Connections.unsolvedCategories s !! i); [|exact Hinv].
    by destruct (Connections.board_shown s).
  - destruct (Connections.unsolvedAmounts s !! i); [|exact Hinv].
    by destruct (Connections.board_shown s).
  - destruct (Connections.board_shown s); [|exact Hinv].
    unfold Connections.onCheck_press. by destruct (Connections.onCheck_blocked s).
  - destruct (Connections.checks s !! k) as [c|]; [|exact Hinv].
    destruct o as [json|]; [|exact Hinv].
    unfold Connections.onCheck_reply.
    by destruct (negb (Connections.sub_ok json) || _).
  - by destruct (Connections.timers s =? 0)%nat.
  - destruct (Connections.restart_shown s); [|exact Hinv].
    split; [done|by left].
  - destruct (Connections.loading s) eqn:Hl; [|exact Hinv].
    apply matching_flags_startRound_reply. by apply Hinv.
Qed.

Lemma matching_flags_run (es : list Connections.Event) (s : Connections.State) :
  Connections.flags_inv s -> Connections.flags_inv (Connections.run s es).
Proof.
  revert s. induction es as [|e es IH]; intros s Hs; [exact Hs|].
  cbn [Connections.run foldl]. apply IH. by apply matching_flags_step.
Qed.

(** X22.  Category matching, in every state reachable from the initial
    one: exactly one of the four cards of the screen (loading, error,
    low data, playable) is rendered. *)
Theorem matching_renders_one_card (es : list Connections.Event) :
  JS.rendered (Connections.cards (Connections.run Connections.initial es)) = 1%nat.
Proof.
  pose proof (matching_flags_run es Connections.initial
                (conj (fun _ => eq_refl) (or_introl eq_refl))) as Hinv.
  set (s := Connections.run Connections.initial es) in *.
  unfold JS.rendered, Connections.cards.
  destruct Hinv as [_ [H|[H|[(H1 & H2)|(H1 & H2)]]]].
  - rewrite H. cbn. by rewrite andb_false_r.
  - rewrite H. by destruct (Connections.loading s).
  - rewrite H1, H2.
    by destruct (Connections.loading s), (JS.truthy_str (Connections.error s)).
  - rewrite H1, H2.
    by destruct (Connections.loading s), (JS.truthy_str (Connections.error s)).
Qed.

End Rendered.

(** ** Server-backed quiz: a reload that fails *)

(** X23.  Server-backed quiz: when questions are loaded and a reload
    ends with an error, the old questions stay, the index is back at the
    first of them with nothing selected and no feedback, and the screen
    renders the quiz view on that question, not the error view, which is
    only rendered without a current question. *)
Theorem failed_reload_shows_the_old_quiz
    (s : Trivia.State) (o : Trivia.Outcome) (msg : string)
    (q0 : Trivia.Question) (qs : list Trivia.Question) :
  Trivia.st_questions s = q0 :: qs ->
  Trivia.error (Trivia.loadQuiz o s) = Some msg ->
  let s' := Trivia.loadQuiz o s in
  Trivia.st_questions s' = q0 :: qs
  /\ Trivia.currentQuestion s' = Some q0
  /\ Trivia.selectedIndex s' = None /\ Trivia.feedbackState s' = None
  /\ Trivia.view s' = Trivia.QuizView
  /\ (forall e, Trivia.view s' <> Trivia.ErrorView e).
Proof.
  intros Hq Herr s'.
  assert (Hfail : forall m, let s1 := Trivia.fail_with s m in
            Trivia.st_questions s1 = q0 :: qs
            /\ Trivia.currentQuestion s1 = Some q0
            /\ Trivia.selectedIndex s1 = None /\ Trivia.feedbackState s1 = None
            /\ Trivia.view s1 = Trivia.QuizView
            /\ (forall e, Trivia.view s1 <> Trivia.ErrorView e)).
  { intros m. cbn zeta. unfold Trivia.fail_with, Trivia.settle, Trivia.currentQuestion,
      Trivia.view. cbn. rewrite Hq. cbn. repeat split; done. }
  subst s'. revert Herr. unfold Trivia.loadQuiz.
  destruct o as [res|m]; [|intros _; apply Hfail].
  destruct (Trivia.ok res); cbn [negb]; [|intros _; apply Hfail].
  destruct (Trivia.can_play res); cbn [negb].
  - destruct (Trivia.questions res) as [[|q1 qs1]|]; try (intros _; apply Hfail).
    cbn. discriminate.
  - destruct (JS.truthy_bool (Trivia.insufficient_data res)
              && JS.truthy_str (Trivia.message res)); [|intros _; apply Hfail].
    cbn. discriminate.
Qed.

Lemma failed_reload_shows_the_old_quiz_witness :
  Trivia.view (Trivia.loadQuiz (Trivia.Threw None)
                 (Trivia.run Trivia.initial Samples.served_finished))
  = Trivia.QuizView.
Proof.
  destruct (failed_reload_shows_the_old_quiz
              (Trivia.run Trivia.initial Samples.served_finished)
              (Trivia.Threw None) "Failed to load quiz"
              (Samples.served "a") [Samples.served "b"; Samples.served "c"])
    as (_ & _ & _ & _ & H & _).
  - reflexivity.
  - reflexivity.
  - exact H.
Defined.
